(** * Heat diffusion on a mesh of Tinsel threads (apps/heat/heat.c)

    A shallow embedding of the per-thread program of [heat.c]: the
    topology computation, the stencil update, the boundary exchange loop
    with its phase-tagged messages, and the final emission of the
    subgrid; followed by a model of the whole mesh (threads plus FIFO
    channels) in which the protocol's invariants are proved. *)

From stdpp Require Import base numbers option list functions.

Local Open Scope Z_scope.

(** ** 32-bit machine integers

    [uint32_t] values are integers modulo 2^32, [int] values are their
    two's complement reading.  Every arithmetic operation of the source
    is followed by the wrap-around of its C type. *)

Module Int32.

Definition modulus : Z := 2 ^ 32.
Definition half_modulus : Z := 2 ^ 31.

(** Value of a [uint32_t] expression. *)
Definition u32 (x : Z) : Z := x mod modulus.

(** Value of an [int] expression (conversion from [uint32_t] included). *)
Definition s32 (x : Z) : Z := (x + half_modulus) mod modulus - half_modulus.

Definition is_u32 (x : Z) : Prop := 0 <= x < modulus.
Definition is_s32 (x : Z) : Prop := - half_modulus <= x < half_modulus.

Definition add (a b : Z) : Z := s32 (a + b).
Definition sub (a b : Z) : Z := s32 (a - b).
Definition shl (a n : Z) : Z := s32 (Z.shiftl a n).
(** [>>] on an [int] is the arithmetic shift. *)
Definition sar (a n : Z) : Z := Z.shiftr a n.

Definition uadd (a b : Z) : Z := u32 (a + b).
Definition usub (a b : Z) : Z := u32 (a - b).
Definition ushl (a n : Z) : Z := u32 (Z.shiftl a n).
Definition ushr (a n : Z) : Z := Z.shiftr a n.

End Int32.

Import Int32.

(** ** Directions and tags *)

(** [typedef enum {N=0, S=1, E=2, W=3} Dir;] *)
Inductive Dir : Type := N | S | E | W.

#[global] Instance Dir_eq_dec : EqDecision Dir.
Proof. solve_decision. Defined.

Definition Dir_to_Z (d : Dir) : Z :=
  match d with N => 0 | S => 1 | E => 2 | W => 3 end.

(** An [int] used as a [Dir] index of a four-element array; any other
    value indexes outside the array. *)
Definition Dir_of_Z (z : Z) : option Dir :=
  if z =? 0 then Some N
  else if z =? 1 then Some S
  else if z =? 2 then Some E
  else if z =? 3 then Some W
  else None.

Definition all_dirs : list Dir := [N; S; E; W].

Definition opposite (d : Dir) : Dir :=
  match d with
  | N => S
  | S => N
  | E => W
  | W => E
  end.

(** [#define FixedPoint(x, y) (((x) << 16) | (y))] *)
Definition FixedPoint (x y : Z) : Z := Z.lor (shl x 16) y.

(** First word of an outgoing edge: [(opposite(d) << 1) | (t & 1)]. *)
Definition tag_word (d : Dir) (t : Z) : Z :=
  Z.lor (shl (Dir_to_Z (opposite d)) 1) (Z.land t 1).

(** The two fields the receive handler reads from [msg[0]]. *)
Definition tag_dir (w : Z) : Z := sar w 1.
Definition tag_phase (w : Z) : Z := Z.land w 1.

(** ** Configuration and topology

    [TinselLogThreadsPerBoard] and [TinselLogWordsPerMsg] come from the
    Tinsel configuration header; they are parameters of the model. *)

Record Config : Type := mkConfig {
  TinselLogThreadsPerBoard : Z;
  TinselLogWordsPerMsg : Z
}.

Section Topology.

Variable cfg : Config.

Definition logLen : Z := ushr (TinselLogThreadsPerBoard cfg) 1.
Definition len : Z := u32 (Z.shiftl 1 logLen).

Definition xPos (me : Z) : Z := Z.land me (usub len 1).
Definition yPos (me : Z) : Z := ushr me logLen.

(** [neighbour[d]]: the conditional has type [uint32_t], the array
    element type is [int]. *)
Definition neighbour (me : Z) (d : Dir) : Z :=
  s32 match d with
      | N => if yPos me =? 0 then u32 (-1)
             else Z.lor (ushl (usub (yPos me) 1) logLen) (xPos me)
      | S => if yPos me =? usub len 1 then u32 (-1)
             else Z.lor (ushl (uadd (yPos me) 1) logLen) (xPos me)
      | E => if xPos me =? usub len 1 then u32 (-1)
             else Z.lor (ushl (yPos me) logLen) (uadd (xPos me) 1)
      | W => if xPos me =? 0 then u32 (-1)
             else Z.lor (ushl (yPos me) logLen) (usub (xPos me) 1)
      end.

(** The loop [for i in 0..3: if (neighbour[i] >= 0) neighbourList[n++] = i]. *)
Definition neighbourList (me : Z) : list Dir :=
  filter (fun d => 0 <= neighbour me d) all_dirs.

Definition numNeighbours (me : Z) : Z := Z.of_nat (length (neighbourList me)).

(** Subgrid side: [(1 << TinselLogWordsPerMsg) - 1], a [uint32_t]. *)
Definition L : Z := u32 (Z.shiftl 1 (TinselLogWordsPerMsg cfg) - 1).
Definition Ln : nat := Z.to_nat L.

(** Identities of the threads of the [len] x [len] mesh. *)
Definition valid_id (me : Z) : Prop := 0 <= me < len * len.

End Topology.

(** ** Thread-local state

    Arrays are lists indexed from 0.  An edge pointer ([edgeOut[d]],
    [edgeIn[d]], [edgeInBuffer[d]], the result of [tinselRecv]) is
    modelled by the contents of the mailbox slot it points to: the
    hardware writes a slot only between the [tinselAlloc] that releases
    it and the [tinselRecv] that returns it, and the thread releases a
    slot only after the stencil has consumed it.  A null
    [edgeInBuffer[d]] is [None]. *)

Abbreviation Slot := (list Z).
Abbreviation Grid := (list (list Z)).

Definition rd (s : list Z) (i : nat) : Z := default 0 (s !! i).
Definition grd (g : Grid) (y x : nat) : Z := rd (default [] (g !! y)) x.
Definition gwr (g : Grid) (y x : nat) (v : Z) : Grid :=
  alter (fun row => <[x := v]> row) y g.

Record Thread : Type := mkThread {
  t : Z;
  subgrid : Grid;
  newSubgrid : Grid;
  edgeOut : Dir -> Slot;
  edgeIn : Dir -> Slot;
  edgeInBuffer : Dir -> option Slot;
  edgesSent : Z;
  edgesReceived : Z
}.

Definition set_t (v : Z) (th : Thread) : Thread :=
  mkThread v (subgrid th) (newSubgrid th) (edgeOut th) (edgeIn th)
           (edgeInBuffer th) (edgesSent th) (edgesReceived th).
Definition set_grids (g g' : Grid) (th : Thread) : Thread :=
  mkThread (t th) g g' (edgeOut th) (edgeIn th)
           (edgeInBuffer th) (edgesSent th) (edgesReceived th).
Definition set_newSubgrid (g : Grid) (th : Thread) : Thread :=
  set_grids (subgrid th) g th.
Definition set_edgeOut (f : Dir -> Slot) (th : Thread) : Thread :=
  mkThread (t th) (subgrid th) (newSubgrid th) f (edgeIn th)
           (edgeInBuffer th) (edgesSent th) (edgesReceived th).
Definition set_edgeIn (f : Dir -> Slot) (th : Thread) : Thread :=
  mkThread (t th) (subgrid th) (newSubgrid th) (edgeOut th) f
           (edgeInBuffer th) (edgesSent th) (edgesReceived th).
Definition set_edgeInBuffer (f : Dir -> option Slot) (th : Thread) : Thread :=
  mkThread (t th) (subgrid th) (newSubgrid th) (edgeOut th) (edgeIn th)
           f (edgesSent th) (edgesReceived th).
Definition set_edgesSent (v : Z) (th : Thread) : Thread :=
  mkThread (t th) (subgrid th) (newSubgrid th) (edgeOut th) (edgeIn th)
           (edgeInBuffer th) v (edgesReceived th).
Definition set_edgesReceived (v : Z) (th : Thread) : Thread :=
  mkThread (t th) (subgrid th) (newSubgrid th) (edgeOut th) (edgeIn th)
           (edgeInBuffer th) (edgesSent th) v.

(** [edge[d][i] = v] on an array of edge pointers. *)
Definition wr_edge (f : Dir -> Slot) (d : Dir) (i : nat) (v : Z) : Dir -> Slot :=
  <[d := <[i := v]> (f d)]> f.

(** Memory the thread finds at start-up: the two stack arrays
    [subgridSpace] and [newSubgridSpace], and mailbox slots 0 to 7. *)
Record Memory : Type := mkMemory {
  subgridSpace : Grid;
  newSubgridSpace : Grid;
  tinselSlot : nat -> Slot
}.

(** A transmitted message: destination thread and slot contents. *)
Abbreviation Packet := (Z * Slot)%type.

(** Number of time steps to simulate. *)
Definition nsteps : Z := 1000.

Section Program.

Variable cfg : Config.
Variable me : Z.

Local Abbreviation L := (Ln cfg).

(** *** Initial state *)

Definition zero_subgrid (g : Grid) : Grid :=
  foldl (fun g i => foldl (fun g j => gwr g i j 0) g (seq 0 L)) g (seq 0 L).

(** [for (j = 1; j <= L; j++) edge[d][j] = v] *)
Definition fill_edge (v : Z) (d : Dir) (f : Dir -> Slot) : Dir -> Slot :=
  foldl (fun f j => wr_edge f d j v) f (seq 1 L).

Definition zero_edges (f : Dir -> Slot) : Dir -> Slot :=
  foldl (fun f d => fill_edge 0 d f) f all_dirs.

Definition initial_edges (f : Dir -> Slot) : Dir -> Slot :=
  let f := zero_edges f in
  let f := if yPos cfg me =? 0 then fill_edge (FixedPoint 255 0) N f else f in
  let f := if xPos cfg me =? 0 then fill_edge (FixedPoint 255 0) W f else f in
  let f := if yPos cfg me =? usub (len cfg) 1
           then fill_edge (FixedPoint 40 0) S f else f in
  let f := if xPos cfg me =? usub (len cfg) 1
           then fill_edge (FixedPoint 40 0) E f else f in
  f.

Definition slot_index (base : nat) (d : Dir) : nat :=
  (base + Z.to_nat (Dir_to_Z d))%nat.

Definition init_thread (m : Memory) : Thread :=
  {| t := 0;
     subgrid := zero_subgrid (subgridSpace m);
     newSubgrid := newSubgridSpace m;
     edgeOut := fun d => tinselSlot m (slot_index 0 d);
     edgeIn := initial_edges (fun d => tinselSlot m (slot_index 4 d));
     edgeInBuffer := fun _ => None;
     edgesSent := 0;
     edgesReceived := 0 |}.

(** *** Stencil update

    Loop indices are natural numbers; [L] is at least 1 whenever a loop
    body runs, so [x == L-1] is the comparison of naturals. *)

Definition left_of (th : Thread) (y x : nat) : Z :=
  if (x =? 0)%nat then rd (edgeIn th W) (y + 1) else grd (subgrid th) y (x - 1).
Definition right_of (th : Thread) (y x : nat) : Z :=
  if (x =? L - 1)%nat then rd (edgeIn th E) (y + 1) else grd (subgrid th) y (x + 1).
Definition above_of (th : Thread) (y x : nat) : Z :=
  if (y =? 0)%nat then rd (edgeIn th N) (x + 1) else grd (subgrid th) (y - 1) x.
Definition below_of (th : Thread) (y x : nat) : Z :=
  if (y =? L - 1)%nat then rd (edgeIn th S) (x + 1) else grd (subgrid th) (y + 1) x.

Definition surroundings (th : Thread) (y x : nat) : Z :=
  let l := left_of th y x in
  let r := right_of th y x in
  let a := above_of th y x in
  let b := below_of th y x in
  sar (add (add (add a b) l) r) 2.

Definition newTemp (th : Thread) (y x : nat) : Z :=
  sub (grd (subgrid th) y x) (sub (grd (subgrid th) y x) (surroundings th y x)).

(** Body of the inner loop at cell [(y, x)]. *)
Definition update_cell (th : Thread) (y x : nat) : Thread :=
  let v := newTemp th y x in
  let th := set_newSubgrid (gwr (newSubgrid th) y x v) th in
  let th := if (y =? 0)%nat
            then set_edgeOut (wr_edge (edgeOut th) N (x + 1) v) th else th in
  let th := if (y =? L - 1)%nat
            then set_edgeOut (wr_edge (edgeOut th) S (x + 1) v) th else th in
  let th := if (x =? 0)%nat
            then set_edgeOut (wr_edge (edgeOut th) W (y + 1) v) th else th in
  let th := if (x =? L - 1)%nat
            then set_edgeOut (wr_edge (edgeOut th) E (y + 1) v) th else th in
  th.

Definition update_row (th : Thread) (y : nat) : Thread :=
  foldl (fun th x => update_cell th y x) th (seq 0 L).

Definition update_state (th : Thread) : Thread :=
  foldl update_row th (seq 0 L).

(** *** Edge exchange *)

(** One round of "Recognise any buffered edges". *)
Definition recognise (th : Thread) (i : Dir) : Thread :=
  match edgeInBuffer th i with
  | Some m =>
      set_edgesReceived (add (edgesReceived th) 1)
        (set_edgeInBuffer (<[i := None]> (edgeInBuffer th))
           (set_edgeIn (<[i := m]> (edgeIn th)) th))
  | None => th
  end.

Definition recognise_buffered (th : Thread) : Thread :=
  foldl recognise th all_dirs.

Definition needToSend (th : Thread) : bool :=
  bool_decide (edgesSent th < numNeighbours cfg me).
Definition needToRecv (th : Thread) : bool :=
  bool_decide (edgesReceived th < numNeighbours cfg me).

(** Send handler.  [None] stands for an index outside [neighbourList]. *)
Definition send_handler (th : Thread) : option (Thread * Packet) :=
  if bool_decide (0 <= edgesSent th) then
    d ← neighbourList cfg me !! Z.to_nat (edgesSent th);
    let out := wr_edge (edgeOut th) d 0 (tag_word d (t th)) in
    Some (set_edgesSent (add (edgesSent th) 1) (set_edgeOut out th),
          (neighbour cfg me d, out d))
  else None.

(** Receive handler on the message returned by [tinselRecv].  [None]
    stands for a direction field outside the four-element arrays. *)
Definition recv_handler (msg : Slot) (th : Thread) : option Thread :=
  d ← Dir_of_Z (tag_dir (rd msg 0));
  if bool_decide (tag_phase (rd msg 0) = Z.land (t th) 1) then
    Some (set_edgesReceived (add (edgesReceived th) 1)
            (set_edgeIn (<[d := msg]> (edgeIn th)) th))
  else
    Some (set_edgeInBuffer (<[d := Some msg]> (edgeInBuffer th)) th).

(** What the transport offers when the thread wakes up:
    [tinselCanSend()], and the message [tinselRecv()] would return when
    [tinselCanRecv()] holds. *)
Record Event : Type := mkEvent {
  canSend : bool;
  canRecv : option Slot
}.

(** [tinselWaitUntil(waitCond)] returns only once a condition waited
    for holds. *)
Definition wakes (th : Thread) (ev : Event) : bool :=
  (needToSend th && canSend ev) || (needToRecv th && bool_decide (is_Some (canRecv ev))).

(** Body of the [for (;;)] loop after the [break] test. *)
Definition exchange_iter (ev : Event) (th : Thread)
  : option (Thread * list Packet) :=
  '(th1, out) ←
     (if needToSend th && canSend ev
      then '(th1, p) ← send_handler th; Some (th1, [p])
      else Some (th, []));
  th2 ← match canRecv ev with
        | Some msg => recv_handler msg th1
        | None => Some th1
        end;
  Some (th2, out).

Definition exchange_done (th : Thread) : bool :=
  negb (needToSend th) && negb (needToRecv th).

(** From the top of the simulation loop body to the entry of the
    send and receive loop: the stencil, the two counters set to zero,
    the buffered edges recognised.  ([tinselWaitUntil(TINSEL_CAN_SEND)]
    and the [tinselAlloc] of the consumed edges change nothing the
    model keeps.) *)
Definition begin_step (th : Thread) : Thread :=
  recognise_buffered
    (set_edgesReceived 0 (set_edgesSent 0 (update_state th))).

(** "Switch buffers for next time step", then [t++]. *)
Definition end_step (th : Thread) : Thread :=
  set_t (add (t th) 1) (set_grids (newSubgrid th) (subgrid th) th).

(** The send and receive loop run against a finite list of offers of
    the transport: the state when the loop breaks, or when the offers
    are exhausted with the loop still running ([inr]).  On an offer
    that does not satisfy the wait condition the thread stays
    suspended. *)
Fixpoint exchange_loop (evs : list Event) (th : Thread) (out : list Packet)
  : option ((Thread + Thread) * list Packet * list Event) :=
  if exchange_done th then Some (inl th, out, evs)
  else match evs with
       | [] => Some (inr th, out, [])
       | ev :: evs' =>
           if wakes th ev then
             '(th', o) ← exchange_iter ev th;
             exchange_loop evs' th' (out ++ o)
           else exchange_loop evs' th out
       end.

(** *** Result emission *)

Definition global_x : Z :=
  s32 (usub (ushl (xPos cfg me) (TinselLogWordsPerMsg cfg)) (xPos cfg me)).
Definition global_y : Z :=
  s32 (usub (ushl (yPos cfg me) (TinselLogWordsPerMsg cfg)) (yPos cfg me)).

(** The [int] expressions [y+i] and [x+j]. *)
Definition global_row (i : nat) : Z := add global_y (Z.of_nat i).
Definition global_col (j : nat) : Z := add global_x (Z.of_nat j).

(** The argument of [tinselHostPut] at cell [(i, j)]. *)
Definition result_word (g : Grid) (i j : nat) : Z :=
  let coords := u32 (Z.lor (shl (global_row i) 12) (global_col j)) in
  let temp := u32 (Z.land (sar (grd g i j) 16) 255) in
  Z.lor (ushl coords 8) temp.

(** The words passed to [tinselHostPut], in order. *)
Definition emit (th : Thread) : list Z :=
  foldl (fun out i =>
           foldl (fun out j => out ++ [result_word (subgrid th) i j])
                 out (seq 0 L))
        [] (seq 0 L).

(** One pass through the body of the simulation loop, run against a
    finite list of wake-ups. *)
Definition run_step (evs : list Event) (th : Thread)
  : option ((Thread + Thread) * list Packet * list Event) :=
  exchange_loop evs (begin_step th) [].

End Program.

(** ** Array shapes

    [int g[L][L]] and a mailbox slot of [1 << TinselLogWordsPerMsg]
    words, i.e. [L + 1] of them. *)

Definition grid_shape (n : nat) (g : Grid) : Prop :=
  length g = n /\ Forall (fun row => length row = n) g.

Definition slot_shape (n : nat) (s : Slot) : Prop := length s = (n + 1)%nat.

Definition thread_shape (n : nat) (th : Thread) : Prop :=
  grid_shape n (subgrid th) /\ grid_shape n (newSubgrid th) /\
  (forall d, slot_shape n (edgeOut th d)) /\
  (forall d, slot_shape n (edgeIn th d)).

Definition memory_shape (n : nat) (m : Memory) : Prop :=
  grid_shape n (subgridSpace m) /\ grid_shape n (newSubgridSpace m) /\
  (forall i, slot_shape n (tinselSlot m i)).

(** Cell of the subgrid whose value travels in word [i + 1] of the edge
    sent in direction [d]. *)
Definition boundary_cell (n : nat) (d : Dir) (i : nat) : nat * nat :=
  match d with
  | N => (0, i)
  | S => (n - 1, i)
  | W => (i, 0)
  | E => (i, n - 1)
  end%nat.

(** ** The result word as the specification writes it

    [((row << 12) | col) << 8 | temp] as a 32-bit word, [temp] being the
    integer part of the 16.16 value truncated to 8 bits. *)
Definition spec_result_word (row col v : Z) : Z :=
  u32 (Z.lor (Z.shiftl (Z.lor (Z.shiftl row 12) col) 8)
             (Z.land (Z.shiftr v 16) 255)).

(** The fields of a result word as the collector reads them back. *)
Definition word_row (w : Z) : Z := Z.shiftr w 20.
Definition word_col (w : Z) : Z := Z.land (Z.shiftr w 8) 4095.
Definition word_temp (w : Z) : Z := Z.land w 255.

(** Row-major enumeration of the cells of an [m] x [m] array. *)
Definition cells (m : nat) : list (nat * nat) :=
  y ← seq 0 m; x ← seq 0 m; [(y, x)].

(** The global grid has [len * L] rows and columns; its coordinates fit
    the 12-bit fields of a result word. *)
Definition coords_fit (cfg : Config) : Prop := len cfg * L cfg <= 2 ^ 12.

(** Well-formed configurations: thread identities fit a non-negative
    [int], and a message has at least two words. *)
Definition valid_config (cfg : Config) : Prop :=
  0 <= TinselLogThreadsPerBoard cfg <= 31 /\
  1 <= TinselLogWordsPerMsg cfg <= 31.

(** ** Notions used to state what the loops preserve *)

(** The part of a thread the stencil reads. *)
Definition same_inputs (th th' : Thread) : Prop :=
  subgrid th = subgrid th' /\ forall d, edgeIn th d = edgeIn th' d.

(** The part of a thread the stencil leaves alone. *)
Definition same_frame (th th' : Thread) : Prop :=
  t th = t th' /\ subgrid th = subgrid th' /\ edgeIn th = edgeIn th' /\
  edgeInBuffer th = edgeInBuffer th' /\ edgesSent th = edgesSent th' /\
  edgesReceived th = edgesReceived th'.

(** Agreement on everything but the counters and the buffer. *)
Definition core_eq (th th' : Thread) : Prop :=
  t th = t th' /\ subgrid th = subgrid th' /\ newSubgrid th = newSubgrid th' /\
  (forall d, edgeOut th d = edgeOut th' d) /\
  (forall d, edgeIn th d = edgeIn th' d).

(** The body of the stencil loop applied to a list of cells. *)
Definition update_cells (cfg : Config) (th : Thread) (cs : list (nat * nat)) : Thread :=
  foldl (fun th p => update_cell cfg th p.1 p.2) th cs.

(** During the exchange of step [k] the payload words of every outgoing
    edge are those the stencil [samples] left there. *)
Definition payload_kept (k : Z) (samples : Dir -> Slot) (th : Thread) : Prop :=
  t th = k /\
  forall d, length (edgeOut th d) = length (samples d) /\
    forall j, (1 <= j)%nat -> rd (edgeOut th d) j = rd (samples d) j.

(** A packet of step [k]: sent towards [d], tagged, payload intact. *)
Definition well_formed_packet (cfg : Config) (me : Z)
    (k : Z) (samples : Dir -> Slot) (p : Packet) : Prop :=
  exists d, d ∈ neighbourList cfg me /\ p.1 = neighbour cfg me d /\
    length p.2 = length (samples d) /\
    rd p.2 0 = tag_word d k /\
    forall j, (1 <= j)%nat -> rd p.2 j = rd (samples d) j.

(** ** The mesh: threads and channels

    Every thread of the mesh runs the program; [tinselSend] appends the
    message to the channel from the sender to the destination thread,
    [tinselRecv] takes the head of one of the channels into the
    receiver.  Delivery is reliable and keeps the order of each channel;
    which channel is served, and which thread runs, is arbitrary. *)

(** Where a thread is: in the send and receive loop of step [t], or
    past the simulation loop. *)
Inductive Control : Type := Exchanging | Finished.

Record Node : Type := mkNode {
  ctl : Control;
  thread : Thread;
  hostOut : list Z
}.

Record World : Type := mkWorld {
  node : Z -> Node;
  chan : Z * Z -> list Slot
}.

Definition count_dirs (f : Dir -> bool) : Z :=
  Z.b2z (f N) + Z.b2z (f S) + Z.b2z (f E) + Z.b2z (f W).

Section Mesh.

Variable cfg : Config.
(** Start-up memory of each thread. *)
Variable mem : Z -> Memory.

(** The test of the simulation loop, then either the top of its body
    or the code after it. *)
Definition enter_loop (me : Z) (th : Thread) : Node :=
  if bool_decide (t th < nsteps)
  then mkNode Exchanging (begin_step cfg th) []
  else mkNode Finished th (emit cfg me th).

Definition boot (me : Z) : Node := enter_loop me (init_thread cfg me (mem me)).

Definition init_world : World := mkWorld boot (fun _ => []).

Definition transmit (src : Z) (out : list Packet) (c : Z * Z -> list Slot)
  : Z * Z -> list Slot :=
  foldl (fun c p => <[(src, p.1) := c (src, p.1) ++ [p.2]]> c) c out.

(** [c'] is [c] with the received message, if any, taken from the head
    of a channel into [me]. *)
Definition delivered (me : Z) (m : option Slot) (c c' : Z * Z -> list Slot) : Prop :=
  match m with
  | Some msg => exists src rest, c (src, me) = msg :: rest /\
                  c' = <[(src, me) := rest]> c
  | None => c' = c
  end.

Inductive step : World -> World -> Prop :=
| step_iter w me ev th' out c' :
    valid_id cfg me ->
    ctl (node w me) = Exchanging ->
    exchange_done cfg me (thread (node w me)) = false ->
    wakes cfg me (thread (node w me)) ev = true ->
    exchange_iter cfg me ev (thread (node w me)) = Some (th', out) ->
    delivered me (canRecv ev) (transmit me out (chan w)) c' ->
    step w (mkWorld (<[me := mkNode Exchanging th' []]> (node w)) c')
| step_next w me :
    valid_id cfg me ->
    ctl (node w me) = Exchanging ->
    exchange_done cfg me (thread (node w me)) = true ->
    step w (mkWorld (<[me := enter_loop me (end_step (thread (node w me)))]> (node w))
                    (chan w)).

Inductive reachable : World -> Prop :=
| reach_init : reachable init_world
| reach_step w w' : reachable w -> step w w' -> reachable w'.

(** *** The same program in lock step

    All threads run step [k] together: each applies the stencil, then
    every edge is handed over at once.  [lockstep k me] is the state of
    thread [me] at the top of iteration [k] of the simulation loop. *)

Definition tagged (k : nat) (th : Thread) (d : Dir) : Slot :=
  <[0%nat := tag_word d (Z.of_nat k)]> (edgeOut th d).

Definition deliver_all (k : nat) (cur : Z -> Thread) (me : Z) : Thread :=
  let th := cur me in
  set_edgeIn
    (fun d => if bool_decide (0 <= neighbour cfg me d)
              then tagged k (cur (neighbour cfg me d)) (opposite d)
              else edgeIn th d)
    (set_edgeOut
       (fun d => if bool_decide (0 <= neighbour cfg me d)
                 then tagged k th d else edgeOut th d)
       th).

Fixpoint lockstep (k : nat) (me : Z) : Thread :=
  match k with
  | O => init_thread cfg me (mem me)
  | Datatypes.S k' =>
      end_step (deliver_all k' (fun a => update_state cfg (lockstep k' a)) me)
  end.

(** State after the stencil of step [k], and the edge sent in it. *)
Definition stencilled (k : nat) (me : Z) : Thread :=
  update_state cfg (lockstep k me).
Definition sent_msg (k : nat) (me : Z) (d : Dir) : Slot :=
  tagged k (stencilled k me) d.

(** *** Bookkeeping of the protocol *)

(** Has the edge towards [d] been sent in the current step? *)
Definition sent_flag (me : Z) (th : Thread) (d : Dir) : bool :=
  bool_decide (d ∈ take (Z.to_nat (edgesSent th)) (neighbourList cfg me)).

(** Number of edges sent towards [d] since start-up. *)
Definition sent_total (me : Z) (nd : Node) (d : Dir) : Z :=
  t (thread nd) +
  match ctl nd with
  | Exchanging => Z.b2z (sent_flag me (thread nd) d)
  | Finished => 0
  end.

Section Local.

(** What thread [me] can see: its own state [nd], and for the
    neighbour in each direction [d] the edges that neighbour has sent
    it ([tot d] of them) and those still in the channel ([inc d]). *)
Variable me : Z.
Variable nd : Node.
Variable tot : Dir -> Z.
Variable inc : Dir -> list Slot.

Definition received (d : Dir) : Z := tot d - Z.of_nat (length (inc d)).

(** The edge of the current step from direction [d] has been taken. *)
Definition got (d : Dir) : bool :=
  bool_decide (0 <= neighbour cfg me d /\ t (thread nd) + 1 <= received d).

(** So has the edge of the next step. *)
Definition early (d : Dir) : bool :=
  bool_decide (0 <= neighbour cfg me d /\ t (thread nd) + 2 <= received d).

Definition exchanging_inv (th : Thread) (k : nat) : Prop :=
  subgrid th = subgrid (stencilled k me) /\
  newSubgrid th = newSubgrid (stencilled k me) /\
  (forall d, edgeOut th d =
     if sent_flag me th d then sent_msg k me d else edgeOut (stencilled k me) d) /\
  (forall d, edgeIn th d =
     if got d then sent_msg k (neighbour cfg me d) (opposite d)
     else edgeIn (stencilled k me) d) /\
  (forall d, edgeInBuffer th d =
     if early d then Some (sent_msg (k + 1) (neighbour cfg me d) (opposite d))
     else None) /\
  0 <= edgesSent th <= numNeighbours cfg me /\
  edgesReceived th = count_dirs got.

Record node_inv : Prop := mkNodeInv {
  inv_time : 0 <= t (thread nd) <= nsteps;
  inv_ctl : match ctl nd with
            | Exchanging => t (thread nd) < nsteps
            | Finished => t (thread nd) = nsteps
            end;
  inv_shape : thread_shape (Ln cfg) (thread nd);
  inv_received : forall d, 0 <= neighbour cfg me d -> t (thread nd) <= received d;
  inv_channel : forall d i m, 0 <= neighbour cfg me d -> inc d !! i = Some m ->
    m = sent_msg (Z.to_nat (received d) + i) (neighbour cfg me d) (opposite d);
  inv_state : match ctl nd with
              | Exchanging => exchanging_inv (thread nd) (Z.to_nat (t (thread nd)))
              | Finished =>
                  core_eq (thread nd) (lockstep (Z.to_nat nsteps) me) /\
                  hostOut nd = emit cfg me (thread nd)
              end
}.

End Local.

Definition incoming_total (w : World) (me : Z) (d : Dir) : Z :=
  sent_total (neighbour cfg me d) (node w (neighbour cfg me d)) (opposite d).

Definition incoming (w : World) (me : Z) (d : Dir) : list Slot :=
  chan w (neighbour cfg me d, me).

Definition world_inv (w : World) : Prop :=
  (forall me, valid_id cfg me ->
     node_inv me (node w me) (incoming_total w me) (incoming w me)) /\
  (forall src dst, chan w (src, dst) <> [] ->
     valid_id cfg src /\ 0 <= dst /\ exists d, neighbour cfg src d = dst).

End Mesh.

(** *** Running the mesh under a schedule

    A schedule says which thread moves and what the transport offers
    it; [perform] is the step relation as a function. *)

Inductive Move : Type :=
| Iterate (me : Z) (cs : bool) (src : option Z)
    (* one loop iteration: [tinselCanSend()] is [cs]; a message is
       received from [src], or none *)
| Advance (me : Z).
    (* the [break], the buffer switch and the top of the next step *)

#[global] Instance valid_id_dec cfg me : Decision (valid_id cfg me).
Proof. unfold valid_id. apply _. Defined.

#[global] Instance Control_eq_dec : EqDecision Control.
Proof. solve_decision. Defined.

Section Schedule.

Variable cfg : Config.
Variable mem : Z -> Memory.

Definition may_move (w : World) (me : Z) : bool :=
  bool_decide (valid_id cfg me) && bool_decide (ctl (node w me) = Exchanging).

Definition iterate (w : World) (me : Z) (ev : Event) : option (Thread * (Z * Z -> list Slot)) :=
  if may_move w me && negb (exchange_done cfg me (thread (node w me)))
       && wakes cfg me (thread (node w me)) ev
  then '(th', out) ← exchange_iter cfg me ev (thread (node w me));
       Some (th', transmit me out (chan w))
  else None.

Definition perform (w : World) (mv : Move) : option World :=
  match mv with
  | Iterate me cs None =>
      '(th', c1) ← iterate w me (mkEvent cs None);
      Some (mkWorld (<[me := mkNode Exchanging th' []]> (node w)) c1)
  | Iterate me cs (Some src) =>
      match chan w (src, me) with
      | [] => None
      | msg :: _ =>
          '(th', c1) ← iterate w me (mkEvent cs (Some msg));
          match c1 (src, me) with
          | m :: rest =>
              if decide (m = msg)
              then Some (mkWorld (<[me := mkNode Exchanging th' []]> (node w))
                                 (<[(src, me) := rest]> c1))
              else None
          | [] => None
          end
      end
  | Advance me =>
      if may_move w me && exchange_done cfg me (thread (node w me))
      then Some (mkWorld (<[me := enter_loop cfg me (end_step (thread (node w me)))]>
                            (node w))
                         (chan w))
      else None
  end.

(** Moves that cannot be made are skipped. *)
Definition run (w : World) (mvs : list Move) : World :=
  foldl (fun w mv => default w (perform w mv)) w mvs.

End Schedule.

(** ** Notions used to state further properties *)

(** The position one step away from [(y, x)] in direction [d]. *)
Definition toward (d : Dir) (y x : Z) : Z * Z :=
  match d with
  | N => (y - 1, x)
  | S => (y + 1, x)
  | E => (y, x + 1)
  | W => (y, x - 1)
  end.

(** The thread lies on the border of the mesh in direction [d]: the
    tests of the source, on the coordinates. *)
Definition on_border (cfg : Config) (me : Z) (d : Dir) : bool :=
  match d with
  | N => yPos cfg me =? 0
  | S => yPos cfg me =? len cfg - 1
  | E => xPos cfg me =? len cfg - 1
  | W => xPos cfg me =? 0
  end.

(** Temperature applied at the border of the mesh in direction [d]:
    heat at north and west, cool at south and east. *)
Definition boundary_temp (d : Dir) : Z :=
  match d with
  | N | W => FixedPoint 255 0
  | S | E => FixedPoint 40 0
  end.

Definition hottest : Z := FixedPoint 255 0.

(** The values the stencil reads all lie between [lo] and [hi]. *)
Definition inputs_within (n : nat) (lo hi : Z) (th : Thread) : Prop :=
  (forall y x, (y < n)%nat -> (x < n)%nat -> lo <= grd (subgrid th) y x <= hi) /\
  (forall d j, (1 <= j <= n)%nat -> lo <= rd (edgeIn th d) j <= hi).

(** The thread a run of the exchange loop ends in, finished or not. *)
Definition loop_state (r : Thread + Thread) : Thread :=
  match r with inl th | inr th => th end.

(** What the exchange loop keeps true from one iteration to the next:
    the step and the grids of [th0], and one packet sent to each of the
    first [edgesSent] neighbours of the list. *)
Definition exchange_inv (cfg : Config) (me : Z) (th0 th : Thread)
    (out : list Packet) : Prop :=
  t th = t th0 /\ subgrid th = subgrid th0 /\ newSubgrid th = newSubgrid th0 /\
  0 <= edgesSent th <= numNeighbours cfg me /\
  out.*1 = neighbour cfg me <$> take (Z.to_nat (edgesSent th)) (neighbourList cfg me).

(** The message an event carries is at the head of a channel into [me]. *)
Definition offered (w : World) (me : Z) (ev : Event) : Prop :=
  match canRecv ev with
  | Some msg => exists src rest, chan w (src, me) = msg :: rest
  | None => True
  end.

(** *** The global grid

    Thread [(yPos, xPos)] holds rows [yPos * L ..] and columns
    [xPos * L ..] of a grid of [len * L] by [len * L] cells. *)

(** The thread that holds cell [(r, c)] of the global grid. *)
Definition owner (cfg : Config) (r c : Z) : Z :=
  (r `div` L cfg) * len cfg + c `div` L cfg.

(** Temperature at [(r, c)] at the top of step [k] of the lock-step run;
    outside the grid, the temperature applied at that border. *)
Definition global_temp (cfg : Config) (mem : Z -> Memory) (k : nat) (r c : Z) : Z :=
  if r <? 0 then boundary_temp N
  else if len cfg * L cfg <=? r then boundary_temp S
  else if c <? 0 then boundary_temp W
  else if len cfg * L cfg <=? c then boundary_temp E
  else grd (subgrid (lockstep cfg mem k (owner cfg r c)))
           (Z.to_nat (r `mod` L cfg)) (Z.to_nat (c `mod` L cfg)).

(** *** A measure of the work left *)

Definition sumZ {A} (f : A -> Z) (l : list A) : Z :=
  foldr (fun a s => f a + s) 0 l.

(** The thread identities of the mesh. *)
Definition ids (cfg : Config) : list Z := seqZ 0 (len cfg * len cfg).

(** Steps and sends thread [me] still has to make: 9 units per step to
    go, less 2 for each edge already sent in the current step. *)
Definition own_work (cfg : Config) (w : World) (me : Z) : Z :=
  match ctl (node w me) with
  | Exchanging =>
      9 * (nsteps - t (thread (node w me))) - 2 * edgesSent (thread (node w me))
  | Finished => 0
  end.

(** Messages on their way to thread [me]. *)
Definition in_flight (cfg : Config) (c : Z * Z -> list Slot) (me : Z) : Z :=
  sumZ (fun d => if bool_decide (0 <= neighbour cfg me d)
                 then Z.of_nat (length (c (neighbour cfg me d, me))) else 0)
       all_dirs.

Definition potential (cfg : Config) (w : World) : Z :=
  sumZ (own_work cfg w) (ids cfg) + sumZ (in_flight cfg (chan w)) (ids cfg).

(** Runs of the mesh of a given number of moves. *)
Inductive steps (cfg : Config) : nat -> World -> World -> Prop :=
| steps_none w : steps cfg 0 w w
| steps_more m w w1 w2 : step cfg w w1 -> steps cfg m w1 w2 ->
    steps cfg (Datatypes.S m) w w2.

(** *** A small mesh to run: 2 x 2 threads, subgrids of 3 x 3 cells *)

Definition demo_config : Config := mkConfig 2 2.

(** Start-up memory with arbitrary contents. *)
Definition demo_memory (me : Z) : Memory :=
  mkMemory (replicate 3 (replicate 3 7)) (replicate 3 (replicate 3 9))
           (fun i => replicate 4 (Z.of_nat i + me)).

Definition demo_world : World := init_world demo_config demo_memory.

(** Threads 0, 1 and 2 send their edges of step 0. *)
Definition demo_sends : list Move :=
  [Iterate 0 true None; Iterate 0 true None;
   Iterate 1 true None; Iterate 1 true None;
   Iterate 2 true None; Iterate 2 true None].

(** Thread 0 takes the edge from the east first, then the one from the
    south, and goes on to step 1. *)
Definition demo_east_first : list Move :=
  demo_sends ++ [Iterate 0 false (Some 1); Iterate 0 false (Some 2); Advance 0].

(** The same with the two arrivals swapped, and thread 3 sending in
    between. *)
Definition demo_south_first : list Move :=
  demo_sends ++ [Iterate 0 false (Some 2); Iterate 3 true None;
                 Iterate 0 false (Some 1); Advance 0].

(** Thread 1 completes step 0 and sends its edges of step 1 while
    thread 0 is still in step 0 and has only taken thread 1's edge of
    step 0: the edge of step 1 is next in the channel from 1 to 0. *)
Definition demo_one_ahead : list Move :=
  [Iterate 0 true None; Iterate 0 true None; Iterate 3 true None;
   Iterate 1 true (Some 0); Iterate 1 true (Some 3); Advance 1;
   Iterate 1 true None; Iterate 1 true None;
   Iterate 0 false (Some 1)].

(** *** A mesh of one thread, run to the end *)

Definition solo_config : Config := mkConfig 0 2.

Definition solo_run : World :=
  run solo_config (init_world solo_config demo_memory)
      (replicate 1000 (Advance 0)).

(** What thread 0 of the 2 x 2 mesh is offered in its first exchange:
    two chances to send, then an edge from the east and one from the
    south, both of step 0. *)
Definition demo_offers : list Event :=
  [mkEvent true None; mkEvent true None;
   mkEvent false (Some [4; 0; 0; 0]); mkEvent false (Some [2; 0; 0; 0])].

(** A thread state with a different value in every cell of the subgrid
    and in every payload word of the incoming edges. *)
Definition probe_thread : Thread :=
  {| t := 1;
     subgrid := [[100; 200; 300]; [400; 500; 600]; [700; 800; 900]];
     newSubgrid := replicate 3 (replicate 3 0);
     edgeOut := fun _ => replicate 4 0;
     edgeIn := fun d => match d with
                        | N => [0; 11; 12; 13]
                        | S => [0; 21; 22; 23]
                        | E => [0; 31; 32; 33]
                        | W => [0; 41; 42; 43]
                        end;
     edgeInBuffer := fun _ => None;
     edgesSent := 0;
     edgesReceived := 0 |}.

(** *** A mesh wider than the coordinate fields: 8192 x 8192 threads,
    subgrids of one cell *)

Definition wide_config : Config := mkConfig 26 1.

Definition wide_thread (me : Z) : Thread :=
  init_thread wide_config me (mkMemory [[7]] [[9]] (fun _ => [0; 0])).

(* ================================================================== *)
(** * Properties *)

(** Projections of updated thread records. *)
Ltac thread_simpl :=
  cbn [t subgrid newSubgrid edgeOut edgeIn edgeInBuffer edgesSent edgesReceived
       set_t set_grids set_newSubgrid set_edgeOut set_edgeIn set_edgeInBuffer
       set_edgesSent set_edgesReceived fst snd] in *.

(** ** Machine arithmetic *)

Section Int32Facts.

Lemma u32_small x : is_u32 x -> u32 x = x.
Proof. unfold is_u32, u32. intros. by apply Z.mod_small. Qed.

Lemma s32_small x : is_s32 x -> s32 x = x.
Proof.
  unfold is_s32, s32, modulus, half_modulus. intros.
  rewrite Z.mod_small; lia.
Qed.

Lemma s32_range x : is_s32 (s32 x).
Proof.
  unfold is_s32, s32, modulus, half_modulus.
  pose proof (Z.mod_pos_bound (x + 2 ^ 31) (2 ^ 32)). lia.
Qed.

Lemma u32_range x : is_u32 (u32 x).
Proof. unfold is_u32, u32, modulus. apply Z.mod_pos_bound. lia. Qed.

Lemma s32_eqm x y k : x = y + k * modulus -> s32 x = s32 y.
Proof.
  intros ->. unfold s32.
  replace (y + k * modulus + half_modulus) with (y + half_modulus + k * modulus) by lia.
  by rewrite Z.mod_add.
Qed.

Lemma s32_s32_add x y : s32 (s32 x + y) = s32 (x + y).
Proof.
  unfold s32 at 2.
  pose proof (Z.div_mod (x + half_modulus) modulus ltac:(done)) as E.
  apply (s32_eqm _ _ (- ((x + half_modulus) `div` modulus))). lia.
Qed.

Lemma s32_add_s32 x y : s32 (x + s32 y) = s32 (x + y).
Proof. rewrite Z.add_comm, s32_s32_add. f_equal. lia. Qed.

Lemma s32_sub_s32 x y : s32 (x - s32 y) = s32 (x - y).
Proof.
  unfold s32 at 2.
  pose proof (Z.div_mod (y + half_modulus) modulus ltac:(done)) as E.
  apply (s32_eqm _ _ ((y + half_modulus) `div` modulus)). lia.
Qed.

(** [a | b] is [a + b] when [a] is a multiple of [2^k] and [b] is below it. *)
Lemma lor_mul_pow2 a b k :
  0 <= k -> 0 <= b < 2 ^ k -> Z.lor (a * 2 ^ k) b = a * 2 ^ k + b.
Proof.
  intros Hk Hb. symmetry. apply Z.add_nocarry_lor.
  apply Z.bits_inj'. intros m Hm.
  rewrite Z.land_spec, Z.bits_0, <- Z.shiftl_mul_pow2 by done.
  destruct (decide (m < k)).
  - by rewrite Z.shiftl_spec_low.
  - destruct (decide (b = 0)) as [->|]; [by rewrite Z.bits_0, andb_false_r|].
    assert (Z.log2 b < m).
    { apply Z.log2_lt_pow2; [lia|].
      apply Z.lt_le_trans with (2 ^ k); [lia|].
      apply Z.pow_le_mono_r; lia. }
    rewrite (Z.bits_above_log2 b m) by lia. by rewrite andb_false_r.
Qed.

Lemma land_1_mod x : Z.land x 1 = x mod 2.
Proof. change 1 with (Z.ones 1) at 1. by rewrite Z.land_ones. Qed.

Lemma land_1_cases x : Z.land x 1 = 0 \/ Z.land x 1 = 1.
Proof. rewrite land_1_mod. pose proof (Z.mod_pos_bound x 2). lia. Qed.

End Int32Facts.

(** ** Tags *)

Section Tags.

Lemma Dir_of_to_Z d : Dir_of_Z (Dir_to_Z d) = Some d.
Proof. by destruct d. Qed.

Lemma opposite_involutive d : opposite (opposite d) = d.
Proof. by destruct d. Qed.

Lemma opposite_inj d d' : opposite d = opposite d' -> d = d'.
Proof. destruct d, d'; by inversion 1. Qed.

Lemma tag_word_fields d t :
  tag_dir (tag_word d t) = Dir_to_Z (opposite d) /\
  tag_phase (tag_word d t) = Z.land t 1.
Proof.
  unfold tag_word.
  destruct (land_1_cases t) as [-> | ->]; destruct d; by vm_compute.
Qed.

(** C9. Tag round trip: for every direction [d] and every step [t]
    (hence every phase bit, 0 or 1), the word
    [(opposite(d) << 1) | (t & 1)] written by the sender decodes, by
    [w >> 1] and [w & 1], to exactly the direction [opposite(d)] and the
    phase bit [t & 1]; in particular a phase bit [p] in {0, 1} written
    directly is read back unchanged. *)
Theorem tag_roundtrip (d : Dir) (t : Z) :
  (Z.land t 1 = 0 \/ Z.land t 1 = 1) /\
  tag_dir (tag_word d t) = Dir_to_Z (opposite d) /\
  Dir_of_Z (tag_dir (tag_word d t)) = Some (opposite d) /\
  tag_phase (tag_word d t) = Z.land t 1 /\
  tag_phase (tag_word d 0) = 0 /\
  tag_phase (tag_word d 1) = 1.
Proof.
  destruct (tag_word_fields d t) as [Hd Hp].
  split; [apply land_1_cases|].
  split; [done|]. split; [by rewrite Hd, Dir_of_to_Z|].
  split; [done|]. split; by destruct d.
Qed.

End Tags.

(** ** Topology *)

Section TopologyFacts.

Variable cfg : Config.
Hypothesis Hcfg : valid_config cfg.

Local Abbreviation k := (logLen cfg).
Local Abbreviation n := (len cfg).

Lemma logLen_range : 0 <= k <= 15.
Proof.
  destruct Hcfg as [[H0 H1] _]. unfold logLen, ushr.
  rewrite Z.shiftr_div_pow2 by done. change (2 ^ 1) with 2.
  split; [apply Z.div_pos; lia|].
  enough (TinselLogThreadsPerBoard cfg `div` 2 < 16) by lia.
  apply Z.div_lt_upper_bound; lia.
Qed.

Lemma len_pow2 : n = 2 ^ k.
Proof.
  pose proof logLen_range as Hk. unfold len.
  rewrite Z.shiftl_mul_pow2, Z.mul_1_l by lia.
  apply u32_small. unfold is_u32, modulus.
  split; [apply Z.pow_nonneg; lia|].
  apply Z.pow_lt_mono_r; lia.
Qed.

Lemma len_range : 1 <= n <= 2 ^ 15.
Proof.
  pose proof logLen_range as Hk. rewrite len_pow2. split.
  - change 1 with (2 ^ 0). apply Z.pow_le_mono_r; lia.
  - apply Z.pow_le_mono_r; lia.
Qed.

Lemma len_pred : usub n 1 = n - 1.
Proof.
  pose proof len_range. apply u32_small. unfold is_u32, modulus. lia.
Qed.

Lemma len_pred_ones : usub n 1 = Z.ones k.
Proof. rewrite len_pred, len_pow2, Z.ones_equiv. lia. Qed.

Lemma xPos_mod me : xPos cfg me = me mod n.
Proof.
  pose proof logLen_range. unfold xPos.
  rewrite len_pred_ones, Z.land_ones by lia. by rewrite len_pow2.
Qed.

Lemma yPos_div me : yPos cfg me = me `div` n.
Proof.
  pose proof logLen_range. unfold yPos, ushr.
  rewrite Z.shiftr_div_pow2 by lia. by rewrite len_pow2.
Qed.

Lemma xPos_range me : 0 <= xPos cfg me < n.
Proof. pose proof len_range. rewrite xPos_mod. apply Z.mod_pos_bound. lia. Qed.

Lemma yPos_range me : valid_id cfg me -> 0 <= yPos cfg me < n.
Proof.
  pose proof len_range. intros [Hl Hu]. rewrite yPos_div. split.
  - apply Z.div_pos; lia.
  - apply Z.div_lt_upper_bound; lia.
Qed.

Lemma id_coords me : me = yPos cfg me * n + xPos cfg me.
Proof.
  pose proof len_range. rewrite xPos_mod, yPos_div.
  rewrite (Z.div_mod me n) at 1; lia.
Qed.

Lemma xPos_coords y x : 0 <= x < n -> xPos cfg (y * n + x) = x.
Proof.
  intros. rewrite xPos_mod, Z.add_comm, Z.mod_add by lia.
  by apply Z.mod_small.
Qed.

Lemma yPos_coords y x : 0 <= x < n -> yPos cfg (y * n + x) = y.
Proof.
  intros. rewrite yPos_div, Z.add_comm, Z.div_add by lia.
  rewrite Z.div_small; lia.
Qed.

Lemma valid_coords y x :
  0 <= y < n -> 0 <= x < n -> valid_id cfg (y * n + x).
Proof. unfold valid_id. nia. Qed.

(** The identity built by [(y << logLen) | x] for in-range coordinates. *)
Lemma make_id y x :
  0 <= y < n -> 0 <= x < n ->
  s32 (Z.lor (ushl y k) x) = y * n + x.
Proof.
  pose proof logLen_range as Hk. pose proof len_range as Hn.
  intros Hy Hx.
  assert (n * n <= 2 ^ 30).
  { rewrite len_pow2, <- Z.pow_add_r by lia. apply Z.pow_le_mono_r; lia. }
  unfold ushl. rewrite Z.shiftl_mul_pow2, <- len_pow2 by lia.
  rewrite u32_small by (unfold is_u32, modulus; nia).
  rewrite len_pow2 at 1. rewrite lor_mul_pow2, <- len_pow2 by (rewrite <- ?len_pow2; lia).
  apply s32_small. unfold is_s32, half_modulus. nia.
Qed.

(** [neighbour] in terms of the coordinates. *)
Lemma neighbour_coords me d :
  valid_id cfg me ->
  neighbour cfg me d =
    match d with
    | N => if yPos cfg me =? 0 then -1
           else (yPos cfg me - 1) * n + xPos cfg me
    | S => if yPos cfg me =? n - 1 then -1
           else (yPos cfg me + 1) * n + xPos cfg me
    | E => if xPos cfg me =? n - 1 then -1
           else yPos cfg me * n + (xPos cfg me + 1)
    | W => if xPos cfg me =? 0 then -1
           else yPos cfg me * n + (xPos cfg me - 1)
    end.
Proof.
  intros Hv. pose proof (xPos_range me) as Hx.
  pose proof (yPos_range me Hv) as Hy. pose proof len_range as Hn.
  assert (forall z, 0 <= z < n + 1 -> u32 z = z) as Hsmall.
  { intros. apply u32_small. unfold is_u32, modulus. lia. }
  unfold neighbour. rewrite len_pred.
  destruct d; case_match; try done; unfold uadd, usub;
    rewrite Hsmall by lia; apply make_id; lia.
Qed.

Lemma neighbour_range me d :
  valid_id cfg me -> neighbour cfg me d = -1 \/ valid_id cfg (neighbour cfg me d).
Proof.
  intros Hv. pose proof (xPos_range me) as Hx.
  pose proof (yPos_range me Hv) as Hy.
  rewrite neighbour_coords by done.
  destruct d; case_match; auto; right; apply valid_coords; lia.
Qed.

Lemma neighbour_opposite (A B : Z) (d : Dir) :
  valid_id cfg A ->
  neighbour cfg A d = B ->
  0 <= B ->
  valid_id cfg B /\ neighbour cfg B (opposite d) = A.
Proof.
  intros Hv HB Hpos.
  pose proof (xPos_range A) as Hx. pose proof (yPos_range A Hv) as Hy.
  assert (valid_id cfg B) as HvB.
  { destruct (neighbour_range A d Hv) as [E1|]; [lia | by subst]. }
  split; [done|].
  rewrite neighbour_coords by done.
  rewrite neighbour_coords in HB by done.
  pose proof (id_coords A) as HA.
  set (y := yPos cfg A) in *. set (x := xPos cfg A) in *.
  clearbody x y. subst A.
  destruct d; simpl; simpl in HB; case_match; try lia; subst B;
    rewrite ?xPos_coords, ?yPos_coords by lia;
    case_match; try lia; f_equal; lia.
Qed.

(** C5. Topology symmetry: for every thread identity [A] of the mesh
    and every direction [d], if [neighbour] computed at [A] gives a
    thread [B] in direction [d] (an entry other than the "no such
    thread" marker, i.e. non-negative), then [B] is a thread of the mesh
    and [neighbour] computed at [B] gives [A] in direction
    [opposite d]. *)
Theorem topology_symmetry (A B : Z) (d : Dir) :
  valid_id cfg A ->
  neighbour cfg A d = B ->
  0 <= B ->
  valid_id cfg B /\ neighbour cfg B (opposite d) = A.
Proof. apply neighbour_opposite. Qed.

End TopologyFacts.

(** ** The handlers of the exchange loop *)

Section Handlers.

Variable cfg : Config.
Variable me : Z.

Lemma send_handler_defined th :
  0 <= edgesSent th -> needToSend cfg me th = true ->
  exists d, neighbourList cfg me !! Z.to_nat (edgesSent th) = Some d /\
    send_handler cfg me th =
      Some (set_edgesSent (add (edgesSent th) 1)
              (set_edgeOut (wr_edge (edgeOut th) d 0 (tag_word d (t th))) th),
            (neighbour cfg me d,
             wr_edge (edgeOut th) d 0 (tag_word d (t th)) d)).
Proof.
  intros H0 Hn. unfold needToSend, numNeighbours in Hn.
  apply bool_decide_eq_true in Hn.
  destruct (lookup_lt_is_Some_2 (neighbourList cfg me) (Z.to_nat (edgesSent th)))
    as [d Hd]; [lia|].
  exists d. split; [done|].
  unfold send_handler. rewrite bool_decide_eq_true_2 by done.
  by rewrite Hd.
Qed.

(** The send half of an iteration leaves the receive side untouched. *)
Lemma send_handler_frame th th' p :
  send_handler cfg me th = Some (th', p) ->
  t th' = t th /\ edgeIn th' = edgeIn th /\
  edgeInBuffer th' = edgeInBuffer th /\
  edgesReceived th' = edgesReceived th /\
  subgrid th' = subgrid th /\ newSubgrid th' = newSubgrid th.
Proof.
  unfold send_handler. case_bool_decide; [|done].
  destruct (neighbourList cfg me !! _); [|done]. simpl.
  intros [= <- _]. done.
Qed.

Lemma recv_handler_current th msg d :
  Dir_of_Z (tag_dir (rd msg 0)) = Some d ->
  tag_phase (rd msg 0) = Z.land (t th) 1 ->
  recv_handler msg th =
    Some (set_edgesReceived (add (edgesReceived th) 1)
            (set_edgeIn (<[d := msg]> (edgeIn th)) th)).
Proof.
  intros Hd Hp. unfold recv_handler. rewrite Hd. simpl.
  by rewrite bool_decide_eq_true_2.
Qed.

Lemma recv_handler_early th msg d :
  Dir_of_Z (tag_dir (rd msg 0)) = Some d ->
  tag_phase (rd msg 0) <> Z.land (t th) 1 ->
  recv_handler msg th =
    Some (set_edgeInBuffer (<[d := Some msg]> (edgeInBuffer th)) th).
Proof.
  intros Hd Hp. unfold recv_handler. rewrite Hd. simpl.
  by rewrite bool_decide_eq_false_2.
Qed.

(** C1. Receive handler of the exchange loop: in any iteration of the
    loop of step [t] in which a message [msg] is received, with
    direction field [d] and phase bit [q] in its tag, the iteration is
    defined and: if [q = t & 1], [msg] becomes the incoming boundary
    [edgeIn[d]] and [edgesReceived] grows by one (the other incoming
    boundaries and the buffer are untouched); if [q <> t & 1], [msg] is
    stored in [edgeInBuffer[d]] and [edgesReceived] and every
    [edgeIn] are unchanged. *)
Theorem recv_current_or_buffer (ev : Event) (th : Thread) (msg : Slot) (d : Dir) :
  canRecv ev = Some msg ->
  Dir_of_Z (tag_dir (rd msg 0)) = Some d ->
  0 <= edgesSent th ->
  is_s32 (edgesReceived th + 1) ->
  exists th' out,
    exchange_iter cfg me ev th = Some (th', out) /\
    (tag_phase (rd msg 0) = Z.land (t th) 1 ->
       edgeIn th' d = msg /\
       edgesReceived th' = edgesReceived th + 1 /\
       (forall d', d' <> d -> edgeIn th' d' = edgeIn th d') /\
       edgeInBuffer th' = edgeInBuffer th) /\
    (tag_phase (rd msg 0) <> Z.land (t th) 1 ->
       edgeInBuffer th' d = Some msg /\
       edgesReceived th' = edgesReceived th /\
       (forall d', d' <> d -> edgeInBuffer th' d' = edgeInBuffer th d') /\
       edgeIn th' = edgeIn th).
Proof.
  intros Hev Hd H0 Hr.
  assert (exists th1 out,
    (if needToSend cfg me th && canSend ev
     then '(th1, p) ← send_handler cfg me th; Some (th1, [p])
     else Some (th, [])) = Some (th1, out) /\
    t th1 = t th /\ edgeIn th1 = edgeIn th /\
    edgeInBuffer th1 = edgeInBuffer th /\
    edgesReceived th1 = edgesReceived th) as (th1 & out & Hs & Ht & Hi & Hb & Hc).
  { destruct (needToSend cfg me th) eqn:Hn; simpl; [|by eauto 10].
    destruct (canSend ev); simpl; [|by eauto 10].
    destruct (send_handler_defined th H0 Hn) as (d0 & _ & ->). simpl.
    eauto 10. }
  unfold exchange_iter. rewrite Hs, Hev. simpl.
  destruct (decide (tag_phase (rd msg 0) = Z.land (t th) 1)) as [Hp|Hp].
  - rewrite (recv_handler_current th1 msg d) by congruence. simpl.
    eexists _, _. split; [done|]. split; [|done]. intros _. simpl.
    rewrite fn_lookup_insert, Hc, Hb. unfold add.
    rewrite s32_small by done.
    repeat split; try done.
    intros d' Hne. by rewrite fn_lookup_insert_ne, Hi.
  - rewrite (recv_handler_early th1 msg d) by congruence. simpl.
    eexists _, _. split; [done|]. split; [done|]. intros _. simpl.
    rewrite fn_lookup_insert, Hc, Hi.
    repeat split; try done.
    intros d' Hne. by rewrite fn_lookup_insert_ne, Hb.
Qed.

End Handlers.

(** ** Arrays *)

Section Arrays.

Lemma rd_insert_eq (s : list Z) i v : (i < length s)%nat -> rd (<[i := v]> s) i = v.
Proof. intros. unfold rd. by rewrite list_lookup_insert_eq. Qed.

Lemma rd_insert_ne (s : list Z) i j v : i <> j -> rd (<[i := v]> s) j = rd s j.
Proof. intros. unfold rd. by rewrite list_lookup_insert_ne. Qed.

Lemma rd_lookup (s : list Z) i : (i < length s)%nat -> s !! i = Some (rd s i).
Proof.
  intros H. unfold rd. destruct (lookup_lt_is_Some_2 s i H) as [v ->]. done.
Qed.

(** Two arrays of the same length with the same elements are equal. *)
Lemma rd_ext (s s' : list Z) :
  length s = length s' ->
  (forall i, (i < length s)%nat -> rd s i = rd s' i) -> s = s'.
Proof.
  intros Hl H. apply list_eq. intros i.
  destruct (decide (i < length s)%nat).
  - rewrite !rd_lookup by lia. f_equal. by apply H.
  - rewrite !lookup_ge_None_2 by lia. done.
Qed.

Lemma rd_wr_edge f d i v d' j :
  rd (wr_edge f d i v d') j =
    if decide (d = d' /\ i = j /\ (i < length (f d))%nat) then v else rd (f d') j.
Proof.
  unfold wr_edge. destruct (decide (d = d')) as [<-|Hne].
  - rewrite fn_lookup_insert. destruct (decide (i = j)) as [<-|].
    + destruct (decide (i < length (f d))%nat).
      * rewrite rd_insert_eq by done. by rewrite decide_True.
      * rewrite list_insert_ge by lia. rewrite decide_False; [done|]. tauto.
    + rewrite rd_insert_ne by done. rewrite decide_False; [done|]. tauto.
  - rewrite fn_lookup_insert_ne by done. rewrite decide_False; [done|]. tauto.
Qed.

Lemma length_wr_edge f d i v d' : length (wr_edge f d i v d') = length (f d').
Proof.
  unfold wr_edge. destruct (decide (d = d')) as [<-|Hne].
  - by rewrite fn_lookup_insert, length_insert.
  - by rewrite fn_lookup_insert_ne.
Qed.

Lemma gwr_shape n g y x v : grid_shape n g -> grid_shape n (gwr g y x v).
Proof.
  intros [Hl Hr]. unfold gwr. split; [by rewrite length_alter|].
  apply Forall_lookup. intros i row Hi.
  destruct (decide (y = i)) as [<-|Hne].
  - rewrite list_lookup_alter_eq in Hi.
    destruct (g !! y) as [r|] eqn:Hg; [|done]. simpl in Hi.
    injection Hi as <-. rewrite length_insert.
    by apply (Forall_lookup_1 _ _ _ _ Hr Hg).
  - rewrite list_lookup_alter_ne in Hi by done.
    by apply (Forall_lookup_1 _ _ _ _ Hr Hi).
Qed.

Lemma grd_gwr_eq n g y x v :
  grid_shape n g -> (y < n)%nat -> (x < n)%nat -> grd (gwr g y x v) y x = v.
Proof.
  intros [Hl Hr] Hy Hx. unfold grd, gwr.
  rewrite list_lookup_alter_eq.
  destruct (lookup_lt_is_Some_2 g y) as [row Hrow]; [lia|].
  rewrite Hrow. simpl. apply rd_insert_eq.
  rewrite (Forall_lookup_1 _ _ _ _ Hr Hrow). done.
Qed.

Lemma grd_gwr_ne g y x v y' x' :
  (y, x) <> (y', x') -> grd (gwr g y x v) y' x' = grd g y' x'.
Proof.
  intros Hne. unfold grd, gwr.
  destruct (decide (y = y')) as [<-|Hy].
  - rewrite list_lookup_alter_eq. destruct (g !! y); [|done]. simpl.
    apply rd_insert_ne. congruence.
  - by rewrite list_lookup_alter_ne.
Qed.

(** Two [n] x [n] arrays with the same cells are equal. *)
Lemma grd_ext n (g g' : Grid) :
  grid_shape n g -> grid_shape n g' ->
  (forall y x, (y < n)%nat -> (x < n)%nat -> grd g y x = grd g' y x) -> g = g'.
Proof.
  intros [Hl Hr] [Hl' Hr'] H. apply list_eq. intros y.
  destruct (decide (y < n)%nat) as [Hy|Hy].
  - destruct (lookup_lt_is_Some_2 g y) as [row Hrow]; [lia|].
    destruct (lookup_lt_is_Some_2 g' y) as [row' Hrow']; [lia|].
    rewrite Hrow, Hrow'. f_equal.
    pose proof (Forall_lookup_1 _ _ _ _ Hr Hrow) as E.
    pose proof (Forall_lookup_1 _ _ _ _ Hr' Hrow') as E'. simpl in E, E'.
    apply rd_ext; [lia|]. intros x Hx.
    specialize (H y x Hy ltac:(lia)). unfold grd in H.
    by rewrite Hrow, Hrow' in H.
  - rewrite !lookup_ge_None_2 by lia. done.
Qed.

(** A nested loop visits the cells in row-major order. *)
Lemma foldl_nested {A B C} (f : A -> B -> C -> A) (a : A) (ys : list B) (xs : list C) :
  foldl (fun a y => foldl (fun a x => f a y x) a xs) a ys =
  foldl (fun a p => f a p.1 p.2) a (y ← ys; x ← xs; [(y, x)]).
Proof.
  revert a. induction ys as [|y ys IH]; intros a; [done|].
  simpl. rewrite foldl_app, <- IH. f_equal.
  clear. revert a. induction xs as [|x xs IH]; intros a; [done|].
  simpl. by rewrite IH.
Qed.

Lemma elem_of_cells (m : nat) y x :
  (y, x) ∈ (y ← seq 0 m; x ← seq 0 m; [(y, x)]) <-> (y < m)%nat /\ (x < m)%nat.
Proof.
  rewrite list_elem_of_bind. split.
  - intros (y' & Hin & Hy'). apply list_elem_of_bind in Hin as (x' & Hin & Hx').
    apply list_elem_of_singleton in Hin as [= -> ->].
    apply elem_of_seq in Hy', Hx'. lia.
  - intros [Hy Hx]. exists y. split; [|apply elem_of_seq; lia].
    apply list_elem_of_bind. exists x. split; [|apply elem_of_seq; lia].
    by apply list_elem_of_singleton.
Qed.

End Arrays.

(** ** Stencil update *)

Section Stencil.

Variable cfg : Config.
Local Abbreviation L := (Ln cfg).

Lemma newTemp_inputs th th' y x :
  same_inputs th th' -> newTemp cfg th y x = newTemp cfg th' y x.
Proof.
  intros [Hg He].
  unfold newTemp, surroundings, left_of, right_of, above_of, below_of.
  by rewrite Hg, !He.
Qed.

Lemma update_cell_frame th y x : same_frame (update_cell cfg th y x) th.
Proof. unfold update_cell, same_frame. by repeat case_match. Qed.

Lemma update_cell_newSubgrid th y x :
  newSubgrid (update_cell cfg th y x) =
  gwr (newSubgrid th) y x (newTemp cfg th y x).
Proof. unfold update_cell. by repeat case_match. Qed.

Lemma update_cell_shape th y x :
  thread_shape L th -> thread_shape L (update_cell cfg th y x).
Proof.
  intros (Hg & Hn & Ho & Hi). unfold thread_shape.
  rewrite update_cell_newSubgrid.
  destruct (update_cell_frame th y x) as (_ & -> & -> & _).
  split; [done|]. split; [by apply gwr_shape|]. split; [|done].
  intros d. unfold slot_shape, update_cell.
  repeat case_match; simpl; rewrite ?length_wr_edge; apply Ho.
Qed.

(** Word [j] of [edgeOut[d]] is written at cell [(y, x)] exactly when
    that cell is the [(j-1)]-th cell along side [d]. *)
Lemma update_cell_edgeOut th y x d j :
  thread_shape L th -> (y < L)%nat -> (x < L)%nat ->
  rd (edgeOut (update_cell cfg th y x) d) j =
    if decide ((1 <= j)%nat /\ boundary_cell L d (j - 1) = (y, x))
    then newTemp cfg th y x else rd (edgeOut th d) j.
Proof.
  intros (_ & _ & Ho & _) Hy Hx.
  assert (forall d, length (edgeOut th d) = (L + 1)%nat) as Hlen by apply Ho.
  unfold update_cell.
  destruct (Nat.eqb_spec y 0), (Nat.eqb_spec y (L - 1)),
    (Nat.eqb_spec x 0), (Nat.eqb_spec x (L - 1)); simpl;
    rewrite ?rd_wr_edge, ?length_wr_edge, ?Hlen;
    destruct d; simpl;
    repeat (case_decide; simpl); try done; exfalso;
    repeat match goal with
      | H : _ /\ _ |- _ => destruct H
      | H : (_, _) = (_, _) |- _ => injection H as ? ?
      end;
    first [ lia
          | match goal with
            | H : ¬ _ |- _ => solve [apply H; repeat split; try f_equal; lia]
            end ].
Qed.

Lemma update_state_cells th :
  update_state cfg th = update_cells cfg th (y ← seq 0 L; x ← seq 0 L; [(y, x)]).
Proof. unfold update_state, update_row, update_cells. apply foldl_nested. Qed.

Lemma update_cells_spec cs : forall th,
  thread_shape L th ->
  Forall (fun p => (p.1 < L)%nat /\ (p.2 < L)%nat) cs ->
  let th' := update_cells cfg th cs in
  same_frame th' th /\ thread_shape L th' /\
  (forall y x, grd (newSubgrid th') y x =
     if decide ((y, x) ∈ cs) then newTemp cfg th y x
     else grd (newSubgrid th) y x) /\
  (forall d j, rd (edgeOut th' d) j =
     if decide ((1 <= j)%nat /\ boundary_cell L d (j - 1) ∈ cs)
     then newTemp cfg th (boundary_cell L d (j - 1)).1 (boundary_cell L d (j - 1)).2
     else rd (edgeOut th d) j).
Proof.
  induction cs as [|[y x] cs IH]; intros th Hsh Hcs; cbv zeta.
  - split; [done|]. split; [done|]. split.
    + intros y x. rewrite decide_False; [done|]. by intros ?%elem_of_nil.
    + intros d j. rewrite decide_False; [done|]. by intros [_ ?%elem_of_nil].
  - inversion Hcs as [|? ? [Hy Hx] Hcs']; subst. simpl in Hy, Hx.
    change (update_cells cfg th ((y, x) :: cs))
      with (update_cells cfg (update_cell cfg th y x) cs).
    pose proof (update_cell_frame th y x) as Hfr.
    pose proof (update_cell_shape th y x Hsh) as Hsh1.
    destruct (IH _ Hsh1 Hcs') as (Hf & Hs & Hg & He).
    assert (same_inputs (update_cell cfg th y x) th) as Hin.
    { destruct Hfr as (_ & ? & E & _). split; [done|]. by rewrite E. }
    split.
    { unfold same_frame in *. destruct Hf as (->&->&->&->&->&->). done. }
    split; [done|]. split.
    + intros y' x'. rewrite Hg, (newTemp_inputs _ _ _ _ Hin).
      rewrite update_cell_newSubgrid.
      destruct (decide ((y', x') = (y, x))) as [[= -> ->]|Hne].
      * rewrite (decide_True (P := (y, x) ∈ (y, x) :: cs)) by apply list_elem_of_here.
        case_decide; [done|].
        apply (grd_gwr_eq L); [apply Hsh|done..].
      * rewrite grd_gwr_ne by congruence.
        case_decide as Hc.
        -- rewrite decide_True; [done|]. by apply list_elem_of_further.
        -- rewrite decide_False; [done|].
           intros [?|?]%elem_of_cons; done.
    + intros d j. rewrite He, (newTemp_inputs _ _ _ _ Hin).
      rewrite update_cell_edgeOut by done.
      destruct (decide ((1 <= j)%nat /\ boundary_cell L d (j - 1) = (y, x)))
        as [[Hj Hb]|Hne].
      * rewrite (decide_True (P := _ /\ _ ∈ (y, x) :: cs))
          by (split; [done|rewrite Hb; apply list_elem_of_here]).
        rewrite Hb. simpl. by case_decide.
      * case_decide as Hc.
        -- rewrite decide_True; [done|].
           split; [apply Hc|]. apply list_elem_of_further, Hc.
        -- rewrite decide_False; [done|].
           intros [Hj [?|?]%elem_of_cons]; tauto.
Qed.

Lemma boundary_cell_range d i :
  (i < L)%nat -> ((boundary_cell L d i).1 < L)%nat /\ ((boundary_cell L d i).2 < L)%nat.
Proof. destruct d; simpl; lia. Qed.

(** What [update_state] leaves behind. *)
Lemma update_state_spec th :
  thread_shape L th ->
  let th' := update_state cfg th in
  same_frame th' th /\ thread_shape L th' /\
  (forall y x, (y < L)%nat -> (x < L)%nat ->
     grd (newSubgrid th') y x = newTemp cfg th y x) /\
  (forall d i, (i < L)%nat ->
     rd (edgeOut th' d) (i + 1) =
     newTemp cfg th (boundary_cell L d i).1 (boundary_cell L d i).2) /\
  (forall d, rd (edgeOut th' d) 0 = rd (edgeOut th d) 0).
Proof.
  intros Hsh. simpl. rewrite update_state_cells.
  destruct (update_cells_spec (y ← seq 0 L; x ← seq 0 L; [(y, x)]) th Hsh)
    as (Hf & Hs & Hg & He).
  { apply list.Forall_forall. intros [y x] Hin%elem_of_cells. done. }
  split; [done|]. split; [done|]. split; [|split].
  - intros y x Hy Hx. rewrite Hg, decide_True; [done|]. by apply elem_of_cells.
  - intros d i Hi. rewrite He.
    replace (i + 1 - 1)%nat with i by lia.
    rewrite decide_True; [done|]. split; [lia|].
    destruct (boundary_cell L d i) as [y x] eqn:E.
    apply elem_of_cells. pose proof (boundary_cell_range d i Hi) as Hr.
    by rewrite E in Hr.
  - intros d. rewrite He, decide_False; [done|]. lia.
Qed.

(** The damped update written in the source is the plain average. *)
Lemma newTemp_is_surroundings th y x :
  newTemp cfg th y x = surroundings cfg th y x.
Proof.
  unfold newTemp, sub. rewrite s32_sub_s32.
  replace (grd (subgrid th) y x - (grd (subgrid th) y x - surroundings cfg th y x))
    with (surroundings cfg th y x) by lia.
  apply s32_small. unfold surroundings, sar, add.
  set (v := s32 _). pose proof (s32_range (v - 0)) as Hr.
  assert (is_s32 v) as [Hl Hu].
  { subst v. apply s32_range. }
  unfold is_s32, half_modulus in *.
  rewrite Z.shiftr_div_pow2 by done. change (2 ^ 2) with 4.
  split.
  - apply Z.div_le_lower_bound; lia.
  - apply Z.div_lt_upper_bound; lia.
Qed.

(** C4. Stencil update: for every cell [(y, x)] of the [L] x [L]
    subgrid, the value [update_state] writes to [newSubgrid[y][x]] is
    exactly [(a + b + l + r) >> 2] in [int] arithmetic, where the four
    values are gathered as follows: [l] is [subgrid[y][x-1]], or word
    [y+1] of the incoming west edge when [x = 0]; [r] is
    [subgrid[y][x+1]], or word [y+1] of the incoming east edge when
    [x = L-1]; [a] is [subgrid[y-1][x]], or word [x+1] of the incoming
    north edge when [y = 0]; [b] is [subgrid[y+1][x]], or word [x+1] of
    the incoming south edge when [y = L-1].  Whenever the sum fits an
    [int] this is the floor of [(l + r + a + b) / 4].  The cell's own
    current value does not influence the result: no damping factor is
    applied. *)
Theorem stencil_plain_average (th : Thread) (y x : nat) :
  thread_shape L th -> (y < L)%nat -> (x < L)%nat ->
  let l := if (x =? 0)%nat then rd (edgeIn th W) (y + 1)
           else grd (subgrid th) y (x - 1) in
  let r := if (x =? L - 1)%nat then rd (edgeIn th E) (y + 1)
           else grd (subgrid th) y (x + 1) in
  let a := if (y =? 0)%nat then rd (edgeIn th N) (x + 1)
           else grd (subgrid th) (y - 1) x in
  let b := if (y =? L - 1)%nat then rd (edgeIn th S) (x + 1)
           else grd (subgrid th) (y + 1) x in
  grd (newSubgrid (update_state cfg th)) y x = sar (add (add (add a b) l) r) 2 /\
  (is_s32 (a + b + l + r) ->
   grd (newSubgrid (update_state cfg th)) y x = (l + r + a + b) `div` 4).
Proof.
  intros Hsh Hy Hx l r a b.
  destruct (update_state_spec th Hsh) as (_ & _ & Hg & _).
  rewrite Hg, newTemp_is_surroundings by done.
  unfold surroundings, left_of, right_of, above_of, below_of.
  cbv zeta. fold l r a b.
  split; [done|]. intros Hfit.
  unfold sar, add.
  rewrite s32_s32_add, <- Z.add_assoc, s32_s32_add, Z.add_assoc.
  rewrite (s32_small _ Hfit).
  rewrite Z.shiftr_div_pow2 by done. f_equal. lia.
Qed.

End Stencil.

(** ** Start of the exchange phase *)

Section Drain.

Variable cfg : Config.
Variable me : Z.

Lemma update_cells_frame cs : forall th, same_frame (update_cells cfg th cs) th.
Proof.
  induction cs as [|[y x] cs IH]; intros th; [done|].
  change (update_cells cfg th ((y, x) :: cs))
    with (update_cells cfg (update_cell cfg th y x) cs).
  specialize (IH (update_cell cfg th y x)).
  pose proof (update_cell_frame cfg th y x) as H.
  unfold same_frame in *.
  destruct IH as (->&->&->&->&->&->). done.
Qed.

Lemma update_state_frame th : same_frame (update_state cfg th) th.
Proof. rewrite update_state_cells. apply update_cells_frame. Qed.

(** The drain on a state whose receive count was just reset. *)
Lemma recognise_buffered_spec th0 :
  edgesReceived th0 = 0 ->
  let th1 := recognise_buffered th0 in
  (forall d m, edgeInBuffer th0 d = Some m -> edgeIn th1 d = m) /\
  (forall d, edgeInBuffer th0 d = None -> edgeIn th1 d = edgeIn th0 d) /\
  (forall d, edgeInBuffer th1 d = None) /\
  edgesReceived th1 =
    Z.of_nat (length (filter (fun d => is_Some (edgeInBuffer th0 d)) all_dirs)) /\
  t th1 = t th0 /\ subgrid th1 = subgrid th0 /\
  newSubgrid th1 = newSubgrid th0 /\ edgeOut th1 = edgeOut th0 /\
  edgesSent th1 = edgesSent th0.
Proof.
  intros H0. unfold recognise_buffered, all_dirs, recognise. simpl.
  unfold insert, fn_insert. simpl.
  rewrite !filter_cons, filter_nil.
  destruct (edgeInBuffer th0 N) eqn:EN; simpl;
    destruct (edgeInBuffer th0 S) eqn:ES; simpl;
    destruct (edgeInBuffer th0 E) eqn:EE; simpl;
    destruct (edgeInBuffer th0 W) eqn:EW; simpl;
    rewrite ?H0;
    (split; [intros [] m Hm; simpl; congruence|]);
    (split; [intros [] Hm; simpl; congruence|]);
    (split; [intros []; simpl; congruence|]);
    repeat split; try done;
    repeat (case_decide as Hc;
            [try by destruct Hc | try by (exfalso; apply Hc; eauto)]);
    by vm_compute.
Qed.

(** C2. Buffered edges are recognised first: when a step enters its
    exchange phase, every direction whose [edgeInBuffer] slot is
    non-empty has that slot's contents as its incoming boundary
    [edgeIn], every slot is empty afterwards, [edgesReceived] equals the
    number of directions that had a buffered edge (one increment each,
    from zero), the other incoming boundaries are unchanged, and this is
    the state in which the send and receive loop starts: it is reached
    with no wake-up consumed, i.e. before any message is taken from the
    transport. *)
Theorem buffered_edges_recognised_first (th : Thread) :
  let th1 := begin_step cfg th in
  (forall d m, edgeInBuffer th d = Some m -> edgeIn th1 d = m) /\
  (forall d, edgeInBuffer th d = None -> edgeIn th1 d = edgeIn th d) /\
  (forall d, edgeInBuffer th1 d = None) /\
  edgesReceived th1 =
    Z.of_nat (length (filter (fun d => is_Some (edgeInBuffer th d)) all_dirs)) /\
  (forall evs, run_step cfg me evs th = exchange_loop cfg me evs th1 []) /\
  (exists r, run_step cfg me [] th = Some (r, [], []) /\
             (r = inl th1 \/ r = inr th1)).
Proof.
  intros th1.
  set (th0 := set_edgesReceived 0 (set_edgesSent 0 (update_state cfg th))).
  destruct (update_state_frame th) as (_ & _ & Hi & Hb & _).
  assert (edgeInBuffer th0 = edgeInBuffer th) as Eb by done.
  assert (edgeIn th0 = edgeIn th) as Ei by done.
  destruct (recognise_buffered_spec th0 eq_refl) as (H1 & H2 & H3 & H4 & _).
  fold (begin_step cfg th) in H1, H2, H3, H4. fold th1 in H1, H2, H3, H4.
  rewrite Eb in *. rewrite Ei in *.
  repeat split; try done.
  unfold run_step. fold th1. simpl.
  destruct (exchange_done cfg me th1); eauto.
Qed.

End Drain.

(** ** Messages put on the wire *)

Section Wire.

Variable cfg : Config.
Variable me : Z.
Local Abbreviation L := (Ln cfg).

Lemma send_handler_packet k samples th th' p :
  payload_kept k samples th ->
  (forall d, (1 <= length (samples d))%nat) ->
  send_handler cfg me th = Some (th', p) ->
  payload_kept k samples th' /\ well_formed_packet cfg me k samples p /\
  edgeOut th' (default N (neighbourList cfg me !! Z.to_nat (edgesSent th))) = p.2.
Proof.
  intros [Ht Hk] Hlen. unfold send_handler. case_bool_decide; [|done].
  destruct (neighbourList cfg me !! _) as [d|] eqn:Hd; [|done].
  cbn [mbind option_bind default].
  intros [= <- <-]. cbn [t edgeOut set_edgesSent set_edgeOut fst snd].
  split; [|split; [|done]].
  - split; [done|]. intros d'. destruct (Hk d') as [Hl Hj]. thread_simpl.
    rewrite length_wr_edge. split; [done|].
    intros j Hj1. rewrite rd_wr_edge, decide_False by lia. by apply Hj.
  - exists d. destruct (Hk d) as [Hl Hj]. specialize (Hlen d). thread_simpl.
    split; [by eapply list_elem_of_lookup_2|]. split; [done|].
    rewrite length_wr_edge. split; [done|].
    rewrite rd_wr_edge, decide_True by (repeat split; lia).
    split; [by rewrite Ht|]. intros j Hj1.
    rewrite rd_wr_edge, decide_False by lia. by apply Hj.
Qed.

Lemma recv_handler_edgeOut msg th th' :
  recv_handler msg th = Some th' -> t th' = t th /\ edgeOut th' = edgeOut th.
Proof.
  unfold recv_handler. destruct (Dir_of_Z _); [|done]. simpl.
  case_bool_decide; by intros [= <-].
Qed.

Lemma exchange_iter_packets k samples ev th th' o :
  payload_kept k samples th ->
  (forall d, (1 <= length (samples d))%nat) ->
  exchange_iter cfg me ev th = Some (th', o) ->
  payload_kept k samples th' /\ Forall (well_formed_packet cfg me k samples) o.
Proof.
  intros Hk Hlen. unfold exchange_iter.
  destruct (needToSend cfg me th && canSend ev).
  - destruct (send_handler cfg me th) as [[th1 p]|] eqn:Hs; [|done]. simpl.
    destruct (send_handler_packet _ _ _ _ _ Hk Hlen Hs) as (Hk1 & Hp & _).
    destruct (canRecv ev) as [msg|]; simpl.
    + destruct (recv_handler msg th1) as [th2|] eqn:Hr; [|done]. simpl.
      intros [= <- <-]. apply recv_handler_edgeOut in Hr as [Ht He].
      split; [|by repeat constructor].
      unfold payload_kept. rewrite Ht, He. apply Hk1.
    + intros [= <- <-]. split; [done|by repeat constructor].
  - simpl. destruct (canRecv ev) as [msg|]; simpl.
    + destruct (recv_handler msg th) as [th2|] eqn:Hr; [|done]. simpl.
      intros [= <- <-]. apply recv_handler_edgeOut in Hr as [Ht He].
      split; [|constructor].
      unfold payload_kept. rewrite Ht, He. apply Hk.
    + intros [= <- <-]. split; [done|constructor].
Qed.

Lemma exchange_loop_packets k samples evs : forall th out r out' rest,
  payload_kept k samples th ->
  (forall d, (1 <= length (samples d))%nat) ->
  Forall (well_formed_packet cfg me k samples) out ->
  exchange_loop cfg me evs th out = Some (r, out', rest) ->
  Forall (well_formed_packet cfg me k samples) out'.
Proof.
  induction evs as [|ev evs IH]; intros th out r out' rest Hk Hlen Hout; simpl.
  - destruct (exchange_done cfg me th); by intros [= <- <- <-].
  - destruct (exchange_done cfg me th); [by intros [= <- <- <-]|].
    destruct (wakes cfg me th ev); [|by apply IH].
    destruct (exchange_iter cfg me ev th) as [[th' o]|] eqn:Hi; [|done]. simpl.
    destruct (exchange_iter_packets _ _ _ _ _ _ Hk Hlen Hi) as [Hk' Ho].
    apply IH; [done..|]. by apply Forall_app.
Qed.

(** C7. Wire format of a boundary message: every packet transmitted
    during the exchange of step [t] goes to [neighbour[d]] for some
    direction [d] of [neighbourList], is one slot of [L + 1] words, has
    [(opposite(d) << 1) | (t & 1)] as its first word, and its words
    [1..L] are the [L] values the stencil of this step wrote for the
    cells along side [d] of the subgrid.  (The send handler writes the
    tag into the slot and transmits that slot: the packet is the slot
    as it stands right after the write.) *)
Theorem boundary_message_format (th : Thread) (evs : list Event) r out rest :
  thread_shape L th ->
  run_step cfg me evs th = Some (r, out, rest) ->
  Forall (fun p : Packet =>
    exists d, d ∈ neighbourList cfg me /\ p.1 = neighbour cfg me d /\
      length p.2 = (L + 1)%nat /\
      rd p.2 0 = Z.lor (shl (Dir_to_Z (opposite d)) 1) (Z.land (t th) 1) /\
      forall i, (i < L)%nat ->
        rd p.2 (i + 1) =
        grd (newSubgrid (update_state cfg th))
            (boundary_cell L d i).1 (boundary_cell L d i).2) out.
Proof.
  intros Hsh Hrun. unfold run_step in Hrun.
  destruct (update_state_spec cfg th Hsh) as (Hf & Hs & Hg & He & _).
  set (th0 := set_edgesReceived 0 (set_edgesSent 0 (update_state cfg th))) in *.
  destruct (recognise_buffered_spec th0 eq_refl)
    as (_ & _ & _ & _ & Ht & _ & _ & Ho & _).
  change (begin_step cfg th) with (recognise_buffered th0) in Hrun.
  assert (payload_kept (t th) (edgeOut (update_state cfg th))
            (recognise_buffered th0)) as Hk.
  { split; [rewrite Ht; apply Hf|]. intros d. by rewrite Ho. }
  assert (forall d, length (edgeOut (update_state cfg th) d) = (L + 1)%nat) as Hlen
    by apply Hs.
  eapply exchange_loop_packets in Hrun; [|done| |constructor].
  2: { intros d. rewrite Hlen. lia. }
  eapply Forall_impl; [|exact Hrun].
  intros p (d & Hd & Hdst & Hl & Htag & Hw). exists d.
  split; [done|]. split; [done|]. split; [by rewrite Hl|]. split; [done|].
  intros i Hi. rewrite Hw, He by lia.
  destruct (boundary_cell_range cfg d i Hi). by rewrite Hg.
Qed.

End Wire.

(** ** Result emission *)

Section Emission.

Variable cfg : Config.
Local Abbreviation Lz := (L cfg).
Local Abbreviation L := (Ln cfg).

Lemma u32_land x : u32 x = Z.land x (Z.ones 32).
Proof. by rewrite Z.land_ones. Qed.

Lemma u32_s32 x : u32 (s32 x) = u32 x.
Proof.
  unfold u32, s32.
  rewrite Zminus_mod_idemp_l.
  f_equal. lia.
Qed.

Lemma u32_lor x y : u32 (Z.lor x y) = Z.lor (u32 x) (u32 y).
Proof. rewrite !u32_land. apply Z.land_lor_distr_l. Qed.

Lemma u32_idemp x : u32 (u32 x) = u32 x.
Proof. unfold u32. by rewrite Z.mod_mod. Qed.

Lemma u32_shiftl x k : 0 <= k -> u32 (Z.shiftl (u32 x) k) = u32 (Z.shiftl x k).
Proof.
  intros. rewrite !Z.shiftl_mul_pow2 by done. unfold u32.
  by rewrite Z.mul_mod_idemp_l.
Qed.

Lemma u32_shiftl_congr x y k :
  0 <= k -> u32 x = u32 y -> u32 (Z.shiftl x k) = u32 (Z.shiftl y k).
Proof.
  intros Hk E. by rewrite <- (u32_shiftl x), <- (u32_shiftl y), E.
Qed.

Lemma foldl_snoc_map {A B} (f : A -> B) (l : list A) : forall acc,
  foldl (fun out p => out ++ [f p]) acc l = acc ++ map f l.
Proof.
  induction l as [|a l IH]; intros acc; simpl.
  - by rewrite app_nil_r.
  - by rewrite IH, <- app_assoc.
Qed.

Lemma bind_lookup_uniform {A B} (f : A -> list B) (m : nat) (ys : list A) :
  (forall y, length (f y) = m) ->
  forall i j, (j < m)%nat ->
    (ys ≫= f) !! (i * m + j)%nat = ys !! i ≫= (fun y => f y !! j).
Proof.
  intros Hf. induction ys as [|y ys IH]; intros i j Hj; [done|].
  simpl. destruct i as [|i]; simpl.
  - rewrite lookup_app_l by (rewrite Hf; lia). done.
  - rewrite lookup_app_r by (rewrite Hf; lia).
    rewrite Hf. replace (m + i * m + j - m)%nat with (i * m + j)%nat by lia.
    by apply IH.
Qed.

Lemma bind_singleton {A B} (f : A -> B) (l : list A) :
  l ≫= (fun x => [f x]) = f <$> l.
Proof. induction l as [|x l IH]; [done|]. csimpl. by rewrite IH. Qed.

Lemma cells_lookup (m i j : nat) :
  (i < m)%nat -> (j < m)%nat -> cells m !! (i * m + j)%nat = Some (i, j).
Proof.
  intros Hi Hj. unfold cells.
  rewrite (bind_lookup_uniform _ m).
  - rewrite lookup_seq_lt by done.
    change (Some (0 + i)%nat ≫= ?f) with (f (0 + i)%nat). cbv beta.
    rewrite bind_singleton, list_lookup_fmap, lookup_seq_lt by done. done.
  - intros y. by rewrite bind_singleton, length_fmap, length_seq.
  - done.
Qed.

Lemma cells_length (m : nat) : length (cells m) = (m * m)%nat.
Proof.
  unfold cells.
  assert (forall ys : list nat,
    length (ys ≫= (fun y => seq 0 m ≫= (fun x => [(y, x)]))) = (length ys * m)%nat) as H.
  { induction ys as [|y ys IH]; [done|]. csimpl.
    by rewrite length_app, IH, bind_singleton, length_fmap, length_seq. }
  by rewrite H, length_seq.
Qed.

Variable me : Z.

Lemma emit_cells th :
  emit cfg me th = map (fun p => result_word cfg me (subgrid th) p.1 p.2) (cells L).
Proof.
  unfold emit.
  rewrite (foldl_nested (fun out i j => out ++ [result_word cfg me (subgrid th) i j])).
  by rewrite foldl_snoc_map.
Qed.

(** The code's packing agrees with the specification's formula. *)
Lemma result_word_spec g i j :
  result_word cfg me g i j =
  spec_result_word (global_row cfg me i) (global_col cfg me j) (grd g i j).
Proof.
  unfold result_word, spec_result_word, ushl, shl, sar.
  rewrite (u32_lor (Z.shiftl _ 8)). f_equal.
  rewrite u32_shiftl by done. apply u32_shiftl_congr; [done|].
  rewrite !u32_lor. f_equal. apply u32_s32.
Qed.

Lemma emit_words (th : Thread) :
  emit cfg me th =
    map (fun p => spec_result_word (global_row cfg me p.1) (global_col cfg me p.2)
                    (grd (subgrid th) p.1 p.2)) (cells L).
Proof.
  rewrite emit_cells. apply map_ext. intros [i j]. apply result_word_spec.
Qed.


End Emission.

(** ** Global coordinates *)

Section Coordinates.

Variable cfg : Config.
Hypothesis Hcfg : valid_config cfg.

Local Abbreviation Lz := (L cfg).
Local Abbreviation n := (len cfg).
Local Abbreviation w := (TinselLogWordsPerMsg cfg).

Lemma s32_u32 x : s32 (u32 x) = s32 x.
Proof.
  unfold u32. pose proof (Z.div_mod x modulus ltac:(done)) as E.
  apply (s32_eqm _ _ (- (x `div` modulus))). lia.
Qed.

Lemma L_val : Lz = 2 ^ w - 1 /\ 1 <= Lz < 2 ^ 31.
Proof.
  destruct Hcfg as [_ [Hl Hu]].
  assert (2 ^ 1 <= 2 ^ w) by (apply Z.pow_le_mono_r; lia).
  assert (2 ^ w <= 2 ^ 31) by (apply Z.pow_le_mono_r; lia).
  unfold L. rewrite Z.shiftl_mul_pow2, Z.mul_1_l by lia.
  rewrite u32_small by (unfold is_u32, modulus; lia). lia.
Qed.

Lemma Ln_val : Z.of_nat (Ln cfg) = Lz.
Proof. unfold Ln. pose proof L_val. lia. Qed.

(** [(p << TinselLogWordsPerMsg) - p] is [p * L] as a 32-bit value. *)
Lemma scale_modular p :
  s32 (usub (ushl p w) p) = s32 (p * Lz).
Proof.
  destruct Hcfg as [_ [Hl Hu]]. destruct L_val as [-> _].
  unfold usub, ushl. rewrite s32_u32.
  rewrite Z.shiftl_mul_pow2 by lia.
  unfold u32. pose proof (Z.div_mod (p * 2 ^ w) modulus ltac:(done)) as E.
  apply (s32_eqm _ _ (- ((p * 2 ^ w) `div` modulus))). lia.
Qed.

Hypothesis Hfit : coords_fit cfg.

Lemma scale_exact p : 0 <= p < n -> s32 (usub (ushl p w) p) = p * Lz.
Proof.
  intros Hp. rewrite scale_modular. apply s32_small.
  pose proof L_val. unfold coords_fit in Hfit.
  unfold is_s32, half_modulus. nia.
Qed.

Lemma global_x_exact me : global_x cfg me = xPos cfg me * Lz.
Proof. apply scale_exact, xPos_range, Hcfg. Qed.

Lemma global_y_exact me : valid_id cfg me -> global_y cfg me = yPos cfg me * Lz.
Proof. intros. by apply scale_exact, yPos_range. Qed.

Lemma global_col_exact me j :
  (j < Ln cfg)%nat ->
  global_col cfg me j = xPos cfg me * Lz + Z.of_nat j /\
  0 <= global_col cfg me j < n * Lz.
Proof.
  intros Hj. pose proof Ln_val. pose proof L_val.
  pose proof (xPos_range cfg Hcfg me). unfold coords_fit in Hfit.
  unfold global_col, add. rewrite global_x_exact.
  rewrite s32_small by (unfold is_s32, half_modulus; nia). nia.
Qed.

Lemma global_row_exact me i :
  valid_id cfg me -> (i < Ln cfg)%nat ->
  global_row cfg me i = yPos cfg me * Lz + Z.of_nat i /\
  0 <= global_row cfg me i < n * Lz.
Proof.
  intros Hv Hi. pose proof Ln_val. pose proof L_val.
  pose proof (yPos_range cfg Hcfg me Hv). unfold coords_fit in Hfit.
  unfold global_row, add. rewrite global_y_exact by done.
  rewrite s32_small by (unfold is_s32, half_modulus; nia). nia.
Qed.

(** A word packed from 12-bit coordinates gives them back. *)
Lemma spec_result_word_fields row col v :
  0 <= row < 2 ^ 12 -> 0 <= col < 2 ^ 12 ->
  word_row (spec_result_word row col v) = row /\
  word_col (spec_result_word row col v) = col /\
  word_temp (spec_result_word row col v) = (v `div` 2 ^ 16) mod 2 ^ 8.
Proof.
  intros Hr Hc. unfold spec_result_word, word_row, word_col, word_temp, u32, modulus.
  change 255 with (Z.ones 8). change 4095 with (Z.ones 12).
  rewrite !Z.land_ones, !Z.shiftr_div_pow2, !Z.shiftl_mul_pow2 by done.
  set (tmp := (v `div` 2 ^ 16) mod 2 ^ 8).
  assert (0 <= tmp < 2 ^ 8) by (apply Z.mod_pos_bound; lia).
  rewrite (lor_mul_pow2 row col 12) by done.
  rewrite (lor_mul_pow2 _ tmp 8) by done.
  rewrite (Z.mod_small _ (2 ^ 32)) by lia.
  replace ((row * 2 ^ 12 + col) * 2 ^ 8 + tmp)
    with (tmp + (row * 2 ^ 12 + col) * 2 ^ 8) by lia.
  split; [|split].
  - replace (tmp + (row * 2 ^ 12 + col) * 2 ^ 8)
      with (tmp + col * 2 ^ 8 + row * 2 ^ 20) by lia.
    rewrite Z.div_add by done. rewrite Z.div_small; lia.
  - rewrite Z.div_add by done. rewrite (Z.div_small tmp) by lia.
    rewrite Z.add_0_l, Z.add_comm, Z.mod_add by done.
    apply Z.mod_small. lia.
  - rewrite Z.mod_add by done. apply Z.mod_small. lia.
Qed.

Lemma block_unique p i p' i' :
  0 <= i < Lz -> 0 <= i' < Lz -> p * Lz + i = p' * Lz + i' -> p = p' /\ i = i'.
Proof.
  intros Hi Hi' E.
  assert (p = p') as ->; [|lia].
  destruct (Z.lt_trichotomy p p') as [H|[H|H]]; [exfalso|done|exfalso].
  - assert (0 <= (p' - p - 1) * Lz) by (apply Z.mul_nonneg_nonneg; lia). lia.
  - assert (0 <= (p - p' - 1) * Lz) by (apply Z.mul_nonneg_nonneg; lia). lia.
Qed.

Lemma emitted_coordinates me th i j :
  valid_id cfg me -> (i < Ln cfg)%nat -> (j < Ln cfg)%nat ->
  exists word, emit cfg me th !! (i * Ln cfg + j)%nat = Some word /\
    word_row word = yPos cfg me * Lz + Z.of_nat i /\
    word_col word = xPos cfg me * Lz + Z.of_nat j.
Proof.
  intros Hv Hi Hj.
  pose proof (emit_words cfg me th) as E.
  exists (spec_result_word (global_row cfg me i) (global_col cfg me j)
            (grd (subgrid th) i j)).
  split.
  - rewrite E. change (map ?f ?l) with (f <$> l).
    by rewrite list_lookup_fmap, cells_lookup.
  - destruct (global_row_exact me i Hv Hi) as [Er Hr].
    destruct (global_col_exact me j Hj) as [Ec Hc].
    assert (n * Lz <= 2 ^ 12) as Hf by apply Hfit.
    destruct (spec_result_word_fields (global_row cfg me i) (global_col cfg me j)
                (grd (subgrid th) i j)) as (Hrow & Hcol & _).
    { split; [apply Hr|]. eapply Z.lt_le_trans; [apply Hr|apply Hf]. }
    { split; [apply Hc|]. eapply Z.lt_le_trans; [apply Hc|apply Hf]. }
    by rewrite Hrow, Hcol, Er, Ec.
Qed.

Lemma coordinates_injective me me' i j i' j' :
  valid_id cfg me -> valid_id cfg me' ->
  (i < Ln cfg)%nat -> (j < Ln cfg)%nat -> (i' < Ln cfg)%nat -> (j' < Ln cfg)%nat ->
  global_row cfg me i = global_row cfg me' i' ->
  global_col cfg me j = global_col cfg me' j' ->
  me = me' /\ i = i' /\ j = j'.
Proof.
  intros Hv Hv' Hi Hj Hi' Hj' Er Ec. pose proof Ln_val as HLn.
  rewrite (proj1 (global_row_exact me i Hv Hi)) in Er.
  rewrite (proj1 (global_row_exact me' i' Hv' Hi')) in Er.
  rewrite (proj1 (global_col_exact me j Hj)) in Ec.
  rewrite (proj1 (global_col_exact me' j' Hj')) in Ec.
  apply block_unique in Er as [Ey Ei]; [|lia..].
  apply block_unique in Ec as [Ex Ej]; [|lia..].
  split; [|lia].
  rewrite (id_coords cfg Hcfg me), (id_coords cfg Hcfg me'). by rewrite Ex, Ey.
Qed.

Lemma coordinates_cover r c :
  0 <= r < n * Lz -> 0 <= c < n * Lz ->
  exists me i j, valid_id cfg me /\ (i < Ln cfg)%nat /\ (j < Ln cfg)%nat /\
    global_row cfg me i = r /\ global_col cfg me j = c.
Proof.
  intros Hr Hc. pose proof Ln_val as HLn. pose proof L_val as [HL HL1].
  pose proof (len_range cfg Hcfg) as Hn.
  assert (0 <= r `div` Lz < n) as Hy.
  { split; [apply Z.div_pos; lia|]. apply Z.div_lt_upper_bound; lia. }
  assert (0 <= c `div` Lz < n) as Hx.
  { split; [apply Z.div_pos; lia|]. apply Z.div_lt_upper_bound; lia. }
  pose proof (Z.mod_pos_bound r Lz ltac:(lia)) as Hi.
  pose proof (Z.mod_pos_bound c Lz ltac:(lia)) as Hj.
  assert (valid_id cfg (r `div` Lz * n + c `div` Lz)) as Hv' by (by apply valid_coords).
  exists (r `div` Lz * n + c `div` Lz), (Z.to_nat (r mod Lz)), (Z.to_nat (c mod Lz)).
  split; [done|]. split; [lia|]. split; [lia|].
  rewrite (proj1 (global_row_exact _ (Z.to_nat (r mod Lz)) Hv' ltac:(lia))).
  rewrite (proj1 (global_col_exact (r `div` Lz * n + c `div` Lz)
                    (Z.to_nat (c mod Lz)) ltac:(lia))).
  rewrite xPos_coords, yPos_coords by done.
  rewrite !Z2Nat.id by lia.
  pose proof (Z.div_mod r Lz ltac:(lia)). pose proof (Z.div_mod c Lz ltac:(lia)).
  lia.
Qed.

(** What is emitted tells the cells apart: two words with the same row
    and column fields come from the same cell of the same thread. *)
Lemma emitted_coordinates_distinct me me' th th' i j i' j' word word' :
  valid_id cfg me -> valid_id cfg me' ->
  (i < Ln cfg)%nat -> (j < Ln cfg)%nat -> (i' < Ln cfg)%nat -> (j' < Ln cfg)%nat ->
  emit cfg me th !! (i * Ln cfg + j)%nat = Some word ->
  emit cfg me' th' !! (i' * Ln cfg + j')%nat = Some word' ->
  word_row word = word_row word' -> word_col word = word_col word' ->
  me = me' /\ i = i' /\ j = j'.
Proof.
  intros Hv Hv' Hi Hj Hi' Hj' Hw Hw' Er Ec.
  destruct (emitted_coordinates me th i j Hv Hi Hj) as (w0 & E0 & R0 & C0).
  destruct (emitted_coordinates me' th' i' j' Hv' Hi' Hj') as (w1 & E1 & R1 & C1).
  rewrite Hw in E0. injection E0 as <-.
  rewrite Hw' in E1. injection E1 as <-.
  apply (coordinates_injective me me' i j i' j'); try done.
  - rewrite (proj1 (global_row_exact me i Hv Hi)).
    rewrite (proj1 (global_row_exact me' i' Hv' Hi')). by rewrite <- R0, <- R1.
  - rewrite (proj1 (global_col_exact me j Hj)).
    rewrite (proj1 (global_col_exact me' j' Hj')). by rewrite <- C0, <- C1.
Qed.


End Coordinates.

(** ** The mesh: basic facts *)

Section MeshBasics.

Variable cfg : Config.
Hypothesis Hcfg : valid_config cfg.
Local Abbreviation L := (Ln cfg).

Lemma all_dirs_NoDup : NoDup all_dirs.
Proof. compute_done. Qed.

Lemma elem_of_all_dirs d : d ∈ all_dirs.
Proof. destruct d; compute_done. Qed.

Lemma neighbourList_NoDup me : NoDup (neighbourList cfg me).
Proof. apply list.NoDup_filter, all_dirs_NoDup. Qed.

Lemma elem_of_neighbourList me d :
  d ∈ neighbourList cfg me <-> 0 <= neighbour cfg me d.
Proof.
  unfold neighbourList. rewrite list_elem_of_filter.
  pose proof (elem_of_all_dirs d). tauto.
Qed.

Lemma numNeighbours_count me :
  numNeighbours cfg me = count_dirs (fun d => bool_decide (0 <= neighbour cfg me d)).
Proof.
  unfold numNeighbours, neighbourList, all_dirs, count_dirs.
  rewrite !filter_cons, filter_nil.
  destruct (decide (0 <= neighbour cfg me N)), (decide (0 <= neighbour cfg me S)),
    (decide (0 <= neighbour cfg me E)), (decide (0 <= neighbour cfg me W));
    repeat first [ rewrite bool_decide_eq_true_2 by done
                 | rewrite bool_decide_eq_false_2 by done ]; done.
Qed.

Lemma neighbour_inj me d d' :
  valid_id cfg me -> 0 <= neighbour cfg me d ->
  neighbour cfg me d = neighbour cfg me d' -> d = d'.
Proof.
  intros Hv. pose proof (xPos_range cfg Hcfg me) as Hx.
  pose proof (yPos_range cfg Hcfg me Hv) as Hy.
  rewrite !neighbour_coords by done.
  destruct d, d'; try done; repeat case_match; try lia; intros; exfalso; nia.
Qed.

Lemma neighbour_not_self me d : valid_id cfg me -> neighbour cfg me d <> me.
Proof.
  intros Hv. pose proof (xPos_range cfg Hcfg me) as Hx.
  pose proof (yPos_range cfg Hcfg me Hv) as Hy.
  rewrite (id_coords cfg Hcfg me) at 2.
  rewrite neighbour_coords by done.
  destruct d; case_match; nia.
Qed.

Lemma neighbour_back me d :
  valid_id cfg me -> 0 <= neighbour cfg me d ->
  valid_id cfg (neighbour cfg me d) /\
  neighbour cfg (neighbour cfg me d) (opposite d) = me.
Proof. intros. by apply (neighbour_opposite cfg Hcfg me). Qed.

(** *** Shapes *)

Lemma fill_edge_length v d f d' : length (fill_edge cfg v d f d') = length (f d').
Proof.
  unfold fill_edge. generalize (seq 1 L). intros js. revert f.
  induction js as [|j js IH]; intros f; [done|].
  simpl. by rewrite IH, length_wr_edge.
Qed.

Lemma initial_edges_length me f d : length (initial_edges cfg me f d) = length (f d).
Proof.
  unfold initial_edges, zero_edges, all_dirs. simpl.
  repeat case_match; by rewrite !fill_edge_length.
Qed.

Lemma zero_subgrid_shape g : grid_shape L g -> grid_shape L (zero_subgrid cfg g).
Proof.
  unfold zero_subgrid.
  rewrite (foldl_nested (fun g i j => gwr g i j 0)).
  generalize (y ← seq 0 L; x ← seq 0 L; [(y, x)]). intros cs. revert g.
  induction cs as [|c cs IH]; intros g Hg; [done|].
  simpl. by apply IH, gwr_shape.
Qed.

Lemma init_thread_shape me m :
  memory_shape L m -> thread_shape L (init_thread cfg me m).
Proof.
  intros (Hg & Hn & Hs). unfold thread_shape, init_thread. simpl.
  split; [by apply zero_subgrid_shape|]. split; [done|].
  split; [intros d; apply Hs|].
  intros d. unfold slot_shape. rewrite initial_edges_length. apply Hs.
Qed.

Lemma update_state_shape th : thread_shape L th -> thread_shape L (update_state cfg th).
Proof. intros H. by destruct (update_state_spec cfg th H) as (_ & ? & _). Qed.

Lemma end_step_shape th : thread_shape L th -> thread_shape L (end_step th).
Proof. intros (?&?&?&?). unfold thread_shape. by simpl. Qed.

Lemma tagged_length k th d : length (tagged k th d) = length (edgeOut th d).
Proof. unfold tagged. by rewrite length_insert. Qed.

Lemma tagged_tag k th d :
  thread_shape L th -> rd (tagged k th d) 0 = tag_word d (Z.of_nat k).
Proof.
  intros (_ & _ & Ho & _). unfold tagged. apply rd_insert_eq.
  rewrite (Ho d). lia.
Qed.

(** *** The stencil only looks at the core of a thread *)

Lemma wr_edge_ext f f' d i v d' :
  (forall d, f d = f' d) -> wr_edge f d i v d' = wr_edge f' d i v d'.
Proof.
  intros H. unfold wr_edge. destruct (decide (d = d')) as [<-|].
  - by rewrite !fn_lookup_insert, H.
  - by rewrite !fn_lookup_insert_ne.
Qed.

Lemma newTemp_core th th' y x :
  core_eq th th' -> newTemp cfg th y x = newTemp cfg th' y x.
Proof. intros (_ & ? & _ & _ & ?). by apply newTemp_inputs. Qed.

Lemma update_cell_core th th' y x :
  core_eq th th' -> core_eq (update_cell cfg th y x) (update_cell cfg th' y x).
Proof.
  intros Hc. pose proof (newTemp_core th th' y x Hc) as Hv.
  destruct Hc as (Ht & Hg & Hn & Ho & Hi).
  unfold core_eq, update_cell. rewrite Hv.
  destruct (y =? 0)%nat, (y =? L - 1)%nat, (x =? 0)%nat, (x =? L - 1)%nat;
    thread_simpl; rewrite ?Hn;
    (split; [done|split; [done|split; [done|split; [|done]]]]);
    intros d0; repeat (apply wr_edge_ext; intros ?); apply Ho.
Qed.

Lemma update_cells_core cs : forall th th',
  core_eq th th' -> core_eq (update_cells cfg th cs) (update_cells cfg th' cs).
Proof.
  induction cs as [|[y x] cs IH]; intros th th' Hc; [done|].
  apply IH. by apply update_cell_core.
Qed.

Lemma update_state_core th th' :
  core_eq th th' -> core_eq (update_state cfg th) (update_state cfg th').
Proof. rewrite !update_state_cells. apply update_cells_core. Qed.

Lemma core_eq_refl th : core_eq th th.
Proof. by repeat split. Qed.

Lemma core_eq_trans th1 th2 th3 : core_eq th1 th2 -> core_eq th2 th3 -> core_eq th1 th3.
Proof.
  intros (?&?&?&Ho&Hi) (?&?&?&Ho'&Hi').
  unfold core_eq. split; [congruence|]. split; [congruence|].
  split; [congruence|]. split; intros d; [by rewrite Ho|by rewrite Hi].
Qed.

End MeshBasics.

(** ** The lock-step run *)

Section Lockstep.

Variable cfg : Config.
Variable mem : Z -> Memory.
Hypothesis Hcfg : valid_config cfg.
Hypothesis Hmem : forall me, memory_shape (Ln cfg) (mem me).
Local Abbreviation L := (Ln cfg).

Lemma lockstep_shape k : forall me, thread_shape L (lockstep cfg mem k me).
Proof.
  induction k as [|k IH]; intros me; simpl.
  - by apply init_thread_shape.
  - apply end_step_shape.
    pose proof (update_state_shape cfg _ (IH me)) as (Hg & Hn & Ho & Hi).
    unfold thread_shape, deliver_all. thread_simpl.
    split; [done|]. split; [done|]. split.
    + intros d. unfold slot_shape. case_bool_decide; [|apply Ho].
      rewrite tagged_length. apply Ho.
    + intros d. unfold slot_shape. case_bool_decide; [|apply Hi].
      rewrite tagged_length.
      by destruct (update_state_shape cfg _ (IH (neighbour cfg me d))) as (_ & _ & -> & _).
Qed.

Lemma stencilled_shape k me : thread_shape L (stencilled cfg mem k me).
Proof. apply update_state_shape, lockstep_shape. Qed.

Lemma lockstep_t k me :
  Z.of_nat k <= nsteps -> t (lockstep cfg mem k me) = Z.of_nat k.
Proof.
  induction k as [|k IH]; intros Hk; [done|].
  simpl. destruct (update_state_frame cfg (lockstep cfg mem k me)) as (-> & _).
  rewrite IH by lia. unfold add.
  rewrite s32_small by (unfold is_s32, half_modulus, nsteps in *; lia). lia.
Qed.

Lemma stencilled_frame k me :
  Z.of_nat k <= nsteps ->
  t (stencilled cfg mem k me) = Z.of_nat k /\
  subgrid (stencilled cfg mem k me) = subgrid (lockstep cfg mem k me) /\
  edgeIn (stencilled cfg mem k me) = edgeIn (lockstep cfg mem k me).
Proof.
  intros Hk.
  destruct (update_state_frame cfg (lockstep cfg mem k me)) as (Ht & Hg & Hi & _).
  unfold stencilled. by rewrite Ht, Hg, Hi, lockstep_t.
Qed.

Lemma sent_msg_length k me d : length (sent_msg cfg mem k me d) = (L + 1)%nat.
Proof.
  unfold sent_msg. rewrite tagged_length.
  by destruct (stencilled_shape k me) as (_ & _ & -> & _).
Qed.

Lemma sent_msg_tag k me d :
  rd (sent_msg cfg mem k me d) 0 = tag_word d (Z.of_nat k).
Proof. apply (tagged_tag cfg), stencilled_shape. Qed.

Lemma sent_msg_fields k me d :
  Dir_of_Z (tag_dir (rd (sent_msg cfg mem k me d) 0)) = Some (opposite d) /\
  tag_phase (rd (sent_msg cfg mem k me d) 0) = Z.land (Z.of_nat k) 1.
Proof.
  rewrite sent_msg_tag. destruct (tag_word_fields d (Z.of_nat k)) as [-> ->].
  by rewrite Dir_of_to_Z.
Qed.

(** The state at the top of iteration [k + 1], field by field. *)
Lemma lockstep_succ k me :
  Z.of_nat k < nsteps ->
  let th := lockstep cfg mem (k + 1) me in
  t th = Z.of_nat k + 1 /\
  subgrid th = newSubgrid (stencilled cfg mem k me) /\
  newSubgrid th = subgrid (stencilled cfg mem k me) /\
  (forall d, edgeOut th d =
     if bool_decide (0 <= neighbour cfg me d) then sent_msg cfg mem k me d
     else edgeOut (stencilled cfg mem k me) d) /\
  (forall d, edgeIn th d =
     if bool_decide (0 <= neighbour cfg me d)
     then sent_msg cfg mem k (neighbour cfg me d) (opposite d)
     else edgeIn (stencilled cfg mem k me) d).
Proof.
  intros Hk. replace (k + 1)%nat with (Datatypes.S k) by lia.
  pose proof (lockstep_t (Datatypes.S k) me ltac:(lia)) as Ht.
  cbv zeta. rewrite Ht. split; [lia|]. done.
Qed.

End Lockstep.

(** ** The mesh: protocol invariant *)

Section Counting.

Lemma count_dirs_bounds f : 0 <= count_dirs f <= 4.
Proof. unfold count_dirs. destruct (f N), (f S), (f E), (f W); simpl; lia. Qed.

Lemma count_dirs_ext f g : (forall d, f d = g d) -> count_dirs f = count_dirs g.
Proof. intros H. unfold count_dirs. by rewrite !H. Qed.

Lemma count_dirs_flip f g d :
  (forall d', d' <> d -> g d' = f d') -> f d = false -> g d = true ->
  count_dirs g = count_dirs f + 1.
Proof.
  intros Ho Hf Hg. unfold count_dirs.
  destruct d; rewrite Hf, Hg, !Ho by done; simpl; lia.
Qed.

(** When as many directions are flagged by [f] as by [g], and [f] only
    flags directions that [g] flags, they flag the same ones. *)
Lemma count_dirs_full f g :
  (forall d, f d = true -> g d = true) -> count_dirs g <= count_dirs f ->
  forall d, g d = true -> f d = true.
Proof.
  intros Hfg Hc. unfold count_dirs in Hc.
  pose proof (Hfg N). pose proof (Hfg S). pose proof (Hfg E). pose proof (Hfg W).
  intros d Hd.
  destruct d; destruct (f N), (f S), (f E), (f W), (g N), (g S), (g E), (g W);
    simpl in *; try done; try lia;
    repeat match goal with H : true = true -> _ |- _ => specialize (H eq_refl) end;
    done.
Qed.

End Counting.

(** *** Steps of one thread, seen from that thread *)

Section LocalSteps.

Variable cfg : Config.
Variable mem : Z -> Memory.
Hypothesis Hcfg : valid_config cfg.
Hypothesis Hmem : forall me, memory_shape (Ln cfg) (mem me).
Local Abbreviation L := (Ln cfg).

Variable me : Z.
Hypothesis Hme : valid_id cfg me.

Lemma numNeighbours_bounds : 0 <= numNeighbours cfg me <= 4.
Proof. rewrite numNeighbours_count. apply count_dirs_bounds. Qed.

Lemma got_ext nd nd' tot tot' inc inc' d :
  t (thread nd') = t (thread nd) ->
  (0 <= neighbour cfg me d -> received tot' inc' d = received tot inc d) ->
  got cfg me nd' tot' inc' d = got cfg me nd tot inc d.
Proof.
  intros Ht Hr. unfold got. rewrite Ht. apply bool_decide_ext.
  split; intros [H1 H2]; (split; [done|]); rewrite Hr in *; done.
Qed.

Lemma early_ext nd nd' tot tot' inc inc' d :
  t (thread nd') = t (thread nd) ->
  (0 <= neighbour cfg me d -> received tot' inc' d = received tot inc d) ->
  early cfg me nd' tot' inc' d = early cfg me nd tot inc d.
Proof.
  intros Ht Hr. unfold early. rewrite Ht. apply bool_decide_ext.
  split; intros [H1 H2]; (split; [done|]); rewrite Hr in *; done.
Qed.

(** What the neighbours contribute can be replaced by anything that
    leaves the number of edges received and the channel contents as
    they are. *)
Lemma node_inv_change nd tot tot' inc inc' :
  (forall d, 0 <= neighbour cfg me d -> received tot' inc' d = received tot inc d) ->
  (forall d i m, 0 <= neighbour cfg me d -> inc' d !! i = Some m ->
     m = sent_msg cfg mem (Z.to_nat (received tot inc d) + i)
           (neighbour cfg me d) (opposite d)) ->
  node_inv cfg mem me nd tot inc -> node_inv cfg mem me nd tot' inc'.
Proof.
  intros Hrec Hch' [Ht Hc Hs Hr Hch Hst].
  split; try done.
  - intros d Hd. rewrite Hrec by done. by apply Hr.
  - intros d i m Hd. rewrite Hrec by done. by apply Hch'.
  - destruct (ctl nd); [|done].
    destruct Hst as (Hg & Hn & Ho & Hi & Hb & Hse & Hre).
    split; [done|]. split; [done|]. split; [done|].
    split; [|split; [|split; [done|]]].
    + intros d. rewrite (got_ext nd nd tot tot' inc inc') by auto. apply Hi.
    + intros d. rewrite (early_ext nd nd tot tot' inc inc') by auto. apply Hb.
    + rewrite Hre. apply count_dirs_ext. intros d. symmetry. by apply got_ext; auto.
Qed.

Lemma node_inv_ext nd tot tot' inc inc' :
  (forall d, 0 <= neighbour cfg me d -> tot' d = tot d /\ inc' d = inc d) ->
  node_inv cfg mem me nd tot inc -> node_inv cfg mem me nd tot' inc'.
Proof.
  intros Hext Hinv. apply (node_inv_change nd tot tot' inc inc'); [| |done].
  - intros d Hd. destruct (Hext d Hd) as [E1 E2]. unfold received. by rewrite E1, E2.
  - intros d i m Hd. destruct (Hext d Hd) as [_ ->]. by apply Hinv.
Qed.

(** A neighbour sends one more edge. *)
Lemma local_append nd tot inc d :
  node_inv cfg mem me nd tot inc -> 0 <= neighbour cfg me d ->
  node_inv cfg mem me nd (<[d := tot d + 1]> tot)
    (<[d := inc d ++ [sent_msg cfg mem (Z.to_nat (tot d))
                        (neighbour cfg me d) (opposite d)]]> inc).
Proof.
  intros Hinv Hd. apply (node_inv_change nd tot _ inc _); [| |done].
  - intros d' Hd'. unfold received. destruct (decide (d' = d)) as [->|Hne].
    + rewrite !fn_lookup_insert, length_app. simpl. lia.
    + by rewrite !fn_lookup_insert_ne.
  - intros d' i m Hd'. destruct (decide (d' = d)) as [->|Hne].
    + rewrite fn_lookup_insert. intros [Hm|[Hi Hm]]%lookup_app_Some.
      * by apply Hinv.
      * apply list_lookup_singleton_Some in Hm as [Hi0 <-].
        pose proof (inv_time _ _ _ _ _ _ Hinv).
        pose proof (inv_received _ _ _ _ _ _ Hinv d Hd) as Hr.
        unfold received in *. f_equal. lia.
    + rewrite fn_lookup_insert_ne by done. by apply Hinv.
Qed.

Lemma sent_flag_elem th d :
  sent_flag cfg me th d = true -> 0 <= neighbour cfg me d.
Proof.
  unfold sent_flag. intros H%bool_decide_eq_true.
  apply elem_of_neighbourList. apply elem_of_take in H as (i & Hi & _).
  by eapply list_elem_of_lookup_2.
Qed.

Lemma sent_flag_none th d : edgesSent th = 0 -> sent_flag cfg me th d = false.
Proof.
  intros E. unfold sent_flag. by rewrite E.
Qed.

Lemma sent_flag_all th d :
  edgesSent th = numNeighbours cfg me ->
  sent_flag cfg me th d = bool_decide (0 <= neighbour cfg me d).
Proof.
  intros E. unfold sent_flag. rewrite E. unfold numNeighbours.
  rewrite Nat2Z.id, firstn_all. apply bool_decide_ext, elem_of_neighbourList.
Qed.

(** *** A send *)

Lemma local_send nd tot inc :
  node_inv cfg mem me nd tot inc -> ctl nd = Exchanging ->
  needToSend cfg me (thread nd) = true ->
  exists d th',
    0 <= neighbour cfg me d /\ sent_flag cfg me (thread nd) d = false /\
    send_handler cfg me (thread nd) =
      Some (th', (neighbour cfg me d,
                  sent_msg cfg mem (Z.to_nat (t (thread nd))) me d)) /\
    t th' = t (thread nd) /\
    (forall d', sent_flag cfg me th' d' =
       if decide (d' = d) then true else sent_flag cfg me (thread nd) d') /\
    node_inv cfg mem me (mkNode Exchanging th' []) tot inc.
Proof.
  destruct nd as [c th h]. simpl. intros [Ht Hc Hs Hr Hch Hst] -> Hneed.
  simpl in *. destruct Hst as (Hg & Hn & Ho & Hi & Hb & Hse & Hre).
  destruct (send_handler_defined cfg me th) as (d & Hd & Hsend); [lia|done|].
  apply bool_decide_eq_true in Hneed.
  pose proof numNeighbours_bounds as Hnb.
  assert (0 <= neighbour cfg me d) as Hnbr.
  { apply elem_of_neighbourList. by eapply list_elem_of_lookup_2. }
  assert (sent_flag cfg me th d = false) as Hflag.
  { apply bool_decide_eq_false_2. intros (i & Hi' & Hlt)%elem_of_take.
    pose proof (NoDup_lookup _ _ _ _ (neighbourList_NoDup cfg me) Hi' Hd). lia. }
  assert (add (edgesSent th) 1 = edgesSent th + 1) as Hadd.
  { apply s32_small. unfold is_s32, half_modulus. lia. }
  set (th' := set_edgesSent (add (edgesSent th) 1)
                (set_edgeOut (wr_edge (edgeOut th) d 0 (tag_word d (t th))) th)) in *.
  assert (forall d', sent_flag cfg me th' d' =
            if decide (d' = d) then true else sent_flag cfg me th d') as Hflag'.
  { intros d'. unfold sent_flag. subst th'. thread_simpl. rewrite Hadd.
    replace (Z.to_nat (edgesSent th + 1)) with (Datatypes.S (Z.to_nat (edgesSent th))) by lia.
    rewrite (take_S_r _ _ d Hd). destruct (decide (d' = d)) as [->|Hne].
    - apply bool_decide_eq_true_2, elem_of_app. right. by apply list_elem_of_singleton.
    - apply bool_decide_ext. rewrite elem_of_app, list_elem_of_singleton. tauto. }
  assert (wr_edge (edgeOut th) d 0 (tag_word d (t th)) d =
          sent_msg cfg mem (Z.to_nat (t th)) me d) as Hmsg.
  { unfold wr_edge. rewrite fn_lookup_insert, Ho, Hflag.
    unfold sent_msg, tagged. by rewrite Z2Nat.id by lia. }
  exists d, th'. split; [done|]. split; [done|].
  split; [by rewrite Hsend, Hmsg|]. split; [done|]. split; [done|].
  split; simpl; try done.
  - destruct Hs as (?&?&Hso&?). unfold thread_shape. subst th'. thread_simpl.
    split; [done|]. split; [done|]. split; [|done].
    intros d'. unfold slot_shape. rewrite length_wr_edge. apply Hso.
  - subst th'. unfold exchanging_inv. thread_simpl.
    split; [done|]. split; [done|]. split; [|split; [|split; [|split]]].
    + intros d'. rewrite Hflag'. destruct (decide (d' = d)) as [->|Hne]; [done|].
      unfold wr_edge. rewrite fn_lookup_insert_ne by done. apply Ho.
    + intros d'. rewrite Hi. by erewrite got_ext.
    + intros d'. rewrite Hb. by erewrite early_ext.
    + rewrite Hadd. lia.
    + rewrite Hre. apply count_dirs_ext. intros d'. by apply got_ext.
Qed.

(** *** A receive *)

Lemma phase_next_differs x : Z.land (x + 1) 1 <> Z.land x 1.
Proof.
  rewrite !land_1_mod.
  pose proof (Z.div_mod x 2 ltac:(done)). pose proof (Z.div_mod (x + 1) 2 ltac:(done)).
  pose proof (Z.mod_pos_bound x 2 ltac:(done)).
  pose proof (Z.mod_pos_bound (x + 1) 2 ltac:(done)). lia.
Qed.

Lemma received_pop tot inc d rest d' :
  received tot (<[d := rest]> inc) d' =
    if decide (d' = d) then tot d - Z.of_nat (length rest) else received tot inc d'.
Proof.
  unfold received. destruct (decide (d' = d)) as [->|Hne].
  - by rewrite fn_lookup_insert.
  - by rewrite fn_lookup_insert_ne.
Qed.

Lemma local_recv nd tot inc d msg rest :
  node_inv cfg mem me nd tot inc -> ctl nd = Exchanging ->
  0 <= neighbour cfg me d -> inc d = msg :: rest ->
  tot d <= t (thread nd) + 2 ->
  exists th',
    recv_handler msg (thread nd) = Some th' /\
    Dir_of_Z (tag_dir (rd msg 0)) = Some d /\
    (tag_phase (rd msg 0) <> Z.land (t (thread nd)) 1 ->
       edgeInBuffer (thread nd) d = None /\ edgeInBuffer th' d = Some msg /\
       received tot inc d = t (thread nd) + 1) /\
    (tag_phase (rd msg 0) = Z.land (t (thread nd)) 1 ->
       received tot inc d = t (thread nd)) /\
    t th' = t (thread nd) /\ edgesSent th' = edgesSent (thread nd) /\
    node_inv cfg mem me (mkNode Exchanging th' []) tot (<[d := rest]> inc).
Proof.
  destruct nd as [c th h]. simpl. intros [Ht Hc Hs Hr Hch Hst] -> Hnbr Hinc Htot.
  simpl in *. destruct Hst as (Hg & Hn & Ho & Hi & Hb & Hse & Hre).
  set (j := received tot inc d).
  assert (t th <= j) as Hj by (by apply Hr).
  assert (j = tot d - Z.of_nat (length rest) - 1) as Hj'.
  { unfold j, received. rewrite Hinc. simpl. lia. }
  assert (msg = sent_msg cfg mem (Z.to_nat j) (neighbour cfg me d) (opposite d)) as Hmsg.
  { rewrite (Hch d 0%nat msg Hnbr) by (by rewrite Hinc).
    fold j. f_equal. lia. }
  destruct (sent_msg_fields cfg mem Hmem (Z.to_nat j) (neighbour cfg me d) (opposite d))
    as [Hdir Hph].
  rewrite <- Hmsg, opposite_involutive in Hdir. rewrite <- Hmsg in Hph.
  rewrite Z2Nat.id in Hph by lia.
  pose proof (count_dirs_bounds (got cfg me (mkNode Exchanging th h) tot inc)) as Hcb.
  assert (forall d', d' <> d ->
    received tot (<[d := rest]> inc) d' = received tot inc d') as Hrother.
  { intros d' Hne. by rewrite received_pop, decide_False. }
  assert (received tot (<[d := rest]> inc) d = j + 1) as Hrd.
  { rewrite received_pop, decide_True by done. lia. }
  assert (forall d' i m, 0 <= neighbour cfg me d' ->
    (<[d := rest]> inc) d' !! i = Some m ->
    m = sent_msg cfg mem (Z.to_nat (received tot (<[d := rest]> inc) d') + i)
          (neighbour cfg me d') (opposite d')) as Hch'.
  { intros d' i m Hd'. destruct (decide (d' = d)) as [->|Hne].
    - rewrite fn_lookup_insert, Hrd. intros Hm.
      rewrite (Hch d (Datatypes.S i) m Hnbr) by (by rewrite Hinc).
      fold j. f_equal. lia.
    - rewrite fn_lookup_insert_ne, Hrother by done. by apply Hch. }
  assert (forall d', 0 <= neighbour cfg me d' ->
    t th <= received tot (<[d := rest]> inc) d') as Hr'.
  { intros d' Hd'. destruct (decide (d' = d)) as [->|Hne].
    - rewrite Hrd. lia.
    - rewrite Hrother by done. by apply Hr. }
  destruct (decide (j = t th)) as [Ej|Ej].
  - (* the edge of the current step *)
    assert (tag_phase (rd msg 0) = Z.land (t th) 1) as Hcur by (by rewrite Hph, Ej).
    rewrite (recv_handler_current th msg d) by done.
    eexists. split; [done|]. split; [done|].
    split; [done|]. split; [done|]. split; [done|]. split; [done|].
    assert (add (edgesReceived th) 1 = edgesReceived th + 1) as Hadd.
    { apply s32_small. unfold is_s32, half_modulus. lia. }
    split; simpl; try done.
    + destruct Hs as (?&?&?&Hsi). unfold thread_shape. thread_simpl.
      split; [done|]. split; [done|]. split; [done|]. intros d'.
      destruct (decide (d' = d)) as [->|Hne].
      * rewrite fn_lookup_insert. unfold slot_shape.
        rewrite Hmsg. apply sent_msg_length; done.
      * rewrite fn_lookup_insert_ne by done. apply Hsi.
    + unfold exchanging_inv. thread_simpl.
      split; [done|]. split; [done|]. split; [done|].
      split; [|split; [|split; [done|]]].
      * intros d'. destruct (decide (d' = d)) as [->|Hne].
        -- rewrite fn_lookup_insert. unfold got. simpl.
           rewrite bool_decide_eq_true_2 by (rewrite Hrd; lia).
           rewrite Hmsg. f_equal. lia.
        -- rewrite fn_lookup_insert_ne, Hi by done.
           by erewrite got_ext; [|done|intros; by rewrite Hrother].
      * intros d'. rewrite Hb. destruct (decide (d' = d)) as [->|Hne].
        -- unfold early. simpl.
           rewrite !bool_decide_eq_false_2; [done|rewrite Hrd; lia|fold j; lia].
        -- by erewrite early_ext; [|done|intros; by rewrite Hrother].
      * rewrite Hadd, Hre. symmetry. apply (count_dirs_flip _ _ d).
        -- intros d' Hne. by apply got_ext; [|intros; rewrite Hrother].
        -- unfold got. simpl. apply bool_decide_eq_false_2. fold j. lia.
        -- unfold got. simpl. apply bool_decide_eq_true_2. rewrite Hrd. lia.
  - (* the edge of the next step *)
    assert (j = t th + 1) as Ej' by lia.
    assert (tag_phase (rd msg 0) <> Z.land (t th) 1) as Hearly.
    { rewrite Hph, Ej'. apply phase_next_differs. }
    rewrite (recv_handler_early th msg d) by done.
    assert (edgeInBuffer th d = None) as Hempty.
    { rewrite Hb. unfold early. simpl.
      rewrite bool_decide_eq_false_2; [done|]. fold j. lia. }
    eexists. split; [done|]. split; [done|].
    split; [intros _; thread_simpl; by rewrite fn_lookup_insert|].
    split; [done|]. split; [done|]. split; [done|].
    split; simpl; try done.
    unfold exchanging_inv. thread_simpl.
    split; [done|]. split; [done|]. split; [done|].
    split; [|split; [|split; [done|]]].
    + intros d'. rewrite Hi. destruct (decide (d' = d)) as [->|Hne].
      * unfold got. simpl.
        rewrite !bool_decide_eq_true_2; [done|rewrite Hrd; lia|fold j; lia].
      * by erewrite got_ext; [|done|intros; by rewrite Hrother].
    + intros d'. destruct (decide (d' = d)) as [->|Hne].
      * rewrite fn_lookup_insert. unfold early. simpl.
        rewrite bool_decide_eq_true_2 by (rewrite Hrd; lia).
        rewrite Hmsg. do 2 f_equal. lia.
      * rewrite fn_lookup_insert_ne, Hb by done.
        by erewrite early_ext; [|done|intros; by rewrite Hrother].
    + rewrite Hre. apply count_dirs_ext. intros d'.
      destruct (decide (d' = d)) as [->|Hne].
      * unfold got. simpl.
        rewrite !bool_decide_eq_true_2; [done|rewrite Hrd; lia|fold j; lia].
      * symmetry. by apply got_ext; [|intros; rewrite Hrother].
Qed.

(** *** The end of a step *)

Lemma filter_count (P : Dir -> Prop) `{!forall d, Decision (P d)} :
  Z.of_nat (length (filter P all_dirs)) = count_dirs (fun d => bool_decide (P d)).
Proof.
  unfold all_dirs, count_dirs. rewrite !filter_cons, filter_nil.
  destruct (decide (P N)), (decide (P S)), (decide (P E)), (decide (P W));
    repeat first [ rewrite bool_decide_eq_true_2 by done
                 | rewrite bool_decide_eq_false_2 by done ]; done.
Qed.

Lemma local_next nd tot inc :
  node_inv cfg mem me nd tot inc -> ctl nd = Exchanging ->
  exchange_done cfg me (thread nd) = true ->
  (forall d, 0 <= neighbour cfg me d -> tot d <= t (thread nd) + 2) ->
  node_inv cfg mem me (enter_loop cfg me (end_step (thread nd))) tot inc /\
  forall d, 0 <= neighbour cfg me d ->
    sent_total cfg me (enter_loop cfg me (end_step (thread nd))) d =
    sent_total cfg me nd d.
Proof.
  destruct nd as [c th h]. simpl. intros [Ht Hc Hs Hr Hch Hst] -> Hdone Htot.
  simpl in *. destruct Hst as (Hg & Hn & Ho & Hi & Hb & Hse & Hre).
  set (nd := mkNode Exchanging th h) in *.
  set (k := Z.to_nat (t th)) in *.
  apply andb_true_iff in Hdone as [Hsd Hrd].
  apply negb_true_iff, bool_decide_eq_false in Hsd, Hrd.
  assert (edgesSent th = numNeighbours cfg me) as Hsent by lia.
  assert (forall d, 0 <= neighbour cfg me d -> got cfg me nd tot inc d = true) as Hall.
  { intros d Hd.
    apply (count_dirs_full _ (fun d => bool_decide (0 <= neighbour cfg me d))).
    - intros d' [H _]%bool_decide_eq_true. by apply bool_decide_eq_true_2.
    - rewrite <- numNeighbours_count, <- Hre. lia.
    - by apply bool_decide_eq_true_2. }
  assert (forall d, 0 <= neighbour cfg me d -> t th + 1 <= received tot inc d) as Hrec.
  { intros d Hd. specialize (Hall d Hd). by apply bool_decide_eq_true in Hall as [_ ?]. }
  assert (forall d, 0 <= neighbour cfg me d -> received tot inc d <= t th + 2) as Hrecu.
  { intros d Hd. specialize (Htot d Hd). unfold received. lia. }
  assert (t (end_step th) = t th + 1) as Ht1.
  { simpl. apply s32_small. unfold is_s32, half_modulus, nsteps in *. lia. }
  assert (Z.of_nat k = t th) as Hk by lia.
  destruct (lockstep_succ cfg mem k me ltac:(lia)) as (Lt & Lg & Ln' & Lo & Li).
  assert (core_eq (end_step th) (lockstep cfg mem (k + 1) me)) as Hcore.
  { unfold core_eq. rewrite Ht1, Lt, Lg, Ln'. simpl.
    split; [lia|]. split; [done|]. split; [done|]. split.
    - intros d. by rewrite Ho, Lo, sent_flag_all.
    - intros d. rewrite Hi, Li. case_bool_decide as Hd.
      + by rewrite Hall.
      + unfold got. rewrite bool_decide_eq_false_2; [done|tauto]. }
  assert (forall d, 0 <= neighbour cfg me d ->
            sent_flag cfg me th d = true) as Hflags.
  { intros d Hd. rewrite sent_flag_all by done. by apply bool_decide_eq_true_2. }
  unfold enter_loop. case_bool_decide as Hlt.
  - (* another step *)
    set (u := update_state cfg (end_step th)).
    set (th0 := set_edgesReceived 0 (set_edgesSent 0 u)).
    change (begin_step cfg (end_step th)) with (recognise_buffered th0).
    destruct (recognise_buffered_spec th0 eq_refl)
      as (D1 & D2 & D3 & D4 & D5 & D6 & D7 & D8 & D9).
    destruct (update_state_frame cfg (end_step th)) as (Ut & Ug & Ui & Ub & _).
    fold u in Ut, Ug, Ui, Ub.
    pose proof (update_state_core cfg _ _ Hcore) as (_ & Cg & Cn & Co & Ci).
    fold u in Cg, Cn, Co, Ci. fold (stencilled cfg mem (k + 1) me) in Cg, Cn, Co, Ci.
    assert (edgeInBuffer th0 = edgeInBuffer th) as Eb by (by subst th0; thread_simpl).
    assert (t (recognise_buffered th0) = t th + 1) as Ht2.
    { rewrite D5. subst th0. thread_simpl. by rewrite Ut. }
    assert (Z.to_nat (t th + 1) = (k + 1)%nat) as Hk1 by lia.
    assert (forall d, got cfg me (mkNode Exchanging (recognise_buffered th0) []) tot inc d
                      = early cfg me nd tot inc d) as Hgot'.
    { intros d. unfold got, early. simpl. rewrite Ht2.
      apply bool_decide_ext. split; intros [? ?]; split; (done || lia). }
    split.
    + split; simpl.
      * lia.
      * lia.
      * pose proof (update_state_shape cfg _ (end_step_shape cfg _ Hs)) as (Sg & Sn & So & Si).
        fold u in Sg, Sn, So, Si.
        unfold thread_shape. rewrite D6, D7, D8. subst th0. thread_simpl.
        split; [done|]. split; [done|]. split; [done|]. intros d.
        destruct (edgeInBuffer th d) as [m|] eqn:Em.
        -- rewrite (D1 d m) by (by rewrite Eb). rewrite Hb in Em.
           destruct (early cfg me nd tot inc d); [|done]. injection Em as <-.
           apply sent_msg_length; done.
        -- rewrite (D2 d) by (by rewrite Eb). apply Si.
      * intros d Hd. rewrite Ht2. by apply Hrec.
      * done.
      * rewrite Ht2, Hk1. unfold exchanging_inv.
        rewrite D6, D7, D8, D9. subst th0. thread_simpl.
        split; [done|]. split; [done|]. split; [|split; [|split; [|split]]].
        -- intros d. rewrite sent_flag_none by (by rewrite D9). apply Co.
        -- intros d. rewrite Hgot'.
           destruct (edgeInBuffer th d) as [m|] eqn:Em.
           ++ rewrite (D1 d m) by (by rewrite Eb). rewrite Hb in Em.
              destruct (early cfg me nd tot inc d); [|done]. by injection Em as <-.
           ++ rewrite (D2 d) by (by rewrite Eb). rewrite Hb in Em.
              destruct (early cfg me nd tot inc d); [done|].
              apply Ci.
        -- intros d. rewrite D3. unfold early. simpl. rewrite Ht2.
           rewrite bool_decide_eq_false_2; [done|].
           intros [Hd ?]. specialize (Hrecu d Hd). lia.
        -- pose proof numNeighbours_bounds. lia.
        -- rewrite D4, filter_count. apply count_dirs_ext. intros d.
           rewrite Hgot', Eb, Hb. destruct (early cfg me nd tot inc d).
           ++ by apply bool_decide_eq_true_2.
           ++ apply bool_decide_eq_false_2. by intros [? ?].
    + intros d Hd. unfold sent_total. simpl. rewrite Ht2.
      rewrite sent_flag_none by (by rewrite D9). rewrite Hflags by done. simpl. lia.
  - (* past the last step *)
    assert (t th + 1 = nsteps) as Hlast by lia.
    split.
    + split; cbn [ctl thread hostOut].
      * rewrite Ht1. lia.
      * by rewrite Ht1.
      * by apply end_step_shape.
      * intros d Hd. rewrite Ht1. by apply Hrec.
      * done.
      * split; [|done].
        replace (Z.to_nat nsteps) with (k + 1)%nat by lia. done.
    + intros d Hd. unfold sent_total. cbn [ctl thread hostOut]. rewrite Ht1.
      rewrite Hflags by done. simpl. lia.
Qed.

End LocalSteps.

Lemma nsteps_val : nsteps = 1000.
Proof. reflexivity. Qed.

(** The step count is never unfolded by conversion below. *)
Opaque nsteps.

(** *** Steps of the mesh *)

Section WorldSteps.

Variable cfg : Config.
Variable mem : Z -> Memory.
Hypothesis Hcfg : valid_config cfg.
Hypothesis Hmem : forall me, memory_shape (Ln cfg) (mem me).

Lemma sent_total_bounds me nd d :
  t (thread nd) <= sent_total cfg me nd d <= t (thread nd) + 1.
Proof.
  unfold sent_total. destruct (ctl nd); [|lia].
  destruct (sent_flag cfg me (thread nd) d); simpl; lia.
Qed.

Lemma sent_total_same me nd nd' d :
  ctl nd' = ctl nd -> t (thread nd') = t (thread nd) ->
  edgesSent (thread nd') = edgesSent (thread nd) ->
  sent_total cfg me nd' d = sent_total cfg me nd d.
Proof.
  intros Hc Ht He. unfold sent_total, sent_flag. by rewrite Hc, Ht, He.
Qed.

(** Bounded skew: a neighbour is at most one step ahead or behind, and
    has sent at most two edges that the thread has not yet used. *)
Lemma bounded_skew w me d :
  world_inv cfg mem w -> valid_id cfg me -> 0 <= neighbour cfg me d ->
  t (thread (node w (neighbour cfg me d))) <= t (thread (node w me)) + 1 /\
  t (thread (node w me)) <= t (thread (node w (neighbour cfg me d))) + 1 /\
  incoming_total cfg w me d <= t (thread (node w me)) + 2.
Proof.
  intros [Hn _] Hme Hd.
  destruct (neighbour_back cfg Hcfg me d Hme Hd) as [Ha Hback].
  set (a := neighbour cfg me d) in *.
  pose proof (inv_received _ _ _ _ _ _ (Hn a Ha) (opposite d)) as Ra.
  rewrite Hback in Ra. specialize (Ra ltac:(destruct Hme; lia)).
  pose proof (inv_received _ _ _ _ _ _ (Hn me Hme) d Hd) as Rm.
  unfold received, incoming_total in Ra, Rm. rewrite Hback in Ra.
  rewrite opposite_involutive in Ra. fold a in Rm.
  pose proof (sent_total_bounds me (node w me) d).
  pose proof (sent_total_bounds a (node w a) (opposite d)).
  unfold incoming_total. fold a. lia.
Qed.

(** Invariant of a thread other than the one that moves, when the
    moving thread sends it nothing. *)
Lemma other_node_same w w' me a :
  world_inv cfg mem w -> valid_id cfg a -> a <> me ->
  node w' a = node w a ->
  (forall b, b <> me -> node w' b = node w b) ->
  (forall b, chan w' (b, a) = chan w (b, a)) ->
  (forall d, neighbour cfg a d = me ->
     sent_total cfg me (node w' me) (opposite d) =
     sent_total cfg me (node w me) (opposite d)) ->
  node_inv cfg mem a (node w' a) (incoming_total cfg w' a) (incoming cfg w' a).
Proof.
  intros [Hn _] Ha Hne Hnode Hnodes Hchans Hfrom. rewrite Hnode.
  eapply (node_inv_ext cfg mem a); [|exact (Hn a Ha)].
  intros d' Hd'. unfold incoming_total, incoming. rewrite Hchans.
  split; [|done].
  destruct (decide (neighbour cfg a d' = me)) as [E|Hnm].
  - rewrite E. by apply Hfrom.
  - by rewrite Hnodes.
Qed.

(** The same when the moving thread sends it the edge of its current
    step. *)
Lemma other_node_append w w' me a d :
  world_inv cfg mem w -> valid_id cfg a -> a <> me ->
  neighbour cfg a d = me -> 0 <= me ->
  node w' a = node w a ->
  (forall b, b <> me -> node w' b = node w b) ->
  (forall b, b <> me -> chan w' (b, a) = chan w (b, a)) ->
  sent_total cfg me (node w' me) (opposite d) =
    sent_total cfg me (node w me) (opposite d) + 1 ->
  chan w' (me, a) = chan w (me, a) ++
    [sent_msg cfg mem (Z.to_nat (sent_total cfg me (node w me) (opposite d)))
       me (opposite d)] ->
  node_inv cfg mem a (node w' a) (incoming_total cfg w' a) (incoming cfg w' a).
Proof.
  intros [Hn _] Ha Hne Hd Hme0 Hnode Hnodes Hchans Htot Hc. rewrite Hnode.
  assert (0 <= neighbour cfg a d) as Hd0 by (by rewrite Hd).
  pose proof (local_append cfg mem a _ _ _ d (Hn a Ha) Hd0) as Happ.
  eapply (node_inv_ext cfg mem a); [|exact Happ].
  intros d' Hd'. unfold incoming_total, incoming.
  destruct (decide (d' = d)) as [->|Hdd].
  - rewrite !fn_lookup_insert, Hd. by rewrite Htot, Hc.
  - rewrite !fn_lookup_insert_ne by done.
    assert (neighbour cfg a d' <> me) as Hnm.
    { intros E. apply Hdd. apply (neighbour_inj cfg Hcfg a); [done..|congruence]. }
    by rewrite Hnodes, Hchans.
Qed.

Lemma pair_ne_l (a a' b b' : Z) : a <> a' -> (a, b) <> (a', b').
Proof. congruence. Qed.
Lemma pair_ne_r (a a' b b' : Z) : b <> b' -> (a, b) <> (a', b').
Proof. congruence. Qed.

Lemma world_inv_ext w w' :
  (forall a, node w' a = node w a) -> (forall key, chan w' key = chan w key) ->
  world_inv cfg mem w -> world_inv cfg mem w'.
Proof.
  intros Hnode Hchan [Hn Hs]. split.
  - intros a Ha. rewrite Hnode.
    eapply (node_inv_ext cfg mem a); [|exact (Hn a Ha)].
    intros d _. unfold incoming_total, incoming. by rewrite Hnode, Hchan.
  - intros src dst. rewrite Hchan. apply Hs.
Qed.

(** The moving thread does not see its own move in what its neighbours
    contribute. *)
Lemma own_view w w' me :
  valid_id cfg me ->
  (forall b, b <> me -> node w' b = node w b) ->
  forall d, incoming_total cfg w' me d = incoming_total cfg w me d.
Proof.
  intros Hme Hnodes d. unfold incoming_total.
  by rewrite Hnodes by (by apply neighbour_not_self).
Qed.

Lemma world_send w me :
  world_inv cfg mem w -> valid_id cfg me ->
  ctl (node w me) = Exchanging ->
  needToSend cfg me (thread (node w me)) = true ->
  exists th1 p,
    send_handler cfg me (thread (node w me)) = Some (th1, p) /\
    world_inv cfg mem
      (mkWorld (<[me := mkNode Exchanging th1 []]> (node w))
               (transmit me [p] (chan w))).
Proof.
  intros Hw Hme Hctl Hneed. pose proof Hw as [Hn Hs].
  destruct (local_send cfg mem me _ _ _ (Hn me Hme) Hctl Hneed)
    as (d & th1 & Hd & Hflag & Hsend & Ht & Hflags & Hinv).
  eexists _, _. split; [exact Hsend|].
  simpl. set (dst := neighbour cfg me d) in *.
  set (m := sent_msg cfg mem (Z.to_nat (t (thread (node w me)))) me d) in *.
  set (w' := mkWorld _ _).
  destruct (neighbour_back cfg Hcfg me d Hme Hd) as [Hdst Hback]. fold dst in Hdst, Hback.
  assert (dst <> me) as Hdm by (by apply neighbour_not_self).
  assert (forall b, b <> me -> node w' b = node w b) as Hnodes.
  { intros b Hb. simpl. by rewrite fn_lookup_insert_ne. }
  assert (sent_total cfg me (node w me) d = t (thread (node w me))) as Hold.
  { unfold sent_total. rewrite Hctl, Hflag. simpl. lia. }
  split.
  - intros a Ha. destruct (decide (a = me)) as [->|Hne].
    + simpl. rewrite fn_lookup_insert.
      eapply (node_inv_ext cfg mem me); [|exact Hinv].
      intros d' _. split; [by apply own_view|].
      unfold incoming. simpl. rewrite fn_lookup_insert_ne; [done|].
      apply pair_ne_l. symmetry. by apply neighbour_not_self.
    + destruct (decide (a = dst)) as [->|Hnd].
      * apply (other_node_append w w' me dst (opposite d)); try done.
        -- destruct Hme; lia.
        -- by apply Hnodes.
        -- intros b Hb. simpl. rewrite fn_lookup_insert_ne; [done|]. by apply pair_ne_l.
        -- rewrite opposite_involutive, Hold. unfold sent_total. simpl.
           rewrite fn_lookup_insert. simpl.
           rewrite Hflags, decide_True by done. simpl. lia.
        -- rewrite opposite_involutive, Hold. simpl. by rewrite fn_lookup_insert.
      * apply (other_node_same w w' me a); try done.
        -- by apply Hnodes.
        -- intros b. simpl. rewrite fn_lookup_insert_ne; [done|]. by apply pair_ne_r.
        -- intros d' Hd'. unfold sent_total. simpl. rewrite fn_lookup_insert, Hctl. simpl.
           rewrite Ht, Hflags, decide_False; [done|].
           intros E. apply Hnd.
           assert (0 <= neighbour cfg a d') by (rewrite Hd'; destruct Hme; lia).
           destruct (neighbour_back cfg Hcfg a d' Ha) as [_ Hb']; [done|].
           rewrite Hd', E in Hb'. done.
  - intros src dst'. simpl. destruct (decide ((me, dst) = (src, dst'))) as [[= <- <-]|Hk].
    + intros _. split; [done|]. split; [done|]. by exists d.
    + rewrite fn_lookup_insert_ne by done. apply Hs.
Qed.

Lemma world_recv w me src msg rest :
  world_inv cfg mem w -> valid_id cfg me ->
  ctl (node w me) = Exchanging ->
  chan w (src, me) = msg :: rest ->
  exists th' d,
    recv_handler msg (thread (node w me)) = Some th' /\
    Dir_of_Z (tag_dir (rd msg 0)) = Some d /\ neighbour cfg me d = src /\
    (tag_phase (rd msg 0) <> Z.land (t (thread (node w me))) 1 ->
       edgeInBuffer (thread (node w me)) d = None /\ edgeInBuffer th' d = Some msg) /\
    world_inv cfg mem
      (mkWorld (<[me := mkNode Exchanging th' []]> (node w))
               (<[(src, me) := rest]> (chan w))).
Proof.
  intros Hw Hme Hctl Hch. pose proof Hw as [Hn Hs].
  destruct (Hs src me) as (Hsrc & _ & d0 & Hd0); [by rewrite Hch|].
  assert (0 <= neighbour cfg src d0) as Hd0' by (rewrite Hd0; destruct Hme; lia).
  destruct (neighbour_back cfg Hcfg src d0 Hsrc Hd0') as [_ Hback].
  rewrite Hd0 in Hback. set (d := opposite d0) in *.
  assert (0 <= neighbour cfg me d) as Hd by (rewrite Hback; destruct Hsrc; lia).
  destruct (bounded_skew w me d Hw Hme Hd) as (_ & _ & Htot).
  destruct (local_recv cfg mem Hmem me _ _ _ d msg rest (Hn me Hme) Hctl Hd)
    as (th' & Hrecv & Hdir & Hearly & Hcur & Ht & Hse & Hinv);
    [by unfold incoming; rewrite Hback|done|].
  exists th', d. split; [done|]. split; [done|]. split; [done|].
  split; [intros Hph; by destruct (Hearly Hph) as (? & ? & _)|].
  set (w' := mkWorld _ _).
  assert (src <> me) as Hsm by (rewrite <- Hback; by apply neighbour_not_self).
  assert (forall b, b <> me -> node w' b = node w b) as Hnodes.
  { intros b Hb. simpl. by rewrite fn_lookup_insert_ne. }
  split.
  - intros a Ha. destruct (decide (a = me)) as [->|Hne].
    + simpl. rewrite fn_lookup_insert.
      eapply (node_inv_ext cfg mem me); [|exact Hinv].
      intros d' Hd'. split; [by apply own_view|].
      unfold incoming. simpl. destruct (decide (d' = d)) as [->|Hdd].
      * by rewrite Hback, !fn_lookup_insert.
      * rewrite !fn_lookup_insert_ne; [done|done|].
        apply pair_ne_l. rewrite <- Hback. intros E. apply Hdd.
        symmetry. by apply (neighbour_inj cfg Hcfg me).
    + apply (other_node_same w w' me a); try done.
      * by apply Hnodes.
      * intros b. simpl. rewrite fn_lookup_insert_ne; [done|]. by apply pair_ne_r.
      * intros d' _. simpl. rewrite fn_lookup_insert.
        by apply sent_total_same.
  - intros s' dst'. simpl. destruct (decide ((src, me) = (s', dst'))) as [[= <- <-]|Hk].
    + intros _. apply Hs. by rewrite Hch.
    + rewrite fn_lookup_insert_ne by done. apply Hs.
Qed.

Lemma world_next w me :
  world_inv cfg mem w -> valid_id cfg me ->
  ctl (node w me) = Exchanging ->
  exchange_done cfg me (thread (node w me)) = true ->
  world_inv cfg mem
    (mkWorld (<[me := enter_loop cfg me (end_step (thread (node w me)))]> (node w))
             (chan w)).
Proof.
  intros Hw Hme Hctl Hdone. pose proof Hw as [Hn Hs].
  destruct (local_next cfg mem Hmem me _ _ _ (Hn me Hme) Hctl Hdone)
    as [Hinv Htot].
  { intros d Hd. by destruct (bounded_skew w me d Hw Hme Hd) as (_ & _ & ?). }
  set (w' := mkWorld _ _).
  assert (forall b, b <> me -> node w' b = node w b) as Hnodes.
  { intros b Hb. simpl. by rewrite fn_lookup_insert_ne. }
  split; [|done].
  intros a Ha. destruct (decide (a = me)) as [->|Hne].
  - simpl. rewrite fn_lookup_insert.
    eapply (node_inv_ext cfg mem me); [|exact Hinv].
    intros d' _. split; [by apply own_view|done].
  - apply (other_node_same w w' me a); try done.
    + by apply Hnodes.
    + intros d' Hd'. simpl. rewrite fn_lookup_insert. apply Htot.
      assert (0 <= neighbour cfg a d') by (rewrite Hd'; destruct Hme; lia).
      destruct (neighbour_back cfg Hcfg a d' Ha) as [_ Hb']; [done|].
      rewrite Hd' in Hb'. rewrite Hb'. destruct Ha; lia.
Qed.

(** An iteration that neither sends nor receives. *)
Lemma world_idle w me :
  world_inv cfg mem w -> valid_id cfg me ->
  ctl (node w me) = Exchanging ->
  world_inv cfg mem
    (mkWorld (<[me := mkNode Exchanging (thread (node w me)) []]> (node w)) (chan w)).
Proof.
  intros Hw Hme Hctl. pose proof Hw as [Hn Hs].
  set (w' := mkWorld _ _).
  assert (forall b, b <> me -> node w' b = node w b) as Hnodes.
  { intros b Hb. simpl. by rewrite fn_lookup_insert_ne. }
  split; [|done].
  intros a Ha. destruct (decide (a = me)) as [->|Hne].
  - simpl. rewrite fn_lookup_insert.
    eapply (node_inv_ext cfg mem me).
    { intros d' _. split; [by apply (own_view w w')|reflexivity]. }
    pose proof (Hn me Hme) as Hinv. destruct (node w me) as [c th h].
    simpl in Hctl. subst c. destruct Hinv. by split.
  - apply (other_node_same w w' me a); try done.
    + by apply Hnodes.
    + intros d' _. simpl. rewrite fn_lookup_insert. by apply sent_total_same.
Qed.

(** *** The invariant holds in every reachable world *)

Lemma boot_node a :
  exists th, boot cfg mem a = mkNode Exchanging th [] /\
    th = begin_step cfg (init_thread cfg a (mem a)) /\
    t th = 0 /\ edgesSent th = 0.
Proof.
  exists (begin_step cfg (init_thread cfg a (mem a))).
  split; [done|]. split; [done|].
  set (th0 := set_edgesReceived 0
                (set_edgesSent 0 (update_state cfg (init_thread cfg a (mem a))))).
  change (begin_step cfg _) with (recognise_buffered th0).
  destruct (recognise_buffered_spec th0 eq_refl) as (_ & _ & _ & _ & D5 & _ & _ & _ & D9).
  rewrite D5, D9. subst th0. thread_simpl.
  by destruct (update_state_frame cfg (init_thread cfg a (mem a))) as (-> & _).
Qed.

Lemma init_inv : world_inv cfg mem (init_world cfg mem).
Proof.
  split; [|done]. intros me Hme. simpl.
  assert (forall d, incoming_total cfg (init_world cfg mem) me d = 0) as Htot.
  { intros d. unfold incoming_total. simpl.
    destruct (boot_node (neighbour cfg me d)) as (th & -> & _ & Ht & Hs).
    unfold sent_total. simpl. by rewrite sent_flag_none, Ht. }
  destruct (boot_node me) as (th & -> & Hth & Ht & Hse).
  set (thi := init_thread cfg me (mem me)) in *.
  set (th0 := set_edgesReceived 0 (set_edgesSent 0 (update_state cfg thi))).
  change (begin_step cfg thi) with (recognise_buffered th0) in Hth.
  destruct (recognise_buffered_spec th0 eq_refl)
    as (D1 & D2 & D3 & D4 & D5 & D6 & D7 & D8 & D9).
  subst th.
  destruct (update_state_frame cfg thi) as (Ut & Ug & Ui & Ub & _).
  assert (forall d, edgeInBuffer th0 d = None) as Eb.
  { intros d. subst th0. thread_simpl. by rewrite Ub. }
  assert (forall d, received (incoming_total cfg (init_world cfg mem) me)
                      (incoming cfg (init_world cfg mem) me) d = 0) as Hrec.
  { intros d. unfold received. by rewrite Htot. }
  pose proof (update_state_shape cfg _ (init_thread_shape cfg me _ (Hmem me)))
    as (Sg & Sn & So & Si). fold thi in Sg, Sn, So, Si.
  split; simpl.
  - rewrite Ht. pose proof nsteps_val. lia.
  - by rewrite Ht.
  - unfold thread_shape. rewrite D6, D7, D8. subst th0. thread_simpl.
    split; [done|]. split; [done|]. split; [done|].
    intros d. rewrite D2 by done. apply Si.
  - intros d _. rewrite Hrec, Ht. lia.
  - done.
  - rewrite Ht. change (Z.to_nat 0) with 0%nat.
    unfold exchanging_inv. rewrite D6, D7, D8, D9. subst th0. thread_simpl.
    split; [done|]. split; [done|]. split; [|split; [|split; [|split]]].
    + intros d. by rewrite sent_flag_none.
    + intros d. rewrite D2 by done. unfold got. simpl.
      rewrite bool_decide_eq_false_2; [done|]. rewrite Hrec, Ht. lia.
    + intros d. rewrite D3. unfold early. simpl.
      rewrite bool_decide_eq_false_2; [done|]. rewrite Hrec, Ht. lia.
    + pose proof (numNeighbours_bounds cfg me). lia.
    + rewrite D4, filter_count. apply count_dirs_ext. intros d.
      rewrite Eb. unfold got. simpl.
      rewrite bool_decide_eq_false_2 by (rewrite Hrec, Ht; lia).
      first [done | by apply bool_decide_eq_false_2; intros [? ?]].
Qed.

Lemma transmit_one me p c :
  transmit me [p] c = <[(me, p.1) := c (me, p.1) ++ [p.2]]> c.
Proof. done. Qed.

Lemma step_inv w w' : world_inv cfg mem w -> step cfg w w' -> world_inv cfg mem w'.
Proof.
  intros Hw Hstep.
  destruct Hstep as [w me ev th' out c' Hme Hctl Hnd Hwake Hiter Hdel|w me Hme Hctl Hdone];
    [|by apply world_next].
  unfold exchange_iter in Hiter.
  destruct (needToSend cfg me (thread (node w me)) && canSend ev) eqn:Hs.
  - apply andb_true_iff in Hs as [Hneed _].
    destruct (world_send w me Hw Hme Hctl Hneed) as (th1 & p & Hsend & Hw1).
    rewrite Hsend in Hiter. simpl in Hiter.
    destruct (canRecv ev) as [msg|]; simpl in Hiter, Hdel.
    + destruct (recv_handler msg th1) as [th2|] eqn:Hrecv; [|done].
      simpl in Hiter. injection Hiter as <- <-.
      destruct Hdel as (src & rest & Hch & ->).
      destruct (world_recv _ me src msg rest Hw1 Hme) as (th3 & d & Hr3 & _ & _ & _ & Hw2);
        [by simpl; rewrite fn_lookup_insert|done|].
      simpl in Hr3. rewrite fn_lookup_insert in Hr3. simpl in Hr3.
      rewrite Hrecv in Hr3. injection Hr3 as <-.
      eapply world_inv_ext; [| |exact Hw2]; [|done].
      intros a. simpl. destruct (decide (a = me)) as [->|Hne].
      * by rewrite !fn_lookup_insert.
      * by rewrite !fn_lookup_insert_ne.
    + injection Hiter as <- <-. by subst c'.
  - simpl in Hiter. destruct (canRecv ev) as [msg|]; simpl in Hiter, Hdel.
    + destruct (recv_handler msg (thread (node w me))) as [th2|] eqn:Hrecv; [|done].
      simpl in Hiter. injection Hiter as <- <-.
      destruct Hdel as (src & rest & Hch & ->). simpl in Hch.
      destruct (world_recv w me src msg rest Hw Hme Hctl Hch)
        as (th3 & d & Hr3 & _ & _ & _ & Hw2).
      rewrite Hrecv in Hr3. by injection Hr3 as <-.
    + injection Hiter as <- <-. subst c'. by apply world_idle.
Qed.

Lemma reachable_inv w : reachable cfg mem w -> world_inv cfg mem w.
Proof.
  induction 1 as [|w w' _ IH Hstep]; [apply init_inv|by eapply step_inv].
Qed.

End WorldSteps.

(** ** What the protocol guarantees *)

Section Protocol.

Variable cfg : Config.
Variable mem : Z -> Memory.
Hypothesis Hcfg : valid_config cfg.
Hypothesis Hmem : forall me, memory_shape (Ln cfg) (mem me).

Lemma recv_handler_buffer msg th th' :
  recv_handler msg th = Some th' ->
  edgeInBuffer th' = edgeInBuffer th \/
  exists d, Dir_of_Z (tag_dir (rd msg 0)) = Some d /\
    tag_phase (rd msg 0) <> Z.land (t th) 1 /\
    edgeInBuffer th' = <[d := Some msg]> (edgeInBuffer th).
Proof.
  unfold recv_handler. destruct (Dir_of_Z _) as [d|] eqn:Hd; [|done]. simpl.
  case_bool_decide; intros [= <-]; [by left|].
  right. by exists d.
Qed.

(** In a step of the mesh an occupied buffer slot keeps its edge or is
    emptied. *)
Lemma step_buffer w w' me d m :
  world_inv cfg mem w -> step cfg w w' ->
  edgeInBuffer (thread (node w me)) d = Some m ->
  edgeInBuffer (thread (node w' me)) d = Some m \/
  edgeInBuffer (thread (node w' me)) d = None.
Proof.
  intros Hw Hstep Hbuf.
  destruct Hstep as [w me0 ev th' out c' Hme Hctl Hnd Hwake Hiter Hdel|w me0 Hme Hctl Hdone];
    simpl; (destruct (decide (me = me0)) as [->|Hne];
            [rewrite fn_lookup_insert|by rewrite fn_lookup_insert_ne; auto]); simpl.
  - unfold exchange_iter in Hiter.
    assert (exists th1 o w1,
      (if needToSend cfg me0 (thread (node w me0)) && canSend ev
       then '(th1, p) ← send_handler cfg me0 (thread (node w me0)); Some (th1, [p])
       else Some (thread (node w me0), [])) = Some (th1, o) /\
      edgeInBuffer th1 = edgeInBuffer (thread (node w me0)) /\
      world_inv cfg mem w1 /\ thread (node w1 me0) = th1 /\
      ctl (node w1 me0) = Exchanging /\ chan w1 = transmit me0 o (chan w))
      as (th1 & o & w1 & Hs & Hb1 & Hw1 & Hth1 & Hc1 & Hch1).
    { destruct (needToSend cfg me0 (thread (node w me0)) && canSend ev) eqn:Hs.
      - apply andb_true_iff in Hs as [Hneed _].
        destruct (world_send cfg mem Hcfg w me0 Hw Hme Hctl Hneed) as (th1 & p & Hsend & Hw1).
        rewrite Hsend. simpl. eexists _, _, _. split; [done|].
        split; [by apply (send_handler_frame cfg me0 _ _ p)|].
        split; [exact Hw1|]. simpl. by rewrite fn_lookup_insert.
      - exists (thread (node w me0)), [], w.
        split; [done|]. split; [done|]. split; [done|]. by split. }
    rewrite Hs in Hiter. simpl in Hiter.
    destruct (canRecv ev) as [msg|]; simpl in Hiter, Hdel.
    + destruct (recv_handler msg th1) as [th2|] eqn:Hrecv; [|done].
      simpl in Hiter. injection Hiter as <- <-.
      destruct (recv_handler_buffer _ _ _ Hrecv) as [->|(d' & Hd' & Hph & ->)].
      * left. by rewrite Hb1.
      * destruct (decide (d' = d)) as [->|Hdd];
          [|left; by rewrite fn_lookup_insert_ne, Hb1].
        exfalso. destruct Hdel as (src & rest & Hch & _). rewrite <- Hch1 in Hch.
        destruct (world_recv cfg mem Hcfg Hmem w1 me0 src msg rest Hw1 Hme Hc1 Hch)
          as (th3 & d3 & _ & Hd3 & _ & Hempty & _).
        rewrite Hd' in Hd3. injection Hd3 as <-. rewrite Hth1 in Hempty.
        destruct (Hempty Hph) as [Hnone _]. rewrite Hb1 in Hnone. congruence.
    + injection Hiter as <- <-. left. by rewrite Hb1.
  - unfold enter_loop. case_bool_decide; simpl; [|by left].
    right.
    set (th0 := set_edgesReceived 0
                  (set_edgesSent 0 (update_state cfg (end_step (thread (node w me0)))))).
    change (begin_step cfg _) with (recognise_buffered th0).
    by destruct (recognise_buffered_spec th0 eq_refl) as (_ & _ & -> & _).
Qed.

(** C3. At most one pending early edge per direction: in every world
    the mesh can reach, (1) two directly connected threads are at most
    one simulation step apart (the skew bound the protocol relies on
    holds by itself); (2) every message at the head of a channel into a
    thread, i.e. every message that thread can receive next, carries
    the direction of the channel's source in its tag, and if its phase
    bit differs from the thread's current one then the
    [edgeInBuffer] slot of that direction is empty: the store into the
    slot never hits an occupied slot; (3) in any step of the mesh an
    occupied slot either keeps the very same edge or is emptied. *)
Theorem one_pending_edge_per_direction (w : World) :
  reachable cfg mem w ->
  (forall me d, valid_id cfg me -> 0 <= neighbour cfg me d ->
     t (thread (node w me)) - 1 <= t (thread (node w (neighbour cfg me d)))
       <= t (thread (node w me)) + 1) /\
  (forall me src msg rest,
     valid_id cfg me -> ctl (node w me) = Exchanging ->
     chan w (src, me) = msg :: rest ->
     exists d, Dir_of_Z (tag_dir (rd msg 0)) = Some d /\
       neighbour cfg me d = src /\
       (tag_phase (rd msg 0) <> Z.land (t (thread (node w me))) 1 ->
        edgeInBuffer (thread (node w me)) d = None)) /\
  (forall w' me d m, step cfg w w' ->
     edgeInBuffer (thread (node w me)) d = Some m ->
     edgeInBuffer (thread (node w' me)) d = Some m \/
     edgeInBuffer (thread (node w' me)) d = None).
Proof.
  intros Hw%(reachable_inv cfg mem Hcfg Hmem). split; [|split].
  - intros me d Hme Hd.
    destruct (bounded_skew cfg mem Hcfg w me d Hw Hme Hd) as (? & ? & _). lia.
  - intros me src msg rest Hme Hctl Hch.
    destruct (world_recv cfg mem Hcfg Hmem w me src msg rest Hw Hme Hctl Hch)
      as (th' & d & _ & Hd & Hsrc & Hempty & _).
    exists d. split; [done|]. split; [done|].
    intros Hph. by destruct (Hempty Hph).
  - intros w' me d m Hstep. by apply step_buffer.
Qed.

(** *** Every thread follows the lock-step run *)

Lemma exchange_done_all me nd tot inc :
  node_inv cfg mem me nd tot inc -> ctl nd = Exchanging ->
  exchange_done cfg me (thread nd) = true ->
  forall d, 0 <= neighbour cfg me d -> got cfg me nd tot inc d = true.
Proof.
  intros Hinv Hctl Hdone d Hd.
  pose proof (inv_state _ _ _ _ _ _ Hinv) as Hst. rewrite Hctl in Hst.
  destruct Hst as (_ & _ & _ & _ & _ & _ & Hre).
  apply andb_true_iff in Hdone as [_ Hrd].
  apply negb_true_iff, bool_decide_eq_false in Hrd.
  apply (count_dirs_full _ (fun d => bool_decide (0 <= neighbour cfg me d))).
  - intros d' [H _]%bool_decide_eq_true. by apply bool_decide_eq_true_2.
  - rewrite <- numNeighbours_count, <- Hre. lia.
  - by apply bool_decide_eq_true_2.
Qed.

Lemma emit_subgrid me th th' :
  subgrid th = subgrid th' -> emit cfg me th = emit cfg me th'.
Proof. intros E. unfold emit. by rewrite E. Qed.

(** What a thread holds is what the lock-step run holds at the same
    step. *)
Lemma thread_follows_lockstep w me :
  reachable cfg mem w -> valid_id cfg me ->
  let nd := node w me in
  let k := Z.to_nat (t (thread nd)) in
  0 <= t (thread nd) <= nsteps /\
  (ctl nd = Finished <-> t (thread nd) = nsteps) /\
  subgrid (thread nd) = subgrid (lockstep cfg mem k me) /\
  (ctl nd = Exchanging -> exchange_done cfg me (thread nd) = true ->
   forall d, edgeIn (thread nd) d = edgeIn (lockstep cfg mem (k + 1) me) d) /\
  (ctl nd = Finished ->
   (forall d, edgeIn (thread nd) d = edgeIn (lockstep cfg mem k me) d) /\
   hostOut nd = emit cfg me (lockstep cfg mem k me)).
Proof.
  intros Hw%(reachable_inv cfg mem Hcfg Hmem) Hme nd k.
  destruct Hw as [Hn _]. pose proof (Hn me Hme) as Hinv. fold nd in Hinv.
  pose proof (inv_time _ _ _ _ _ _ Hinv) as Ht.
  pose proof (inv_ctl _ _ _ _ _ _ Hinv) as Hc.
  pose proof (inv_state _ _ _ _ _ _ Hinv) as Hst.
  split; [done|]. split.
  { destruct (ctl nd); split; try done; lia. }
  destruct (ctl nd) eqn:Hctl.
  - destruct Hst as (Hg & _ & _ & Hi & _).
    destruct (stencilled_frame cfg mem k me ltac:(lia)) as (_ & Sg & _).
    fold k in Hg, Hi.
    split; [by rewrite Hg, Sg|]. split; [|done].
    intros _ Hdone d.
    destruct (lockstep_succ cfg mem k me ltac:(lia)) as (_ & _ & _ & _ & Li).
    rewrite Hi, Li. case_bool_decide as Hd.
    + by rewrite (exchange_done_all me nd _ _ Hinv Hctl Hdone d Hd).
    + unfold got. rewrite bool_decide_eq_false_2; [done|tauto].
  - destruct Hst as [(_ & Cg & _ & _ & Ci) Hout].
    assert (k = Z.to_nat nsteps) as -> by (subst k; f_equal; exact Hc).
    split; [exact Cg|]. split; [intros [=]|]. intros _. split; [exact Ci|].
    rewrite Hout. apply emit_subgrid. exact Cg.
Qed.

(** C6. Determinism under reordering: take any two runs of the mesh,
    i.e. any two interleavings of the threads' sends and receives in
    which each channel delivers in order, and any thread that is at the
    same step in both.  Then the thread's subgrid is the same in both
    runs; when its exchange of that step is complete in both, so is the
    incoming boundary of every direction; and once it is past the last
    step, the incoming boundaries and the words it has emitted are the
    same.  (Which message becomes which incoming boundary is decided by
    its tag alone.) *)
Theorem arrival_order_irrelevant (w1 w2 : World) (me : Z) :
  reachable cfg mem w1 -> reachable cfg mem w2 -> valid_id cfg me ->
  t (thread (node w1 me)) = t (thread (node w2 me)) ->
  subgrid (thread (node w1 me)) = subgrid (thread (node w2 me)) /\
  (ctl (node w1 me) = Exchanging ->
   exchange_done cfg me (thread (node w1 me)) = true ->
   exchange_done cfg me (thread (node w2 me)) = true ->
   forall d, edgeIn (thread (node w1 me)) d = edgeIn (thread (node w2 me)) d) /\
  (ctl (node w1 me) = Finished ->
   ctl (node w2 me) = Finished /\
   (forall d, edgeIn (thread (node w1 me)) d = edgeIn (thread (node w2 me)) d) /\
   hostOut (node w1 me) = hostOut (node w2 me)).
Proof.
  intros Hw1 Hw2 Hme Ht.
  destruct (thread_follows_lockstep w1 me Hw1 Hme) as (_ & Hf1 & Hg1 & He1 & Hd1).
  destruct (thread_follows_lockstep w2 me Hw2 Hme) as (_ & Hf2 & Hg2 & He2 & Hd2).
  rewrite <- Ht in Hf2, Hg2, He2, Hd2.
  split; [by rewrite Hg1, Hg2|]. split.
  - intros Hc1 Hdone1 Hdone2 d.
    assert (ctl (node w2 me) = Exchanging) as Hc2.
    { destruct (ctl (node w2 me)); [done|].
      rewrite (proj1 Hf2 eq_refl) in Hf1. rewrite (proj2 Hf1 eq_refl) in Hc1. done. }
    by rewrite He1, He2.
  - intros Hc1.
    assert (ctl (node w2 me) = Finished) as Hc2 by (by apply Hf2, Hf1).
    destruct (Hd1 Hc1) as [Hi1 Ho1]. destruct (Hd2 Hc2) as [Hi2 Ho2].
    split; [done|]. split; [|by rewrite Ho1, Ho2].
    intros d. by rewrite Hi1, Hi2.
Qed.

End Protocol.

(** ** Schedules *)

Section ScheduleFacts.

Variable cfg : Config.
Variable mem : Z -> Memory.

Lemma may_move_spec w me :
  may_move cfg w me = true -> valid_id cfg me /\ ctl (node w me) = Exchanging.
Proof.
  unfold may_move. intros [H1 H2]%andb_true_iff.
  by apply bool_decide_eq_true in H1, H2.
Qed.

Lemma iterate_spec w me ev th' c1 :
  iterate cfg w me ev = Some (th', c1) ->
  valid_id cfg me /\ ctl (node w me) = Exchanging /\
  exchange_done cfg me (thread (node w me)) = false /\
  wakes cfg me (thread (node w me)) ev = true /\
  exists out, exchange_iter cfg me ev (thread (node w me)) = Some (th', out) /\
    c1 = transmit me out (chan w).
Proof.
  unfold iterate.
  destruct (may_move cfg w me) eqn:Hm; [|done].
  destruct (exchange_done cfg me (thread (node w me))) eqn:Hd; [done|].
  destruct (wakes cfg me (thread (node w me)) ev) eqn:Hw; [|done]. simpl.
  destruct (exchange_iter cfg me ev (thread (node w me))) as [[th1 out]|]; [|done].
  simpl. intros [= <- <-]. apply may_move_spec in Hm as [? ?]. eauto 10.
Qed.

(** Every move [perform] makes is a step of the mesh. *)
Lemma perform_sound w mv w' : perform cfg w mv = Some w' -> step cfg w w'.
Proof.
  destruct mv as [me cs [src|]|me]; simpl.
  - destruct (chan w (src, me)) as [|msg r] eqn:Hch; [done|].
    destruct (iterate cfg w me (mkEvent cs (Some msg))) as [[th' c1]|] eqn:Hit; [|done].
    simpl. destruct (c1 (src, me)) as [|m rest] eqn:Hc1; [done|].
    case_decide as Hm; [|done]. subst m. intros [= <-].
    apply iterate_spec in Hit as (Hv & Hc & Hd & Hw & out & Hex & ->).
    apply (step_iter cfg w me (mkEvent cs (Some msg)) th' out); try done.
    simpl. by exists src, rest.
  - destruct (iterate cfg w me (mkEvent cs None)) as [[th' c1]|] eqn:Hit; [|done].
    simpl. intros [= <-].
    apply iterate_spec in Hit as (Hv & Hc & Hd & Hw & out & Hex & ->).
    by apply (step_iter cfg w me (mkEvent cs None) th' out).
  - destruct (may_move cfg w me) eqn:Hm; [|done].
    destruct (exchange_done cfg me (thread (node w me))) eqn:Hd; [|done].
    simpl. intros [= <-]. apply may_move_spec in Hm as [? ?].
    by apply step_next.
Qed.

(** Running a schedule stays among the reachable worlds. *)
Lemma run_reachable mvs : forall w,
  reachable cfg mem w -> reachable cfg mem (run cfg w mvs).
Proof.
  induction mvs as [|mv mvs IH]; intros w Hw; [done|].
  simpl. apply IH. destruct (perform cfg w mv) as [w'|] eqn:Hp; [|done].
  simpl. eapply reach_step; [exact Hw|]. by apply (perform_sound w mv).
Qed.

End ScheduleFacts.

(* ================================================================== *)
(** * Further properties *)

(** ** Directions and fixed-point values *)

Section Encodings.

(** X1. [opposite] pairs north with south and east with west: applied
    twice it gives the direction back, it never returns its argument,
    on the codes of the enumeration it flips the low bit, and [d'] is
    sent to [d] exactly when [d'] is the opposite of [d]. *)
Theorem opposite_flips_axis (d : Dir) :
  opposite (opposite d) = d /\
  opposite d <> d /\
  Dir_to_Z (opposite d) = Z.lxor (Dir_to_Z d) 1 /\
  (forall d', opposite d' = d <-> d' = opposite d).
Proof.
  split; [by destruct d|]. split; [by destruct d|]. split; [by destruct d|].
  intros d'. destruct d, d'; split; intros; try done.
Qed.

(** X2. The 16.16 encoding: for an integer part [x] below [2^15] and
    a fraction [y] below [2^16], [FixedPoint(x, y)] is [x * 65536 + y]
    and fits an [int]; [>> 16] gives back [x], the low 16 bits give
    back [y], and for [x] below 256 the byte the emission extracts,
    [(v >> 16) & 0xff], is [x]. *)
Theorem FixedPoint_roundtrip (x y : Z) :
  0 <= x < 2 ^ 15 -> 0 <= y < 2 ^ 16 ->
  FixedPoint x y = x * 65536 + y /\
  sar (FixedPoint x y) 16 = x /\
  Z.land (FixedPoint x y) 65535 = y /\
  is_s32 (FixedPoint x y) /\
  (x < 256 -> Z.land (sar (FixedPoint x y) 16) 255 = x).
Proof.
  intros Hx Hy.
  enough (FixedPoint x y = x * 65536 + y /\
          sar (FixedPoint x y) 16 = x /\
          Z.land (FixedPoint x y) 65535 = y /\
          is_s32 (FixedPoint x y)) as (H1 & H2 & H3 & H4).
  { do 4 (split; [done|]). intros Hs. rewrite H2.
    change 255 with (Z.ones 8). rewrite Z.land_ones by done.
    apply Z.mod_small. change (2 ^ 8) with 256. lia. }
  unfold FixedPoint, shl, sar.
  rewrite Z.shiftl_mul_pow2 by done.
  rewrite s32_small by (unfold is_s32, half_modulus; lia).
  rewrite lor_mul_pow2 by lia.
  change (2 ^ 16) with 65536 in *.
  split; [done|]. split; [|split].
  - rewrite Z.shiftr_div_pow2 by done. change (2 ^ 16) with 65536.
    rewrite Z.add_comm, Z.div_add by done. rewrite Z.div_small; lia.
  - change 65535 with (Z.ones 16). rewrite Z.land_ones by done.
    change (2 ^ 16) with 65536.
    rewrite Z.add_comm, Z.mod_add by done. apply Z.mod_small. lia.
  - unfold is_s32, half_modulus. lia.
Qed.

End Encodings.

(** ** Shape of the mesh *)

Section TopologyMore.

Variable cfg : Config.
Hypothesis Hcfg : valid_config cfg.
Local Abbreviation n := (len cfg).

(** X3. Size of the mesh: [len] is at least 1 and the mesh has
    [len * len = 2^(2 * (TinselLogThreadsPerBoard / 2))] threads; these
    are all [2^TinselLogThreadsPerBoard] threads of the board when
    [TinselLogThreadsPerBoard] is even (the assumption the source
    states), and half of them when it is odd. *)
Theorem mesh_size :
  1 <= len cfg /\
  len cfg * len cfg = 2 ^ (2 * (TinselLogThreadsPerBoard cfg `div` 2)) /\
  (Z.even (TinselLogThreadsPerBoard cfg) = true ->
   len cfg * len cfg = 2 ^ TinselLogThreadsPerBoard cfg) /\
  (Z.even (TinselLogThreadsPerBoard cfg) = false ->
   2 * (len cfg * len cfg) = 2 ^ TinselLogThreadsPerBoard cfg).
Proof.
  pose proof (logLen_range cfg Hcfg) as Hk. pose proof (len_range cfg Hcfg) as Hn.
  destruct Hcfg as [[H0 H1] _].
  assert (logLen cfg = TinselLogThreadsPerBoard cfg `div` 2) as Ek.
  { unfold logLen, ushr. by rewrite Z.shiftr_div_pow2. }
  split; [lia|].
  assert (n * n = 2 ^ (2 * (TinselLogThreadsPerBoard cfg `div` 2))) as En.
  { rewrite (len_pow2 cfg Hcfg), <- Z.pow_add_r, Ek by lia. f_equal. lia. }
  split; [done|]. split.
  - intros He. rewrite En. f_equal.
    apply Z.even_spec in He as [m Hm].
    pose proof (Z.div_mod (TinselLogThreadsPerBoard cfg) 2 ltac:(done)).
    pose proof (Z.mod_pos_bound (TinselLogThreadsPerBoard cfg) 2 ltac:(done)). lia.
  - intros Ho. rewrite En.
    rewrite <- Z.negb_odd in Ho. apply negb_false_iff, Z.odd_spec in Ho as [m Hm].
    pose proof (Z.div_mod (TinselLogThreadsPerBoard cfg) 2 ltac:(done)).
    pose proof (Z.mod_pos_bound (TinselLogThreadsPerBoard cfg) 2 ltac:(done)).
    set (q := TinselLogThreadsPerBoard cfg `div` 2) in *.
    replace (TinselLogThreadsPerBoard cfg) with (1 + 2 * q) by lia.
    rewrite (Z.pow_add_r 2 1) by lia. lia.
Qed.

(** X4. Coordinates of a thread: for an identity of the mesh, [xPos]
    and [yPos] lie in [0, len) and [me = yPos * len + xPos]; conversely
    every pair of coordinates in range is the pair of the thread
    [y * len + x], which is in the mesh. *)
Theorem thread_coordinates (me : Z) :
  valid_id cfg me ->
  0 <= xPos cfg me < n /\ 0 <= yPos cfg me < n /\
  me = yPos cfg me * n + xPos cfg me /\
  (forall y x, 0 <= y < n -> 0 <= x < n ->
     valid_id cfg (y * n + x) /\
     xPos cfg (y * n + x) = x /\ yPos cfg (y * n + x) = y).
Proof.
  intros Hv. split; [apply (xPos_range cfg Hcfg)|].
  split; [by apply (yPos_range cfg Hcfg)|].
  split; [apply (id_coords cfg Hcfg)|].
  intros y x Hy Hx. split; [by apply valid_coords|].
  split; [by apply xPos_coords|by apply yPos_coords].
Qed.

(** X5. [neighbour[d]] is the thread one position away in direction
    [d] (north is [yPos - 1], west is [xPos - 1]): when that position
    is inside the mesh the entry is its identity, a thread of the mesh
    with those coordinates; when it is outside, the entry is [-1]. *)
Theorem neighbour_adjacent (me : Z) (d : Dir) :
  valid_id cfg me ->
  let p := toward d (yPos cfg me) (xPos cfg me) in
  if bool_decide (0 <= p.1 < n /\ 0 <= p.2 < n)
  then neighbour cfg me d = p.1 * n + p.2 /\
       valid_id cfg (neighbour cfg me d) /\
       yPos cfg (neighbour cfg me d) = p.1 /\
       xPos cfg (neighbour cfg me d) = p.2
  else neighbour cfg me d = -1.
Proof.
  intros Hv p. pose proof (xPos_range cfg Hcfg me) as Hx.
  pose proof (yPos_range cfg Hcfg me Hv) as Hy.
  assert (neighbour cfg me d =
          if bool_decide (0 <= p.1 < n /\ 0 <= p.2 < n) then p.1 * n + p.2 else -1) as E.
  { rewrite (neighbour_coords cfg Hcfg) by done. subst p.
    destruct d; simpl; case_match; case_bool_decide; try lia; done. }
  case_bool_decide as Hp; [|done].
  rewrite E. destruct Hp as [Hp1 Hp2].
  split; [done|]. split; [by apply valid_coords|].
  split; [by apply yPos_coords|by apply xPos_coords].
Qed.

Lemma on_border_neighbour me d :
  valid_id cfg me -> (0 <= neighbour cfg me d <-> on_border cfg me d = false).
Proof.
  intros Hv. pose proof (xPos_range cfg Hcfg me) as Hx.
  pose proof (yPos_range cfg Hcfg me Hv) as Hy.
  rewrite (neighbour_coords cfg Hcfg) by done.
  destruct d; simpl; case_match; rewrite ?Z.eqb_neq in *; split; try done; try lia; nia.
Qed.

(** X6. A thread is never its own neighbour, and two different
    directions never lead to the same thread: the direction determines
    the neighbour and the neighbour the direction. *)
Theorem neighbours_distinct (me : Z) (d d' : Dir) :
  valid_id cfg me -> 0 <= neighbour cfg me d ->
  neighbour cfg me d <> me /\
  (neighbour cfg me d = neighbour cfg me d' -> d = d').
Proof.
  intros Hv Hd. split; [by apply neighbour_not_self|by apply neighbour_inj].
Qed.

(** X7. [neighbourList] holds, in the order north, south, east, west
    and without repetition, exactly the directions in which the thread
    is not on the border of the mesh, i.e. those with a non-negative
    [neighbour] entry; [numNeighbours] is 4 minus the number of borders
    the thread lies on: between 2 and 4 when the mesh has more than one
    thread, 0 for a mesh of one thread. *)
Theorem neighbourList_ordered (me : Z) :
  valid_id cfg me ->
  neighbourList cfg me =
    filter (fun d => on_border cfg me d = false) [N; S; E; W] /\
  NoDup (neighbourList cfg me) /\
  (forall d, d ∈ neighbourList cfg me <-> 0 <= neighbour cfg me d) /\
  numNeighbours cfg me =
    4 - Z.b2z (on_border cfg me N) - Z.b2z (on_border cfg me S)
      - Z.b2z (on_border cfg me E) - Z.b2z (on_border cfg me W) /\
  (2 <= n -> 2 <= numNeighbours cfg me <= 4) /\
  (n = 1 -> numNeighbours cfg me = 0).
Proof.
  intros Hv. pose proof (xPos_range cfg Hcfg me) as Hx.
  pose proof (yPos_range cfg Hcfg me Hv) as Hy.
  assert (forall d, 0 <= neighbour cfg me d <-> on_border cfg me d = false) as Hb
    by (intros d; by apply on_border_neighbour).
  assert (neighbourList cfg me =
          filter (fun d => on_border cfg me d = false) [N; S; E; W]) as El.
  { unfold neighbourList, all_dirs. apply list_filter_iff. intros d. apply Hb. }
  split; [done|]. split; [by apply neighbourList_NoDup|].
  split; [by apply elem_of_neighbourList|].
  assert (numNeighbours cfg me =
    4 - Z.b2z (on_border cfg me N) - Z.b2z (on_border cfg me S)
      - Z.b2z (on_border cfg me E) - Z.b2z (on_border cfg me W)) as En.
  { unfold numNeighbours. rewrite El. rewrite !filter_cons, filter_nil.
    destruct (on_border cfg me N), (on_border cfg me S),
      (on_border cfg me E), (on_border cfg me W); done. }
  split; [done|]. rewrite En. unfold on_border. split.
  - intros Hn.
    destruct (Z.eqb_spec (yPos cfg me) 0) as [?H|?H],
      (Z.eqb_spec (yPos cfg me) (n - 1)) as [?H|?H],
      (Z.eqb_spec (xPos cfg me) 0) as [?H|?H],
      (Z.eqb_spec (xPos cfg me) (n - 1)) as [?H|?H]; simpl; lia.
  - intros Hn.
    destruct (Z.eqb_spec (yPos cfg me) 0) as [?H|?H],
      (Z.eqb_spec (yPos cfg me) (n - 1)) as [?H|?H],
      (Z.eqb_spec (xPos cfg me) 0) as [?H|?H],
      (Z.eqb_spec (xPos cfg me) (n - 1)) as [?H|?H]; simpl; lia.
Qed.

End TopologyMore.

(** ** The state before the first step *)

Section InitialState.

Variable cfg : Config.
Hypothesis Hcfg : valid_config cfg.
Local Abbreviation L := (Ln cfg).

Lemma fill_edge_rd v d f d' j :
  rd (fill_edge cfg v d f d') j =
  if decide (d = d' /\ (1 <= j <= L)%nat /\ (j < length (f d))%nat)
  then v else rd (f d') j.
Proof.
  unfold fill_edge.
  assert (forall js f,
    rd (foldl (fun f j => wr_edge f d j v) f js d') j =
    if decide (d = d' /\ j ∈ js /\ (j < length (f d))%nat)
    then v else rd (f d') j) as H.
  { clear f. induction js as [|j0 js IH]; intros f; simpl.
    - rewrite decide_False; [done|]. by intros (_ & ?%elem_of_nil & _).
    - rewrite IH, length_wr_edge, rd_wr_edge.
      destruct (decide (d = d' /\ j0 = j /\ (j0 < length (f d))%nat)) as [(-> & -> & Hl)|Hne].
      + rewrite (decide_True (P := _ /\ _ ∈ j :: js /\ _)); [by destruct (decide _)|].
        split; [done|]. split; [apply list_elem_of_here|done].
      + destruct (decide (d = d' /\ j ∈ js /\ (j < length (f d))%nat)) as [Hc|Hc].
        * rewrite decide_True; [done|].
          destruct Hc as (? & ? & ?). split; [done|].
          split; [by apply list_elem_of_further|done].
        * rewrite decide_False; [done|].
          intros (? & [->|?]%elem_of_cons & ?); tauto. }
  rewrite H. destruct (decide (d = d' /\ j ∈ seq 1 L /\ (j < length (f d))%nat)) as [Hc|Hc].
  - rewrite decide_True; [done|]. destruct Hc as (? & ?%elem_of_seq & ?).
    split; [done|]. split; [lia|done].
  - rewrite decide_False; [done|]. intros (? & ? & ?). apply Hc.
    split; [done|]. split; [apply elem_of_seq; lia|done].
Qed.

Lemma zero_subgrid_cells g y x :
  grid_shape L g -> (y < L)%nat -> (x < L)%nat -> grd (zero_subgrid cfg g) y x = 0.
Proof.
  intros Hg Hy Hx. unfold zero_subgrid.
  rewrite (foldl_nested (fun g i j => gwr g i j 0)).
  pose proof (proj2 (elem_of_cells L y x) (conj Hy Hx)) as Hin.
  revert Hin. generalize (y ← seq 0 L; x ← seq 0 L; [(y, x)]). intros cs.
  assert (forall g, grid_shape L g ->
    grd (foldl (fun g p => gwr g p.1 p.2 0) g cs) y x =
    if decide ((y, x) ∈ cs) then 0 else grd g y x) as H.
  { clear g Hg. induction cs as [|[y0 x0] cs IH]; intros g Hg; cbn [foldl fst snd].
    - rewrite decide_False; [done|]. by intros ?%elem_of_nil.
    - rewrite IH by by apply gwr_shape.
      destruct (decide ((y0, x0) = (y, x))) as [[= -> ->]|Hne].
      + rewrite (decide_True (P := (y, x) ∈ (y, x) :: cs)) by apply list_elem_of_here.
        destruct (decide ((y, x) ∈ cs)); [done|]. by apply (grd_gwr_eq L).
      + rewrite grd_gwr_ne by done. destruct (decide ((y, x) ∈ cs)) as [Hc|Hc].
        * rewrite decide_True; [done|]. by apply list_elem_of_further.
        * rewrite decide_False; [done|]. intros [?|?]%elem_of_cons; congruence. }
  intros Hin. rewrite H by done. by rewrite decide_True.
Qed.

Lemma initial_edges_rd me f d j :
  (forall d, length (f d) = (L + 1)%nat) -> (1 <= j <= L)%nat ->
  rd (initial_edges cfg me f d) j =
  if on_border cfg me d then boundary_temp d else 0.
Proof.
  intros Hf Hj. unfold initial_edges, zero_edges, all_dirs, on_border.
  rewrite (len_pred cfg Hcfg). simpl.
  assert (forall v d0 g, (forall d, length (g d) = (L + 1)%nat) ->
            rd (fill_edge cfg v d0 g d) j = if decide (d0 = d) then v else rd (g d) j) as Hr.
  { intros v d0 g Hg. rewrite fill_edge_rd.
    destruct (decide (d0 = d)) as [->|].
    - rewrite decide_True; [done|]. rewrite Hg. split; [done|]. lia.
    - rewrite decide_False; [done|]. tauto. }
  assert (forall v d0 g, (forall d, length (g d) = (L + 1)%nat) ->
            forall d, length (fill_edge cfg v d0 g d) = (L + 1)%nat) as Hl.
  { intros v d0 g Hg d1. by rewrite fill_edge_length. }
  destruct (yPos cfg me =? 0), (xPos cfg me =? 0),
    (yPos cfg me =? len cfg - 1), (xPos cfg me =? len cfg - 1);
    destruct d; unfold boundary_temp;
    repeat (rewrite Hr by (repeat apply Hl; apply Hf); case_decide; try done).
Qed.

Lemma initial_edges_tag me f d :
  rd (initial_edges cfg me f d) 0 = rd (f d) 0.
Proof.
  unfold initial_edges, zero_edges, all_dirs. simpl.
  assert (forall v d0 g, rd (fill_edge cfg v d0 g d) 0 = rd (g d) 0) as Hr.
  { intros v d0 g. rewrite fill_edge_rd. rewrite decide_False; [done|]. lia. }
  repeat case_match; by rewrite ?Hr.
Qed.

(** X8. State before the first step: every cell of the subgrid is 0;
    words [1..L] of [edgeIn[d]] hold the temperature applied at border
    [d] (255.0 at north and west, 40.0 at south and east) when the
    thread lies on that border of the mesh, and 0 otherwise; word 0 of
    the slot is left as it was; no edge is buffered. *)
Theorem initial_state (me : Z) (m : Memory) :
  memory_shape L m ->
  let th := init_thread cfg me m in
  thread_shape L th /\
  (forall y x, (y < L)%nat -> (x < L)%nat -> grd (subgrid th) y x = 0) /\
  (forall d j, (1 <= j <= L)%nat ->
     rd (edgeIn th d) j = if on_border cfg me d then boundary_temp d else 0) /\
  (forall d, rd (edgeIn th d) 0 = rd (tinselSlot m (slot_index 4 d)) 0) /\
  (forall d, edgeInBuffer th d = None) /\
  boundary_temp N = 255 * 65536 /\ boundary_temp W = 255 * 65536 /\
  boundary_temp S = 40 * 65536 /\ boundary_temp E = 40 * 65536.
Proof.
  intros Hm th. split; [by apply init_thread_shape|].
  destruct Hm as (Hg & Hn & Hs). split.
  { intros y x Hy Hx. by apply zero_subgrid_cells. }
  split.
  { intros d j Hj. apply initial_edges_rd; [|done]. intros d'. apply Hs. }
  split; [intros d; apply initial_edges_tag|].
  split; [done|]. by vm_compute.
Qed.

End InitialState.

(** ** Range of the stencil *)

Section StencilBounds.

Variable cfg : Config.
Local Abbreviation L := (Ln cfg).

Lemma surroundings_within lo hi th y x :
  - 2 ^ 29 <= lo -> hi < 2 ^ 29 ->
  inputs_within L lo hi th -> (y < L)%nat -> (x < L)%nat ->
  surroundings cfg th y x =
    (left_of th y x + right_of cfg th y x + above_of th y x + below_of cfg th y x) `div` 4 /\
  lo <= surroundings cfg th y x <= hi.
Proof.
  intros Hlo Hhi [Hg He] Hy Hx.
  assert (lo <= left_of th y x <= hi) as Hl.
  { unfold left_of. destruct (Nat.eqb_spec x 0); [apply He|apply Hg]; lia. }
  assert (lo <= right_of cfg th y x <= hi) as Hr.
  { unfold right_of. destruct (Nat.eqb_spec x (L - 1)); [apply He|apply Hg]; lia. }
  assert (lo <= above_of th y x <= hi) as Ha.
  { unfold above_of. destruct (Nat.eqb_spec y 0); [apply He|apply Hg]; lia. }
  assert (lo <= below_of cfg th y x <= hi) as Hb.
  { unfold below_of. destruct (Nat.eqb_spec y (L - 1)); [apply He|apply Hg]; lia. }
  unfold surroundings, sar, add. cbv zeta.
  set (l := left_of th y x) in *. set (r := right_of cfg th y x) in *.
  set (a := above_of th y x) in *. set (b := below_of cfg th y x) in *.
  rewrite s32_s32_add, <- Z.add_assoc, s32_s32_add, Z.add_assoc.
  rewrite s32_small by (unfold is_s32, half_modulus; lia).
  rewrite Z.shiftr_div_pow2 by done. change (2 ^ 2) with 4.
  replace (a + b + l + r) with (l + r + a + b) by lia.
  split; [done|]. split.
  - apply Z.div_le_lower_bound; lia.
  - enough ((l + r + a + b) `div` 4 < hi + 1) by lia.
    apply Z.div_lt_upper_bound; lia.
Qed.

Lemma update_state_within (lo hi : Z) (th : Thread) :
  thread_shape L th ->
  - 2 ^ 29 <= lo -> hi < 2 ^ 29 ->
  inputs_within L lo hi th ->
  (forall y x, (y < L)%nat -> (x < L)%nat ->
     lo <= grd (newSubgrid (update_state cfg th)) y x <= hi) /\
  (forall d j, (1 <= j <= L)%nat ->
     lo <= rd (edgeOut (update_state cfg th) d) j <= hi).
Proof.
  intros Hsh Hlo Hhi Hin.
  destruct (update_state_spec cfg th Hsh) as (_ & _ & Hg & He & _).
  assert (forall y x, (y < L)%nat -> (x < L)%nat ->
            lo <= grd (newSubgrid (update_state cfg th)) y x <= hi) as Hnew.
  { intros y x Hy Hx. rewrite Hg, newTemp_is_surroundings by done.
    by apply surroundings_within. }
  split; [done|].
  intros d j Hj. replace j with (j - 1 + 1)%nat by lia.
  rewrite He by lia.
  destruct (boundary_cell_range cfg d (j - 1)) as [Hy Hx]; [lia|].
  rewrite <- Hg by done. by apply Hnew.
Qed.

(** X9. The stencil keeps temperatures within the range of what it
    reads: if every cell of the subgrid and every payload word of the
    incoming edges lies between [lo] and [hi] (with [4 * lo] and
    [4 * hi] fitting an [int]), so does every cell of the new subgrid
    and every payload word of the outgoing edges; in particular a
    uniform temperature is a fixed point. *)
Theorem stencil_within_bounds (lo hi : Z) (th : Thread) :
  thread_shape L th ->
  - 2 ^ 29 <= lo -> hi < 2 ^ 29 ->
  inputs_within L lo hi th ->
  let th' := update_state cfg th in
  (forall y x, (y < L)%nat -> (x < L)%nat ->
     lo <= grd (newSubgrid th') y x <= hi) /\
  (forall d j, (1 <= j <= L)%nat -> lo <= rd (edgeOut th' d) j <= hi) /\
  (lo = hi -> forall y x, (y < L)%nat -> (x < L)%nat ->
     grd (newSubgrid th') y x = grd (subgrid th) y x).
Proof.
  intros Hsh Hlo Hhi Hin th'.
  destruct (update_state_within lo hi th Hsh Hlo Hhi Hin) as [Hnew Hout].
  split; [done|]. split; [done|].
  intros -> y x Hy Hx. pose proof (Hnew y x Hy Hx) as H1.
  pose proof (proj1 Hin y x Hy Hx) as H2. subst th'. lia.
Qed.

End StencilBounds.

(** ** One exchange, one step *)

Section ExchangeLoop.

Variable cfg : Config.
Variable me : Z.
Local Abbreviation L := (Ln cfg).

Lemma recv_handler_grids msg th th' :
  recv_handler msg th = Some th' ->
  subgrid th' = subgrid th /\ newSubgrid th' = newSubgrid th /\
  edgesSent th' = edgesSent th.
Proof.
  unfold recv_handler. destruct (Dir_of_Z _); [|done]. simpl.
  case_bool_decide; by intros [= <-].
Qed.

Lemma exchange_iter_inv th0 ev th out th' o :
  exchange_inv cfg me th0 th out ->
  exchange_iter cfg me ev th = Some (th', o) ->
  exchange_inv cfg me th0 th' (out ++ o).
Proof.
  intros (Ht & Hg & Hn & Hs & Ho). unfold exchange_iter.
  pose proof (numNeighbours_bounds cfg me) as Hnn.
  assert (forall th1 o1 th2,
    exchange_inv cfg me th0 th1 (out ++ o1) ->
    match canRecv ev with
    | Some msg => recv_handler msg th1
    | None => Some th1
    end = Some th2 -> exchange_inv cfg me th0 th2 (out ++ o1)) as Hrecv.
  { intros th1 o1 th2 (Ht1 & Hg1 & Hn1 & Hs1 & Ho1) Hr.
    destruct (canRecv ev) as [msg|]; [|by injection Hr as <-].
    destruct (recv_handler_grids _ _ _ Hr) as (Eg & En & Es).
    destruct (recv_handler_edgeOut _ _ _ Hr) as (Et & _).
    unfold exchange_inv. by rewrite Et, Eg, En, Es. }
  destruct (needToSend cfg me th && canSend ev) eqn:Hsend.
  - apply andb_true_iff in Hsend as [Hneed _].
    destruct (send_handler_defined cfg me th (proj1 Hs) Hneed) as (d & Hd & ->).
    cbn [mbind option_bind]. 
    destruct (match canRecv ev with Some msg => _ | None => _ end) as [th2|] eqn:Hr;
      [|done].
    cbn [mbind option_bind]. intros [= <- <-].
    eapply Hrecv; [|exact Hr]. unfold exchange_inv. thread_simpl.
    apply bool_decide_eq_true in Hneed.
    unfold add. rewrite s32_small by (unfold is_s32, half_modulus; lia).
    split; [done|]. split; [done|]. split; [done|]. split; [lia|].
    rewrite fmap_app, Ho.
    replace (Z.to_nat (edgesSent th + 1)) with (Datatypes.S (Z.to_nat (edgesSent th))) by lia.
    rewrite (take_S_r _ _ d) by done. by rewrite fmap_app.
  - cbn [mbind option_bind].
    destruct (match canRecv ev with Some msg => _ | None => _ end) as [th2|] eqn:Hr;
      [|done].
    cbn [mbind option_bind]. intros [= <- <-].
    apply (Hrecv th [] th2); [|done]. rewrite app_nil_r. unfold exchange_inv. auto.
Qed.

Lemma exchange_loop_inv th0 evs : forall th out r out' rest,
  exchange_inv cfg me th0 th out ->
  exchange_loop cfg me evs th out = Some (r, out', rest) ->
  exchange_inv cfg me th0 (loop_state r) out' /\
  (exists used, evs = used ++ rest) /\
  match r with
  | inl th' => exchange_done cfg me th' = true
  | inr th' => exchange_done cfg me th' = false /\ rest = []
  end.
Proof.
  induction evs as [|ev evs IH]; intros th out r out' rest Hinv; simpl.
  - destruct (exchange_done cfg me th) eqn:Hd; intros [= <- <- <-];
      (split; [done|]); (split; [by exists []|done]).
  - destruct (exchange_done cfg me th) eqn:Hd.
    { intros [= <- <- <-]. split; [done|]. split; [by exists []|done]. }
    destruct (wakes cfg me th ev).
    + destruct (exchange_iter cfg me ev th) as [[th' o]|] eqn:Hi; [|done].
      cbn [mbind option_bind]. intros Hl.
      destruct (IH _ _ _ _ _ (exchange_iter_inv _ _ _ _ _ _ Hinv Hi) Hl)
        as (H1 & [used ->] & H3).
      split; [done|]. split; [by exists (ev :: used)|done].
    + intros Hl. destruct (IH _ _ _ _ _ Hinv Hl) as (H1 & [used ->] & H3).
      split; [done|]. split; [by exists (ev :: used)|done].
Qed.

Lemma begin_step_inv th :
  exchange_inv cfg me (update_state cfg th) (begin_step cfg th) [].
Proof.
  unfold begin_step.
  destruct (recognise_buffered_spec
              (set_edgesReceived 0 (set_edgesSent 0 (update_state cfg th))) eq_refl)
    as (_ & _ & _ & _ & Ht & Hg & Hn & _ & Hs).
  pose proof (numNeighbours_bounds cfg me).
  unfold exchange_inv. rewrite Ht, Hg, Hn, Hs. thread_simpl.
  by repeat split; try lia.
Qed.

(** X10. Sends of one exchange: whatever the transport offers, the
    packets sent so far go to the first [edgesSent] neighbours of
    [neighbourList], in that order, one each, never to the [-1] entry
    and never more than [numNeighbours]; when the loop breaks, exactly
    one packet has gone to each neighbour and at least [numNeighbours]
    edges of this step have been counted as received; when the offers
    run out first, something is still missing. *)
Theorem exchange_sends_each_neighbour_once (th : Thread) (evs : list Event)
    r out rest :
  run_step cfg me evs th = Some (r, out, rest) ->
  let sent := edgesSent (loop_state r) in
  0 <= sent <= numNeighbours cfg me /\
  out.*1 = neighbour cfg me <$> take (Z.to_nat sent) (neighbourList cfg me) /\
  Forall (fun p : Packet => 0 <= p.1) out /\
  (forall th', r = inl th' ->
     sent = numNeighbours cfg me /\
     out.*1 = neighbour cfg me <$> neighbourList cfg me /\
     numNeighbours cfg me <= edgesReceived th') /\
  (forall th', r = inr th' ->
     rest = [] /\
     (sent < numNeighbours cfg me \/ edgesReceived th' < numNeighbours cfg me)).
Proof.
  intros Hrun sent. unfold run_step in Hrun.
  destruct (exchange_loop_inv _ _ _ _ _ _ _ (begin_step_inv th) Hrun)
    as ((_ & _ & _ & Hs & Ho) & _ & Hr).
  fold sent in Hs, Ho. split; [done|]. split; [done|]. split.
  { apply list.Forall_forall. intros p Hp.
    assert (p.1 ∈ out.*1) as Hin by (by apply list_elem_of_fmap_2).
    rewrite Ho in Hin. apply list_elem_of_fmap in Hin as (d & -> & Hd).
    apply elem_of_take in Hd as (i & Hd & _).
    apply list_elem_of_lookup_2 in Hd.
    unfold neighbourList in Hd. by apply list_elem_of_filter in Hd as [? _]. }
  split.
  - intros th' ->. simpl in Hr, sent.
    apply andb_true_iff in Hr as [Hns Hnr].
    apply negb_true_iff, bool_decide_eq_false in Hns, Hnr.
    assert (sent = numNeighbours cfg me) as E by (subst sent; lia).
    split; [done|]. split; [|lia].
    rewrite Ho, E. unfold numNeighbours. by rewrite Nat2Z.id, firstn_all.
  - intros th' ->. simpl in Hr, sent. destruct Hr as [Hd ->]. split; [done|].
    apply andb_false_iff in Hd as [Hd|Hd];
      apply negb_false_iff, bool_decide_eq_true in Hd; [by left|by right].
Qed.


End ExchangeLoop.

(** ** The mesh: what is in flight *)

Section MeshSafety.

Variable cfg : Config.
Variable mem : Z -> Memory.
Hypothesis Hcfg : valid_config cfg.
Hypothesis Hmem : forall me, memory_shape (Ln cfg) (mem me).
Local Abbreviation L := (Ln cfg).

Lemma channel_ends w src dst :
  world_inv cfg mem w -> chan w (src, dst) <> [] ->
  valid_id cfg src /\ valid_id cfg dst /\ src <> dst /\
  exists d, neighbour cfg src d = dst /\ neighbour cfg dst (opposite d) = src.
Proof.
  intros [_ Hs] Hne. destruct (Hs src dst Hne) as (Hsrc & Hdst & d & Hd).
  assert (0 <= neighbour cfg src d) as Hd0 by lia.
  destruct (neighbour_back cfg Hcfg src d Hsrc Hd0) as [Hv Hback].
  rewrite Hd in Hv, Hback. split; [done|]. split; [done|]. split.
  - rewrite <- Hd. intros E. by apply (neighbour_not_self cfg Hcfg src d).
  - by exists d.
Qed.

(** Every iteration the transport can trigger is defined, moves the
    world to one that satisfies the invariant. *)
Lemma iter_defined w me ev :
  world_inv cfg mem w -> valid_id cfg me -> ctl (node w me) = Exchanging ->
  offered w me ev ->
  exists th' out c',
    exchange_iter cfg me ev (thread (node w me)) = Some (th', out) /\
    delivered me (canRecv ev) (transmit me out (chan w)) c' /\
    world_inv cfg mem (mkWorld (<[me := mkNode Exchanging th' []]> (node w)) c').
Proof.
  intros Hw Hme Hctl Hoff. unfold exchange_iter, offered in *.
  assert (exists th1 o w1,
    (if needToSend cfg me (thread (node w me)) && canSend ev
     then '(th1, p) ← send_handler cfg me (thread (node w me)); Some (th1, [p])
     else Some (thread (node w me), [])) = Some (th1, o) /\
    world_inv cfg mem w1 /\ node w1 = <[me := mkNode Exchanging th1 []]> (node w) /\
    chan w1 = transmit me o (chan w) /\
    (forall src, src <> me -> chan w1 (src, me) = chan w (src, me)))
    as (th1 & o & w1 & Hs & Hw1 & Hn1 & Hc1 & Hsame).
  { destruct (needToSend cfg me (thread (node w me)) && canSend ev) eqn:Hs.
    - apply andb_true_iff in Hs as [Hneed _].
      destruct (world_send cfg mem Hcfg w me Hw Hme Hctl Hneed) as (th1 & p & Hsend & Hw1).
      rewrite Hsend. simpl. eexists _, _, _. split; [done|].
      split; [exact Hw1|]. split; [done|]. split; [done|].
      intros src Hsrc. simpl. rewrite fn_lookup_insert_ne; [done|]. congruence.
    - exists (thread (node w me)), [],
        (mkWorld (<[me := mkNode Exchanging (thread (node w me)) []]> (node w)) (chan w)).
      split; [done|]. split; [by apply world_idle|]. done. }
  rewrite Hs. cbn [mbind option_bind].
  destruct (canRecv ev) as [msg|].
  - destruct Hoff as (src & rest & Hch).
    destruct (channel_ends w src me Hw) as (_ & _ & Hsm & _); [by rewrite Hch|].
    destruct (world_recv cfg mem Hcfg Hmem w1 me src msg rest Hw1 Hme)
      as (th2 & d & Hr & _ & _ & _ & Hw2).
    { by rewrite Hn1, fn_lookup_insert. }
    { by rewrite Hsame. }
    rewrite Hn1, fn_lookup_insert in Hr. simpl in Hr. rewrite Hr.
    cbn [mbind option_bind].
    exists th2, o, (<[(src, me) := rest]> (chan w1)).
    split; [done|]. split.
    + exists src, rest. rewrite <- Hc1. split; [by rewrite Hsame|done].
    + eapply world_inv_ext; [| |exact Hw2]; [|done].
      intros a. simpl. rewrite Hn1. unfold insert, fn_insert. by case_decide.
  - cbn [mbind option_bind]. exists th1, o, (chan w1).
    split; [done|]. split; [by rewrite Hc1|].
    eapply world_inv_ext; [| |exact Hw1]; [|done].
    intros a. simpl. by rewrite Hn1.
Qed.

(** X12. No out-of-bounds access in the mesh: in every reachable
    world, for a thread in its exchange loop and any wake-up whose
    message, if any, is at the head of a channel into the thread, the
    iteration is defined: [neighbourList[edgesSent]] is read inside the
    list, the direction field of the message indexes the four-element
    arrays and names a direction with a neighbour; at most one packet is
    sent, to a thread of the mesh. *)
Theorem handlers_stay_in_bounds (w : World) (me : Z) (ev : Event) :
  reachable cfg mem w -> valid_id cfg me -> ctl (node w me) = Exchanging ->
  offered w me ev ->
  exists th' out,
    exchange_iter cfg me ev (thread (node w me)) = Some (th', out) /\
    (length out <= 1)%nat /\
    (forall msg, canRecv ev = Some msg ->
       exists d, Dir_of_Z (tag_dir (rd msg 0)) = Some d /\ 0 <= neighbour cfg me d) /\
    (forall p, p ∈ out -> valid_id cfg p.1).
Proof.
  intros Hw%(reachable_inv cfg mem Hcfg Hmem) Hme Hctl Hoff.
  destruct (iter_defined w me ev Hw Hme Hctl Hoff) as (th' & out & c' & Hit & _ & Hw').
  exists th', out. split; [done|].
  unfold exchange_iter in Hit. unfold offered in Hoff.
  destruct (needToSend cfg me (thread (node w me)) && canSend ev) eqn:Hs.
  - apply andb_true_iff in Hs as [Hneed _].
    destruct (local_send cfg mem me _ _ _ (proj1 Hw me Hme) Hctl Hneed)
      as (d & th1 & Hd & _ & Hsend & _).
    rewrite Hsend in Hit. cbn [mbind option_bind] in Hit.
    destruct (neighbour_back cfg Hcfg me d Hme Hd) as [Hv _].
    assert (out = [(neighbour cfg me d,
                    sent_msg cfg mem (Z.to_nat (t (thread (node w me)))) me d)]) as ->.
    { destruct (canRecv ev); [destruct (recv_handler _ _)|]; simpl in Hit; congruence. }
    split; [done|]. split.
    + intros msg Hmsg. rewrite Hmsg in Hoff. destruct Hoff as (src & rest & Hch).
      destruct (world_recv cfg mem Hcfg Hmem w me src msg rest Hw Hme Hctl Hch)
        as (_ & d' & _ & Hd' & Hsrc & _).
      exists d'. split; [done|]. rewrite Hsrc.
      destruct (channel_ends w src me Hw) as ([? _] & _); [by rewrite Hch|done].
    + intros p ->%list_elem_of_singleton. done.
  - cbn [mbind option_bind] in Hit.
    assert (out = []) as ->.
    { destruct (canRecv ev); [destruct (recv_handler _ _)|]; simpl in Hit; congruence. }
    split; [simpl; lia|]. split.
    + intros msg Hmsg. rewrite Hmsg in Hoff. destruct Hoff as (src & rest & Hch).
      destruct (world_recv cfg mem Hcfg Hmem w me src msg rest Hw Hme Hctl Hch)
        as (_ & d' & _ & Hd' & Hsrc & _).
      exists d'. split; [done|]. rewrite Hsrc.
      destruct (channel_ends w src me Hw) as ([? _] & _); [by rewrite Hch|done].
    + by intros p ?%elem_of_nil.
Qed.

Lemma incoming_total_max w me d :
  world_inv cfg mem w -> valid_id cfg me -> 0 <= neighbour cfg me d ->
  incoming_total cfg w me d <= nsteps.
Proof.
  intros Hw Hme Hd. destruct (neighbour_back cfg Hcfg me d Hme Hd) as [Hv _].
  pose proof (proj1 Hw _ Hv) as Hinv.
  pose proof (inv_ctl _ _ _ _ _ _ Hinv) as Hc.
  unfold incoming_total, sent_total.
  destruct (ctl (node w (neighbour cfg me d))); [|lia].
  destruct (sent_flag _ _ _ _); simpl; lia.
Qed.

(** X13. What is in flight: in every reachable world a non-empty
    channel joins two distinct threads of the mesh that are neighbours
    of each other; every message in it has [L + 1] words and carries in
    its tag the direction in which the receiver sees the sender; the
    receiver is still in its loop with an empty [edgeInBuffer] slot for
    that direction; and the channel holds at most two messages ("at
    most two edges from the same neighbour can await processing at any
    time"). *)
Theorem channel_discipline (w : World) (src dst : Z) :
  reachable cfg mem w ->
  chan w (src, dst) <> [] ->
  valid_id cfg src /\ valid_id cfg dst /\ src <> dst /\
  (exists d, neighbour cfg dst d = src /\ neighbour cfg src (opposite d) = dst /\
     Forall (fun m => length m = (L + 1)%nat /\
                      Dir_of_Z (tag_dir (rd m 0)) = Some d) (chan w (src, dst)) /\
     (ctl (node w dst) = Exchanging /\
      edgeInBuffer (thread (node w dst)) d = None)) /\
  (length (chan w (src, dst)) <= 2)%nat.
Proof.
  intros Hw%(reachable_inv cfg mem Hcfg Hmem) Hne.
  destruct (channel_ends w src dst Hw Hne) as (Hsrc & Hdst & Hsd & d0 & Hd0 & Hback).
  split; [done|]. split; [done|]. split; [done|].
  set (d := opposite d0) in *.
  assert (0 <= neighbour cfg dst d) as Hd by (rewrite Hback; destruct Hsrc; lia).
  pose proof (proj1 Hw dst Hdst) as Hinv.
  pose proof (inv_received _ _ _ _ _ _ Hinv d Hd) as Hrec.
  pose proof (inv_ctl _ _ _ _ _ _ Hinv) as Hc.
  pose proof (inv_state _ _ _ _ _ _ Hinv) as Hst.
  destruct (bounded_skew cfg mem Hcfg w dst d Hw Hdst Hd) as (_ & _ & Htot).
  pose proof (incoming_total_max w dst d Hw Hdst Hd) as Hmax.
  unfold received, incoming in Hrec. rewrite Hback in Hrec.
  assert (chan w (src, dst) <> [] -> (0 < length (chan w (src, dst)))%nat) as Hpos.
  { destruct (chan w (src, dst)); [done|simpl; lia]. }
  specialize (Hpos Hne).
  split; [|lia].
  exists d. split; [done|]. split; [subst d; by rewrite opposite_involutive|].
  split.
  - apply Forall_lookup. intros i m Hi.
    pose proof (inv_channel _ _ _ _ _ _ Hinv d i m Hd) as Hm.
    unfold incoming in Hm. rewrite Hback in Hm. rewrite (Hm Hi).
    split; [by apply sent_msg_length|].
    match goal with |- context [sent_msg cfg mem ?k ?a ?e] =>
      destruct (sent_msg_fields cfg mem Hmem k a e) as [-> _] end.
    by rewrite opposite_involutive.
  - destruct (ctl (node w dst)); [|lia]. split; [done|].
    destruct Hst as (_ & _ & _ & _ & Hb & _). rewrite Hb.
    unfold early. rewrite bool_decide_eq_false_2; [done|].
    unfold received, incoming. rewrite Hback. lia.
Qed.

End MeshSafety.

(** ** The lock-step run: edges *)

Section LockstepEdges.

Variable cfg : Config.
Variable mem : Z -> Memory.
Hypothesis Hcfg : valid_config cfg.
Hypothesis Hmem : forall me, memory_shape (Ln cfg) (mem me).
Local Abbreviation L := (Ln cfg).

Lemma boundary_temp_val d :
  boundary_temp d = 255 * 65536 \/ boundary_temp d = 40 * 65536.
Proof. destruct d; vm_compute; auto. Qed.

(** Payload of the edge thread [me] would send towards [d] after the
    stencil of step [k]: the cells of its next subgrid along side [d]. *)
Lemma sent_msg_payload k me d j :
  Z.of_nat k < nsteps -> (1 <= j <= L)%nat ->
  rd (sent_msg cfg mem k me d) j =
  grd (subgrid (lockstep cfg mem (k + 1) me))
      (boundary_cell L d (j - 1)).1 (boundary_cell L d (j - 1)).2.
Proof.
  intros Hk Hj. unfold sent_msg, tagged. rewrite rd_insert_ne by lia.
  destruct (lockstep_succ cfg mem k me Hk) as (_ & -> & _).
  unfold stencilled.
  destruct (update_state_spec cfg _ (lockstep_shape cfg mem Hmem k me))
    as (_ & _ & Hg & He & _).
  replace j with (j - 1 + 1)%nat at 1 by lia. rewrite He by lia.
  destruct (boundary_cell_range cfg d (j - 1)) as [Hy Hx]; [lia|].
  by rewrite Hg.
Qed.

(** What the stencil of step [k] finds in [edgeIn[d]]: the neighbour's
    cells along the shared side, or the fixed temperature of the border. *)
Lemma lockstep_edges k : forall me d j,
  Z.of_nat k <= nsteps -> valid_id cfg me -> (1 <= j <= L)%nat ->
  rd (edgeIn (lockstep cfg mem k me) d) j =
  if bool_decide (0 <= neighbour cfg me d)
  then grd (subgrid (lockstep cfg mem k (neighbour cfg me d)))
           (boundary_cell L (opposite d) (j - 1)).1
           (boundary_cell L (opposite d) (j - 1)).2
  else boundary_temp d.
Proof.
  induction k as [|k IH]; intros me d j Hk Hme Hj.
  - cbn [lockstep init_thread edgeIn subgrid].
    rewrite (initial_edges_rd cfg Hcfg) by (done || intros d'; apply Hmem).
    pose proof (on_border_neighbour cfg Hcfg me d Hme) as Hb.
    case_bool_decide as Hd.
    + rewrite (proj1 Hb Hd).
      destruct (boundary_cell_range cfg (opposite d) (j - 1)) as [Hy Hx]; [lia|].
      rewrite zero_subgrid_cells; [done|apply Hmem|done..].
    + destruct (on_border cfg me d); [done|]. exfalso. by apply Hd, Hb.
  - replace (Datatypes.S k) with (k + 1)%nat by lia.
    destruct (lockstep_succ cfg mem k me ltac:(lia)) as (_ & _ & _ & _ & Hi).
    rewrite Hi. case_bool_decide as Hd.
    + apply sent_msg_payload; [lia|done].
    + destruct (stencilled_frame cfg mem k me ltac:(lia)) as (_ & _ & ->).
      rewrite IH by (done || lia). by rewrite bool_decide_eq_false_2.
Qed.

End LockstepEdges.

(** ** The global grid *)

Section GlobalGrid.

Variable cfg : Config.
Variable mem : Z -> Memory.
Hypothesis Hcfg : valid_config cfg.
Hypothesis Hmem : forall me, memory_shape (Ln cfg) (mem me).
Local Abbreviation Ln := (Ln cfg).
Local Abbreviation Lz := (L cfg).
Local Abbreviation n := (len cfg).

Lemma hottest_val : hottest = 255 * 65536.
Proof. by vm_compute. Qed.

Lemma lockstep_cells_within k : forall me y x,
  Z.of_nat k <= nsteps -> valid_id cfg me -> (y < Ln)%nat -> (x < Ln)%nat ->
  0 <= grd (subgrid (lockstep cfg mem k me)) y x <= hottest.
Proof.
  rewrite hottest_val.
  induction k as [|k IH]; intros me y x Hk Hme Hy Hx.
  - cbn [lockstep init_thread subgrid].
    rewrite zero_subgrid_cells; [lia|apply Hmem|done..].
  - replace (Datatypes.S k) with (k + 1)%nat by lia.
    destruct (lockstep_succ cfg mem k me ltac:(lia)) as (_ & -> & _).
    apply (update_state_within cfg 0 (255 * 65536)); try done; try lia.
    { apply lockstep_shape; done. }
    split.
    + intros y' x' Hy' Hx'. apply IH; [lia|done..].
    + intros d j Hj. rewrite (lockstep_edges cfg mem Hcfg Hmem) by (done || lia).
      case_bool_decide as Hd.
      * destruct (neighbour_back cfg Hcfg me d Hme Hd) as [Hv _].
        destruct (boundary_cell_range cfg (opposite d) (j - 1)) as [? ?]; [lia|].
        apply IH; [lia|done..].
      * destruct (boundary_temp_val d) as [-> | ->]; lia.
Qed.

Lemma lockstep_within k me :
  Z.of_nat k <= nsteps -> valid_id cfg me ->
  inputs_within Ln 0 hottest (lockstep cfg mem k me).
Proof.
  intros Hk Hme. split.
  - intros y x Hy Hx. by apply lockstep_cells_within.
  - intros d j Hj. rewrite (lockstep_edges cfg mem Hcfg Hmem) by (done || lia).
    case_bool_decide as Hd.
    + destruct (neighbour_back cfg Hcfg me d Hme Hd) as [Hv _].
      destruct (boundary_cell_range cfg (opposite d) (j - 1)) as [? ?]; [lia|].
      by apply lockstep_cells_within.
    + rewrite hottest_val. destruct (boundary_temp_val d) as [-> | ->]; lia.
Qed.

(** *** Index arithmetic of the blocks *)

Lemma Lz_pos : 1 <= Lz.
Proof. by destruct (L_val cfg Hcfg) as [_ [? _]]. Qed.

Lemma block_pred c :
  0 <= c ->
  if decide (c `mod` Lz = 0)
  then c = 0 \/ (1 <= c `div` Lz /\ (c - 1) `div` Lz = c `div` Lz - 1 /\
                 (c - 1) `mod` Lz = Lz - 1)
  else (c - 1) `div` Lz = c `div` Lz /\ (c - 1) `mod` Lz = c `mod` Lz - 1.
Proof.
  intros Hc. pose proof Lz_pos as HL.
  pose proof (Z.div_mod c Lz ltac:(lia)) as E.
  pose proof (Z.mod_pos_bound c Lz ltac:(lia)) as B.
  assert (0 <= c `div` Lz) as Hq by (apply Z.div_pos; lia).
  case_decide as Hm.
  - destruct (decide (c = 0)) as [|Hc0]; [by left|]. right.
    assert (1 <= c `div` Lz) by nia. split; [done|].
    assert (c - 1 = Lz * (c `div` Lz - 1) + (Lz - 1)) as E' by lia.
    split.
    + symmetry. apply (Z.div_unique_pos _ _ _ (Lz - 1)); lia.
    + symmetry. apply (Z.mod_unique_pos _ _ (c `div` Lz - 1)); lia.
  - assert (c - 1 = Lz * (c `div` Lz) + (c `mod` Lz - 1)) as E' by lia.
    split.
    + symmetry. apply (Z.div_unique_pos _ _ _ (c `mod` Lz - 1)); lia.
    + symmetry. apply (Z.mod_unique_pos _ _ (c `div` Lz)); lia.
Qed.

Lemma block_succ c :
  0 <= c ->
  if decide (c `mod` Lz = Lz - 1)
  then (c + 1) `div` Lz = c `div` Lz + 1 /\ (c + 1) `mod` Lz = 0
  else (c + 1) `div` Lz = c `div` Lz /\ (c + 1) `mod` Lz = c `mod` Lz + 1.
Proof.
  intros Hc. pose proof Lz_pos as HL.
  pose proof (Z.div_mod c Lz ltac:(lia)) as E.
  pose proof (Z.mod_pos_bound c Lz ltac:(lia)) as B.
  case_decide as Hm.
  - assert (c + 1 = Lz * (c `div` Lz + 1) + 0) as E' by lia.
    split.
    + symmetry. apply (Z.div_unique_pos _ _ _ 0); lia.
    + symmetry. apply (Z.mod_unique_pos _ _ (c `div` Lz + 1)); lia.
  - assert (c + 1 = Lz * (c `div` Lz) + (c `mod` Lz + 1)) as E' by lia.
    split.
    + symmetry. apply (Z.div_unique_pos _ _ _ (c `mod` Lz + 1)); lia.
    + symmetry. apply (Z.mod_unique_pos _ _ (c `div` Lz)); lia.
Qed.

Lemma block_index c :
  0 <= c < n * Lz ->
  0 <= c `div` Lz < n /\ 0 <= c `mod` Lz < Lz /\
  (Z.to_nat (c `mod` Lz) < Ln)%nat.
Proof.
  intros Hc. pose proof Lz_pos as HL.
  pose proof (Z.mod_pos_bound c Lz ltac:(lia)) as B.
  pose proof (Ln_val cfg Hcfg) as En.
  split; [|split; [done|lia]].
  split; [apply Z.div_pos; lia|].
  apply Z.div_lt_upper_bound; lia.
Qed.

Lemma owner_valid r c :
  0 <= r < n * Lz -> 0 <= c < n * Lz ->
  valid_id cfg (owner cfg r c) /\
  yPos cfg (owner cfg r c) = r `div` Lz /\ xPos cfg (owner cfg r c) = c `div` Lz.
Proof.
  intros Hr Hc. destruct (block_index r Hr) as (Hy & _).
  destruct (block_index c Hc) as (Hx & _). unfold owner.
  split; [by apply valid_coords|].
  split; [by apply yPos_coords|by apply xPos_coords].
Qed.

Lemma global_temp_inside k r c :
  0 <= r < n * Lz -> 0 <= c < n * Lz ->
  global_temp cfg mem k r c =
  grd (subgrid (lockstep cfg mem k (owner cfg r c)))
      (Z.to_nat (r `mod` Lz)) (Z.to_nat (c `mod` Lz)).
Proof.
  intros Hr Hc. unfold global_temp.
  destruct (Z.ltb_spec r 0); [lia|]. destruct (Z.leb_spec (n * Lz) r); [lia|].
  destruct (Z.ltb_spec c 0); [lia|]. destruct (Z.leb_spec (n * Lz) c); [lia|]. done.
Qed.

(** *** The four values the stencil reads, in global coordinates *)

Section Sides.

Variable k : nat.
Variable r : Z.
Variable c : Z.
Hypothesis Hk : Z.of_nat k <= nsteps.
Hypothesis Hr : 0 <= r < n * Lz.
Hypothesis Hc : 0 <= c < n * Lz.

Local Abbreviation me := (owner cfg r c).
Local Abbreviation th := (lockstep cfg mem k (owner cfg r c)).
Local Abbreviation y := (Z.to_nat (r `mod` Lz)).
Local Abbreviation x := (Z.to_nat (c `mod` Lz)).

Lemma left_of_global : left_of th y x = global_temp cfg mem k r (c - 1).
Proof.
  destruct (owner_valid r c Hr Hc) as (Hv & Ey & Ex).
  destruct (block_index r Hr) as (Hyq & Hym & Hy).
  destruct (block_index c Hc) as (Hxq & Hxm & Hx).
  pose proof (Ln_val cfg Hcfg) as En. pose proof Lz_pos as HL.
  pose proof (block_pred c ltac:(lia)) as Hp.
  unfold left_of. destruct (Nat.eqb_spec x 0) as [E0|E0].
  - rewrite decide_True in Hp by lia.
    rewrite (lockstep_edges cfg mem Hcfg Hmem) by (done || lia).
    rewrite (neighbour_coords cfg Hcfg) by done. rewrite Ex.
    destruct Hp as [->|(Hq & Ed & Em)].
    + rewrite Z.div_0_l by lia. simpl.
      unfold global_temp. destruct (Z.ltb_spec r 0); [lia|].
      destruct (Z.leb_spec (n * Lz) r); [lia|]. done.
    + destruct (Z.eqb_spec (c `div` Lz) 0) as [?|_]; [lia|].
      rewrite bool_decide_eq_true_2 by nia.
      pose proof (Z.div_mod c Lz ltac:(lia)) as Dc.
      rewrite Ey, global_temp_inside by nia. unfold owner. rewrite Ed, Em.
      cbn [opposite boundary_cell fst snd].
      f_equal; [f_equal; lia|lia].
  - rewrite decide_False in Hp by lia. destruct Hp as [Ed Em].
    pose proof (Z.div_mod c Lz ltac:(lia)) as Dc.
    rewrite global_temp_inside by nia. unfold owner. rewrite Ed, Em.
    f_equal. lia.
Qed.

Lemma right_of_global : right_of cfg th y x = global_temp cfg mem k r (c + 1).
Proof.
  destruct (owner_valid r c Hr Hc) as (Hv & Ey & Ex).
  destruct (block_index r Hr) as (Hyq & Hym & Hy).
  destruct (block_index c Hc) as (Hxq & Hxm & Hx).
  pose proof (Ln_val cfg Hcfg) as En. pose proof Lz_pos as HL.
  pose proof (block_succ c ltac:(lia)) as Hp.
  pose proof (Z.div_mod c Lz ltac:(lia)) as Dc.
  unfold right_of. destruct (Nat.eqb_spec x (Ln - 1)) as [E0|E0].
  - rewrite decide_True in Hp by lia. destruct Hp as [Ed Em].
    rewrite (lockstep_edges cfg mem Hcfg Hmem) by (done || lia).
    rewrite (neighbour_coords cfg Hcfg) by done. rewrite Ex, Ey.
    destruct (Z.eqb_spec (c `div` Lz) (n - 1)) as [Eq|Eq].
    + simpl. unfold global_temp. destruct (Z.ltb_spec r 0); [lia|].
      destruct (Z.leb_spec (n * Lz) r); [lia|].
      destruct (Z.ltb_spec (c + 1) 0); [lia|].
      destruct (Z.leb_spec (n * Lz) (c + 1)); [done|nia].
    + rewrite bool_decide_eq_true_2 by nia.
      rewrite global_temp_inside by nia. unfold owner. rewrite Ed, Em.
      cbn [opposite boundary_cell fst snd].
      f_equal. lia.
  - rewrite decide_False in Hp by lia. destruct Hp as [Ed Em].
    rewrite global_temp_inside by nia. unfold owner. rewrite Ed, Em.
    f_equal. lia.
Qed.

Lemma above_of_global : above_of th y x = global_temp cfg mem k (r - 1) c.
Proof.
  destruct (owner_valid r c Hr Hc) as (Hv & Ey & Ex).
  destruct (block_index r Hr) as (Hyq & Hym & Hy).
  destruct (block_index c Hc) as (Hxq & Hxm & Hx).
  pose proof (Ln_val cfg Hcfg) as En. pose proof Lz_pos as HL.
  pose proof (block_pred r ltac:(lia)) as Hp.
  pose proof (Z.div_mod r Lz ltac:(lia)) as Dr.
  unfold above_of. destruct (Nat.eqb_spec y 0) as [E0|E0].
  - rewrite decide_True in Hp by lia.
    rewrite (lockstep_edges cfg mem Hcfg Hmem) by (done || lia).
    rewrite (neighbour_coords cfg Hcfg) by done. rewrite Ex, Ey.
    destruct Hp as [->|(Hq & Ed & Em)].
    + rewrite Z.div_0_l by lia. simpl. done.
    + destruct (Z.eqb_spec (r `div` Lz) 0) as [?|_]; [lia|].
      rewrite bool_decide_eq_true_2 by nia.
      rewrite global_temp_inside by nia. unfold owner. rewrite Ed, Em.
      cbn [opposite boundary_cell fst snd].
      f_equal; [|lia]. f_equal. lia.
  - rewrite decide_False in Hp by lia. destruct Hp as [Ed Em].
    rewrite global_temp_inside by nia. unfold owner. rewrite Ed, Em.
    f_equal. lia.
Qed.

Lemma below_of_global : below_of cfg th y x = global_temp cfg mem k (r + 1) c.
Proof.
  destruct (owner_valid r c Hr Hc) as (Hv & Ey & Ex).
  destruct (block_index r Hr) as (Hyq & Hym & Hy).
  destruct (block_index c Hc) as (Hxq & Hxm & Hx).
  pose proof (Ln_val cfg Hcfg) as En. pose proof Lz_pos as HL.
  pose proof (block_succ r ltac:(lia)) as Hp.
  pose proof (Z.div_mod r Lz ltac:(lia)) as Dr.
  unfold below_of. destruct (Nat.eqb_spec y (Ln - 1)) as [E0|E0].
  - rewrite decide_True in Hp by lia. destruct Hp as [Ed Em].
    rewrite (lockstep_edges cfg mem Hcfg Hmem) by (done || lia).
    rewrite (neighbour_coords cfg Hcfg) by done. rewrite Ex, Ey.
    destruct (Z.eqb_spec (r `div` Lz) (n - 1)) as [Eq|Eq].
    + simpl. unfold global_temp. destruct (Z.ltb_spec (r + 1) 0); [lia|].
      destruct (Z.leb_spec (n * Lz) (r + 1)); [done|nia].
    + rewrite bool_decide_eq_true_2 by nia.
      rewrite global_temp_inside by nia. unfold owner. rewrite Ed, Em.
      cbn [opposite boundary_cell fst snd].
      f_equal. lia.
  - rewrite decide_False in Hp by lia. destruct Hp as [Ed Em].
    rewrite global_temp_inside by nia. unfold owner. rewrite Ed, Em.
    f_equal. lia.
Qed.

End Sides.

(** X14. The mesh computes the stencil of the whole grid: with
    [global_temp k r c] the value cell [(r, c)] of the [len * L] by
    [len * L] grid has at the top of step [k], and the border
    temperature outside the grid, every cell starts at 0, and at each
    step becomes the floor of the mean of its four neighbours in the
    global grid, across thread boundaries, with no wrap-around; all
    values stay between 0 and 255.0. *)
Theorem global_grid_recurrence (k : nat) (r c : Z) :
  Z.of_nat k < nsteps ->
  0 <= r < n * Lz -> 0 <= c < n * Lz ->
  global_temp cfg mem 0 r c = 0 /\
  global_temp cfg mem (k + 1) r c =
    (global_temp cfg mem k (r - 1) c + global_temp cfg mem k (r + 1) c +
     global_temp cfg mem k r (c - 1) + global_temp cfg mem k r (c + 1)) `div` 4 /\
  0 <= global_temp cfg mem k r c <= 255 * 65536.
Proof.
  intros Hk Hr Hc.
  destruct (owner_valid r c Hr Hc) as (Hv & _).
  destruct (block_index r Hr) as (_ & _ & Hy).
  destruct (block_index c Hc) as (_ & _ & Hx).
  rewrite (global_temp_inside 0 r c), (global_temp_inside (k + 1) r c),
    (global_temp_inside k r c) by done.
  split; [|split].
  - cbn [lockstep init_thread subgrid].
    rewrite zero_subgrid_cells; [done|apply Hmem|done..].
  - destruct (lockstep_succ cfg mem k (owner cfg r c) Hk) as (_ & -> & _).
    unfold stencilled.
    destruct (update_state_spec cfg _ (lockstep_shape cfg mem Hmem k (owner cfg r c)))
      as (_ & _ & Hg & _).
    rewrite Hg, newTemp_is_surroundings by done.
    destruct (surroundings_within cfg 0 hottest (lockstep cfg mem k (owner cfg r c))
                (Z.to_nat (r `mod` Lz)) (Z.to_nat (c `mod` Lz))) as [-> _];
      [lia|rewrite hottest_val; lia|apply lockstep_within; [lia|done]|done..|].
    rewrite left_of_global, right_of_global, above_of_global, below_of_global by (done || lia).
    f_equal. lia.
  - rewrite <- hottest_val. apply lockstep_cells_within; [lia|done..].
Qed.

End GlobalGrid.

(** ** The mesh: values *)

Section MeshValues.

Variable cfg : Config.
Variable mem : Z -> Memory.
Hypothesis Hcfg : valid_config cfg.
Hypothesis Hmem : forall me, memory_shape (Ln cfg) (mem me).
Local Abbreviation Ln := (Ln cfg).
Local Abbreviation Lz := (L cfg).
Local Abbreviation n := (len cfg).

(** The incoming edges of a thread of a reachable world, in terms of
    the lock-step run. *)
Lemma thread_edges w me d :
  world_inv cfg mem w -> valid_id cfg me ->
  let th := thread (node w me) in
  let k := Z.to_nat (t th) in
  Z.of_nat k <= nsteps /\
  subgrid th = subgrid (lockstep cfg mem k me) /\
  (edgeIn th d = edgeIn (lockstep cfg mem k me) d \/
   0 <= neighbour cfg me d /\ Z.of_nat k < nsteps /\
   edgeIn th d = sent_msg cfg mem k (neighbour cfg me d) (opposite d)).
Proof.
  intros [Hn _] Hme th k. pose proof (Hn me Hme) as Hinv.
  pose proof (inv_time _ _ _ _ _ _ Hinv) as Ht.
  pose proof (inv_ctl _ _ _ _ _ _ Hinv) as Hc.
  pose proof (inv_state _ _ _ _ _ _ Hinv) as Hst.
  fold th in Ht, Hc, Hst. split; [lia|].
  destruct (ctl (node w me)).
  - destruct Hst as (Hg & _ & _ & Hi & _). fold k in Hg, Hi.
    destruct (stencilled_frame cfg mem k me ltac:(lia)) as (_ & Sg & Si).
    split; [by rewrite Hg, Sg|]. rewrite Hi.
    destruct (got _ _ _ _ _ _) eqn:Hgot.
    + right. apply bool_decide_eq_true in Hgot as [Hd _].
      split; [done|]. split; [lia|done].
    + left. by rewrite Si.
  - destruct Hst as [(_ & Cg & _ & _ & Ci) _].
    assert (k = Z.to_nat nsteps) as -> by (subst k; f_equal; exact Hc).
    split; [exact Cg|]. left. apply Ci.
Qed.

(** X15. The borders keep their temperature: in every reachable
    world, for a thread on the border of the mesh in direction [d],
    words [1..L] of [edgeIn[d]] still hold the temperature applied at
    that border before the first step, 255.0 or 40.0. *)
Theorem boundary_held_constant (w : World) (me : Z) (d : Dir) (j : nat) :
  reachable cfg mem w -> valid_id cfg me ->
  neighbour cfg me d < 0 -> (1 <= j <= Ln)%nat ->
  rd (edgeIn (thread (node w me)) d) j = boundary_temp d /\
  (boundary_temp d = 255 * 65536 \/ boundary_temp d = 40 * 65536).
Proof.
  intros Hw%(reachable_inv cfg mem Hcfg Hmem) Hme Hd Hj.
  split; [|apply boundary_temp_val].
  destruct (thread_edges w me d Hw Hme) as (Hk & _ & [-> | (? & _)]); [|lia].
  rewrite (lockstep_edges cfg mem Hcfg Hmem) by done.
  rewrite bool_decide_eq_false_2; [done|lia].
Qed.

(** X16. No temperature leaves the range of the borders: in every
    reachable world every cell and every incoming payload word of
    every thread lies between 0 and 255.0, so the sum of the stencil
    fits an [int], and the byte [(v >> 16) & 0xff] emitted for a cell
    is its whole integer part [v / 65536], between 0 and 255. *)
Theorem temperatures_within_range (w : World) (me : Z) :
  reachable cfg mem w -> valid_id cfg me ->
  inputs_within Ln 0 (255 * 65536) (thread (node w me)) /\
  (forall y x, (y < Ln)%nat -> (x < Ln)%nat ->
     let v := grd (subgrid (thread (node w me))) y x in
     Z.land (sar v 16) 255 = v `div` 65536 /\ 0 <= v `div` 65536 <= 255).
Proof.
  intros Hw%(reachable_inv cfg mem Hcfg Hmem) Hme.
  assert (inputs_within Ln 0 (255 * 65536) (thread (node w me))) as Hin.
  { rewrite <- hottest_val. split.
    - intros y x Hy Hx.
      destruct (thread_edges w me N Hw Hme) as (Hk & -> & _).
      by apply (lockstep_cells_within cfg mem Hcfg Hmem).
    - intros d j Hj.
      destruct (thread_edges w me d Hw Hme) as (Hk & _ & [-> | (Hd & Hk' & ->)]).
      + by apply (lockstep_within cfg mem Hcfg Hmem).
      + rewrite (sent_msg_payload cfg mem Hmem) by done.
        destruct (neighbour_back cfg Hcfg me d Hme Hd) as [Hv _].
        destruct (boundary_cell_range cfg (opposite d) (j - 1)) as [? ?]; [lia|].
        apply (lockstep_cells_within cfg mem Hcfg Hmem); [lia|done..]. }
  split; [done|]. intros y x Hy Hx v.
  pose proof (proj1 Hin y x Hy Hx) as Hv. fold v in Hv.
  unfold sar. rewrite Z.shiftr_div_pow2 by done. change (2 ^ 16) with 65536.
  assert (0 <= v `div` 65536 <= 255) as Hq.
  { split; [apply Z.div_pos; lia|].
    enough (v `div` 65536 < 256) by lia. apply Z.div_lt_upper_bound; lia. }
  split; [|done].
  change 255 with (Z.ones 8). rewrite Z.land_ones by done.
  apply Z.mod_small. change (2 ^ 8) with 256. lia.
Qed.

Lemma own_block p i :
  0 <= i < Lz -> (p * Lz + i) `div` Lz = p /\ (p * Lz + i) `mod` Lz = i.
Proof.
  intros Hi. split.
  - rewrite Z.add_comm, Z.div_add by lia. rewrite Z.div_small; lia.
  - rewrite Z.add_comm, Z.mod_add by lia. by apply Z.mod_small.
Qed.

(** The cells of a thread are its part of the global grid. *)
Lemma own_cells k me y x :
  valid_id cfg me -> (y < Ln)%nat -> (x < Ln)%nat ->
  global_temp cfg mem k (yPos cfg me * Lz + Z.of_nat y) (xPos cfg me * Lz + Z.of_nat x) =
  grd (subgrid (lockstep cfg mem k me)) y x.
Proof.
  intros Hme Hy Hx. pose proof (Ln_val cfg Hcfg) as En.
  pose proof (xPos_range cfg Hcfg me) as Px.
  pose proof (yPos_range cfg Hcfg me Hme) as Py.
  destruct (own_block (yPos cfg me) (Z.of_nat y)) as [Dy My]; [lia|].
  destruct (own_block (xPos cfg me) (Z.of_nat x)) as [Dx Mx]; [lia|].
  rewrite global_temp_inside by (done || nia).
  unfold owner. rewrite Dy, My, Dx, Mx, !Nat2Z.id.
  by rewrite <- (id_coords cfg Hcfg me).
Qed.


(** X18. A thread past the loop has nothing left to receive: in
    every reachable world, a finished thread is at step [nsteps], every
    channel into it is empty, and each of its neighbours has sent it
    all [nsteps] edges and is in its last step or finished. *)
Theorem finished_thread_drained (w : World) (me : Z) :
  reachable cfg mem w -> valid_id cfg me -> ctl (node w me) = Finished ->
  t (thread (node w me)) = nsteps /\
  (forall src, chan w (src, me) = []) /\
  (forall d, 0 <= neighbour cfg me d ->
     nsteps - 1 <= t (thread (node w (neighbour cfg me d))) /\
     incoming_total cfg w me d = nsteps).
Proof.
  intros Hw%(reachable_inv cfg mem Hcfg Hmem) Hme Hfin.
  pose proof (proj1 Hw me Hme) as Hinv.
  pose proof (inv_ctl _ _ _ _ _ _ Hinv) as Hc. rewrite Hfin in Hc.
  split; [done|].
  assert (forall d, 0 <= neighbour cfg me d ->
            incoming cfg w me d = [] /\ incoming_total cfg w me d = nsteps) as Hd.
  { intros d Hd.
    pose proof (inv_received _ _ _ _ _ _ Hinv d Hd) as Hrec.
    pose proof (incoming_total_max cfg mem Hcfg w me d Hw Hme Hd) as Hmax.
    unfold received in Hrec.
    destruct (incoming cfg w me d); simpl in Hrec; [split; [done|lia]|lia]. }
  split.
  - intros src. destruct (chan w (src, me)) as [|m rest] eqn:Hch; [done|].
    destruct (channel_ends cfg mem Hcfg w src me Hw) as (_ & _ & _ & d0 & Hd0 & Hback);
      [by rewrite Hch|].
    destruct (Hd (opposite d0)) as [He _].
    { rewrite Hback. destruct (proj2 Hw src me) as ([? _] & _); [by rewrite Hch|done]. }
    unfold incoming in He. rewrite Hback, Hch in He. done.
  - intros d Hd0. destruct (Hd d Hd0) as [_ Htot]. split; [|done].
    destruct (bounded_skew cfg mem Hcfg w me d Hw Hme Hd0) as (_ & ? & _). lia.
Qed.

End MeshValues.

(** ** The mesh: phases and counters *)

Section Phases.

Variable cfg : Config.
Variable mem : Z -> Memory.
Hypothesis Hcfg : valid_config cfg.
Hypothesis Hmem : forall me, memory_shape (Ln cfg) (mem me).

Lemma count_dirs_mono f g :
  (forall d, f d = true -> g d = true) -> count_dirs f <= count_dirs g.
Proof.
  intros H. unfold count_dirs.
  pose proof (H N). pose proof (H S). pose proof (H E). pose proof (H W).
  destruct (f N), (f S), (f E), (f W), (g N), (g S), (g E), (g W);
    simpl; try lia;
    repeat match goal with H : true = true -> _ |- _ => specialize (H eq_refl) end;
    done.
Qed.

(** X22. One bit tells the steps apart: in every reachable world, the
    message at the head of a channel into a thread that is in the loop
    of step [t] is the edge its sender sent in step [t] or in step
    [t + 1], and it is the edge of step [t] exactly when its phase bit
    is [t & 1]; its payload is the sender's side of the shared border
    after that step's stencil. *)
Theorem phase_bit_identifies_step (w : World) (me src : Z) (msg : Slot)
    (rest : list Slot) :
  reachable cfg mem w -> valid_id cfg me -> ctl (node w me) = Exchanging ->
  chan w (src, me) = msg :: rest ->
  let k := Z.to_nat (t (thread (node w me))) in
  exists d, neighbour cfg me d = src /\
    (tag_phase (rd msg 0) = Z.land (t (thread (node w me))) 1 /\
     msg = sent_msg cfg mem k src (opposite d) \/
     tag_phase (rd msg 0) <> Z.land (t (thread (node w me))) 1 /\
     msg = sent_msg cfg mem (k + 1) src (opposite d) /\ rest = []).
Proof.
  intros Hw%(reachable_inv cfg mem Hcfg Hmem) Hme Hctl Hch k.
  destruct (channel_ends cfg mem Hcfg w src me Hw) as (Hsrc & _ & _ & d0 & _ & Hback);
    [by rewrite Hch|].
  set (d := opposite d0) in *. exists d. split; [done|].
  assert (0 <= neighbour cfg me d) as Hd by (rewrite Hback; destruct Hsrc; lia).
  pose proof (proj1 Hw me Hme) as Hinv.
  pose proof (inv_time _ _ _ _ _ _ Hinv) as Ht.
  pose proof (inv_received _ _ _ _ _ _ Hinv d Hd) as Hrec.
  pose proof (inv_channel _ _ _ _ _ _ Hinv d 0%nat msg Hd) as Hm.
  destruct (bounded_skew cfg mem Hcfg w me d Hw Hme Hd) as (_ & _ & Htot).
  unfold received, incoming in Hrec, Hm. rewrite Hback, Hch in Hrec, Hm.
  specialize (Hm eq_refl). rewrite Nat.add_0_r in Hm.
  remember (incoming_total cfg w me d - Z.of_nat (length (msg :: rest))) as j eqn:Ej0.
  simpl in Ej0.
  pose proof (sent_msg_fields cfg mem Hmem (Z.to_nat j) src (opposite d)) as [_ Hph].
  rewrite <- Hm in Hph. rewrite Z2Nat.id in Hph by lia.
  destruct (decide (j = t (thread (node w me)))) as [Ej|Ej].
  - left. split; [by rewrite Hph, Ej|]. by rewrite Hm, Ej.
  - right. assert (j = t (thread (node w me)) + 1) as Ej' by lia.
    split; [rewrite Hph, Ej'; apply phase_next_differs|].
    split; [rewrite Hm, Ej'; f_equal; lia|].
    destruct rest; [done|]. simpl in Ej0. lia.
Qed.


End Phases.

(** ** The mesh: progress *)

Section Progress.

Variable cfg : Config.
Variable mem : Z -> Memory.
Hypothesis Hcfg : valid_config cfg.
Hypothesis Hmem : forall me, memory_shape (Ln cfg) (mem me).

Lemma count_dirs_missing f g :
  count_dirs f < count_dirs g -> exists d, g d = true /\ f d = false.
Proof.
  unfold count_dirs. intros H.
  destruct (g N) eqn:GN, (f N) eqn:FN; try (by exists N);
  destruct (g S) eqn:GS, (f S) eqn:FS; try (by exists S);
  destruct (g E) eqn:GE, (f E) eqn:FE; try (by exists E);
  destruct (g W) eqn:GW, (f W) eqn:FW; try (by exists W);
  simpl in H; lia.
Qed.

Lemma can_send w me :
  world_inv cfg mem w -> valid_id cfg me -> ctl (node w me) = Exchanging ->
  needToSend cfg me (thread (node w me)) = true ->
  exists w', step cfg w w'.
Proof.
  intros Hw Hme Hctl Hneed.
  destruct (iter_defined cfg mem Hcfg Hmem w me (mkEvent true None) Hw Hme Hctl)
    as (th' & out & c' & Hit & Hdel & _); [done|].
  eexists. eapply (step_iter cfg w me (mkEvent true None)); try done.
  - unfold exchange_done. by rewrite Hneed.
  - unfold wakes. by rewrite Hneed.
Qed.

Lemma can_recv w me src msg rest :
  world_inv cfg mem w -> valid_id cfg me -> ctl (node w me) = Exchanging ->
  needToRecv cfg me (thread (node w me)) = true ->
  chan w (src, me) = msg :: rest ->
  exists w', step cfg w w'.
Proof.
  intros Hw Hme Hctl Hneed Hch.
  destruct (iter_defined cfg mem Hcfg Hmem w me (mkEvent false (Some msg)) Hw Hme Hctl)
    as (th' & out & c' & Hit & Hdel & _); [by exists src, rest|].
  eexists. eapply (step_iter cfg w me (mkEvent false (Some msg))); try done.
  - unfold exchange_done. rewrite Hneed. by rewrite andb_false_r.
  - unfold wakes. apply orb_true_iff. right. rewrite Hneed.
    apply andb_true_iff. split; [done|]. apply bool_decide_eq_true_2. by eexists.
Qed.

(** A thread that is still in the loop can move, or waits for a
    neighbour that can. *)
Lemma can_move (m : nat) : forall w me,
  world_inv cfg mem w -> valid_id cfg me -> ctl (node w me) = Exchanging ->
  t (thread (node w me)) <= Z.of_nat m ->
  exists w', step cfg w w'.
Proof.
  induction m as [|m IH]; intros w me Hw Hme Hctl Ht.
  all: destruct (exchange_done cfg me (thread (node w me))) eqn:Hdone;
    [eexists; by apply (step_next cfg w me)|].
  all: destruct (needToSend cfg me (thread (node w me))) eqn:Hsend;
    [by apply (can_send w me)|].
  all: unfold exchange_done in Hdone; rewrite Hsend in Hdone; simpl in Hdone;
    apply negb_false_iff in Hdone.
  all: pose proof (proj1 Hw me Hme) as Hinv;
    pose proof (inv_time _ _ _ _ _ _ Hinv) as Htime;
    pose proof (inv_ctl _ _ _ _ _ _ Hinv) as Hc;
    pose proof (inv_state _ _ _ _ _ _ Hinv) as Hst;
    rewrite Hctl in Hc, Hst;
    destruct Hst as (_ & _ & _ & _ & _ & _ & Hre);
    pose proof Hdone as Hlt; apply bool_decide_eq_true in Hlt;
    rewrite Hre, numNeighbours_count in Hlt;
    apply count_dirs_missing in Hlt as (d & Hd & Hgot);
    apply bool_decide_eq_true in Hd;
    pose proof (inv_received _ _ _ _ _ _ Hinv d Hd) as Hrec;
    apply bool_decide_eq_false in Hgot;
    (assert (received (incoming_total cfg w me) (incoming cfg w me) d
             = t (thread (node w me))) as Erec by lia);
    unfold received in Erec;
    destruct (incoming cfg w me d) as [|msg rest] eqn:Hinc;
    [|by apply (can_recv w me (neighbour cfg me d) msg rest)];
    simpl in Erec;
    destruct (neighbour_back cfg Hcfg me d Hme Hd) as [Hv Hback];
    pose proof (proj1 Hw _ Hv) as Hinv';
    pose proof (inv_time _ _ _ _ _ _ Hinv') as Htime';
    pose proof (inv_ctl _ _ _ _ _ _ Hinv') as Hc';
    pose proof (inv_state _ _ _ _ _ _ Hinv') as Hst';
    unfold incoming_total, sent_total in Erec;
    destruct (ctl (node w (neighbour cfg me d))) eqn:Hctl'; [|lia];
    destruct (sent_flag cfg (neighbour cfg me d)
                (thread (node w (neighbour cfg me d))) (opposite d)) eqn:Hflag;
    simpl in Erec.
  - lia.
  - apply (can_send w (neighbour cfg me d)); try done.
    destruct (needToSend cfg (neighbour cfg me d) _) eqn:Hs'; [done|]. exfalso.
    apply bool_decide_eq_false in Hs'.
    destruct Hst' as (_ & _ & _ & _ & _ & Hse & _).
    rewrite sent_flag_all in Hflag by lia.
    apply bool_decide_eq_false in Hflag. apply Hflag. rewrite Hback.
    destruct Hme; lia.
  - apply (IH w (neighbour cfg me d)); try done. lia.
  - apply (can_send w (neighbour cfg me d)); try done.
    destruct (needToSend cfg (neighbour cfg me d) _) eqn:Hs'; [done|]. exfalso.
    apply bool_decide_eq_false in Hs'.
    destruct Hst' as (_ & _ & _ & _ & _ & Hse & _).
    rewrite sent_flag_all in Hflag by lia.
    apply bool_decide_eq_false in Hflag. apply Hflag. rewrite Hback.
    destruct Hme; lia.
Qed.

(** X19. No deadlock: in every reachable world in which some thread
    is still in its loop, some thread can make a move (in the model a
    thread that wants to send is eventually allowed to, and a message
    in a channel is eventually delivered). *)
Theorem mesh_never_deadlocks (w : World) (me : Z) :
  reachable cfg mem w -> valid_id cfg me -> ctl (node w me) = Exchanging ->
  exists w', step cfg w w' /\ reachable cfg mem w'.
Proof.
  intros Hr Hme Hctl.
  pose proof (reachable_inv cfg mem Hcfg Hmem w Hr) as Hw.
  pose proof (inv_time _ _ _ _ _ _ (proj1 Hw me Hme)) as Ht.
  destruct (can_move (Z.to_nat (t (thread (node w me)))) w me Hw Hme Hctl)
    as [w' Hstep]; [lia|].
  exists w'. split; [done|]. by eapply reach_step.
Qed.

End Progress.

(** ** The mesh: termination *)

Section Termination.

Variable cfg : Config.
Variable mem : Z -> Memory.
Hypothesis Hcfg : valid_config cfg.
Hypothesis Hmem : forall me, memory_shape (Ln cfg) (mem me).

Lemma sumZ_ext {A} (f g : A -> Z) l :
  (forall a, a ∈ l -> f a = g a) -> sumZ f l = sumZ g l.
Proof.
  induction l as [|a l IH]; intros H; [done|]. simpl.
  rewrite (H a) by apply list_elem_of_here.
  rewrite IH; [done|]. intros b Hb. apply H. by apply list_elem_of_further.
Qed.

Lemma sumZ_point {A} (f g : A -> Z) l a :
  NoDup l -> a ∈ l -> (forall b, b ∈ l -> b <> a -> g b = f b) ->
  sumZ g l = sumZ f l + (g a - f a).
Proof.
  induction l as [|b l IH]; intros Hnd Ha H; [by apply elem_of_nil in Ha|].
  apply list.NoDup_cons in Hnd as [Hb Hnd]. simpl.
  apply elem_of_cons in Ha as [->|Ha].
  - rewrite (sumZ_ext g f l); [lia|].
    intros c Hc. apply H; [by apply list_elem_of_further|]. by intros ->.
  - rewrite IH; [|done..|].
    + rewrite (H b); [lia|apply list_elem_of_here|]. by intros ->.
    + intros c Hc Hne. apply H; [by apply list_elem_of_further|done].
Qed.

Lemma sumZ_const {A} (v : Z) (l : list A) :
  sumZ (fun _ => v) l = v * Z.of_nat (length l).
Proof. induction l as [|a l IH]; simpl; [lia|]. rewrite IH. lia. Qed.

Lemma ids_NoDup : NoDup (ids cfg).
Proof. apply NoDup_seqZ. Qed.

Lemma elem_of_ids me : me ∈ ids cfg <-> valid_id cfg me.
Proof. unfold ids, valid_id. rewrite elem_of_seqZ. lia. Qed.

(** One channel changes: only the thread at its end sees it. *)
Lemma in_flight_update (c : Z * Z -> list Slot) a b d l' :
  valid_id cfg b -> neighbour cfg b d = a -> 0 <= a ->
  sumZ (in_flight cfg (<[(a, b) := l']> c)) (ids cfg) =
  sumZ (in_flight cfg c) (ids cfg) + Z.of_nat (length l') - Z.of_nat (length (c (a, b))).
Proof.
  intros Hb Hd Ha.
  rewrite (sumZ_point (in_flight cfg c) _ (ids cfg) b);
    [|apply ids_NoDup|by apply elem_of_ids|].
  - enough (in_flight cfg (<[(a, b) := l']> c) b - in_flight cfg c b =
            Z.of_nat (length l') - Z.of_nat (length (c (a, b)))) by lia.
    assert (forall d', d' <> d ->
      (if bool_decide (0 <= neighbour cfg b d')
       then Z.of_nat (length ((<[(a, b) := l']> c) (neighbour cfg b d', b))) else 0) =
      (if bool_decide (0 <= neighbour cfg b d')
       then Z.of_nat (length (c (neighbour cfg b d', b))) else 0)) as Hother.
    { intros d' Hne. case_bool_decide as Hd'; [|done].
      rewrite fn_lookup_insert_ne; [done|]. intros [= E]. apply Hne.
      apply (neighbour_inj cfg Hcfg b); [done..|congruence]. }
    assert ((if bool_decide (0 <= neighbour cfg b d)
       then Z.of_nat (length ((<[(a, b) := l']> c) (neighbour cfg b d, b))) else 0) =
       Z.of_nat (length l')) as Hnew.
    { rewrite bool_decide_eq_true_2 by lia. by rewrite Hd, fn_lookup_insert. }
    assert ((if bool_decide (0 <= neighbour cfg b d)
       then Z.of_nat (length (c (neighbour cfg b d, b))) else 0) =
       Z.of_nat (length (c (a, b)))) as Hold.
    { rewrite bool_decide_eq_true_2 by lia. by rewrite Hd. }
    unfold in_flight, all_dirs. cbn [sumZ foldr].
    destruct d; rewrite Hnew, Hold, !Hother by done; lia.
  - intros x _ Hx. unfold in_flight. apply sumZ_ext. intros d' _.
    rewrite fn_lookup_insert_ne; [done|]. congruence.
Qed.

Lemma own_work_update w w' me :
  valid_id cfg me ->
  (forall b, b <> me -> node w' b = node w b) ->
  sumZ (own_work cfg w') (ids cfg) =
  sumZ (own_work cfg w) (ids cfg) + (own_work cfg w' me - own_work cfg w me).
Proof.
  intros Hme Hn. apply sumZ_point; [apply ids_NoDup|by apply elem_of_ids|].
  intros b _ Hb. unfold own_work. by rewrite Hn.
Qed.

Lemma sumZ_nonneg {A} (f : A -> Z) l :
  (forall a, a ∈ l -> 0 <= f a) -> 0 <= sumZ f l.
Proof.
  induction l as [|a l IH]; intros H; simpl; [lia|].
  pose proof (H a ltac:(apply list_elem_of_here)).
  assert (0 <= sumZ f l); [|lia].
  apply IH. intros b Hb. apply H. by apply list_elem_of_further.
Qed.

Lemma begin_step_counters th :
  t (begin_step cfg th) = t th /\ edgesSent (begin_step cfg th) = 0.
Proof.
  unfold begin_step.
  destruct (recognise_buffered_spec
              (set_edgesReceived 0 (set_edgesSent 0 (update_state cfg th))) eq_refl)
    as (_ & _ & _ & _ & Ht & _ & _ & _ & Hs).
  rewrite Ht, Hs. thread_simpl.
  by destruct (update_state_frame cfg th) as (-> & _).
Qed.

Lemma own_work_pos w me :
  world_inv cfg mem w -> valid_id cfg me ->
  match ctl (node w me) with
  | Exchanging => 1 <= own_work cfg w me
  | Finished => own_work cfg w me = 0
  end.
Proof.
  intros Hw Hme. pose proof (proj1 Hw me Hme) as Hinv.
  pose proof (inv_ctl _ _ _ _ _ _ Hinv) as Hc.
  pose proof (inv_state _ _ _ _ _ _ Hinv) as Hst.
  pose proof (numNeighbours_bounds cfg me). unfold own_work.
  destruct (ctl (node w me)); [|done].
  destruct Hst as (_ & _ & _ & _ & _ & Hse & _). lia.
Qed.

Lemma potential_nonneg w : world_inv cfg mem w -> 0 <= potential cfg w.
Proof.
  intros Hw. unfold potential.
  assert (0 <= sumZ (own_work cfg w) (ids cfg)).
  { apply sumZ_nonneg. intros a Ha%elem_of_ids.
    pose proof (own_work_pos w a Hw Ha). destruct (ctl (node w a)); lia. }
  assert (0 <= sumZ (in_flight cfg (chan w)) (ids cfg)); [|lia].
  apply sumZ_nonneg. intros a _. unfold in_flight. apply sumZ_nonneg.
  intros d _. case_bool_decide; lia.
Qed.

(** A send: two units of the sender's work become one message in
    flight. *)
Lemma potential_send w me th1 p :
  world_inv cfg mem w -> valid_id cfg me -> ctl (node w me) = Exchanging ->
  needToSend cfg me (thread (node w me)) = true ->
  send_handler cfg me (thread (node w me)) = Some (th1, p) ->
  potential cfg (mkWorld (<[me := mkNode Exchanging th1 []]> (node w))
                         (transmit me [p] (chan w)))
  = potential cfg w - 1.
Proof.
  intros Hw Hme Hctl Hneed Hsend.
  pose proof (proj1 Hw me Hme) as Hinv.
  pose proof (inv_state _ _ _ _ _ _ Hinv) as Hst. rewrite Hctl in Hst.
  destruct Hst as (_ & _ & _ & _ & _ & Hse & _).
  pose proof (numNeighbours_bounds cfg me) as Hnn.
  destruct (send_handler_defined cfg me _ (proj1 Hse) Hneed) as (d & Hd & Hs).
  rewrite Hs in Hsend. injection Hsend as <- <-.
  assert (0 <= neighbour cfg me d) as Hd0.
  { apply (elem_of_neighbourList cfg). by eapply list_elem_of_lookup_2. }
  destruct (neighbour_back cfg Hcfg me d Hme Hd0) as [Hv Hback].
  unfold potential. cbn [chan]. rewrite transmit_one. cbn [fst snd].
  rewrite (in_flight_update _ me (neighbour cfg me d) (opposite d)) by (done || (destruct Hme; lia)).
  rewrite (own_work_update w _ me Hme).
  2: { intros b Hb. simpl. by rewrite fn_lookup_insert_ne. }
  unfold own_work at 2 3. cbn [node]. rewrite fn_lookup_insert, Hctl.
  thread_simpl. cbn [ctl thread]. thread_simpl.
  unfold add. rewrite s32_small by (unfold is_s32, half_modulus; lia).
  rewrite length_app. simpl. lia.
Qed.

(** A receive takes one message out of flight. *)
Lemma potential_recv w me src msg rest th2 :
  world_inv cfg mem w -> valid_id cfg me -> ctl (node w me) = Exchanging ->
  chan w (src, me) = msg :: rest ->
  recv_handler msg (thread (node w me)) = Some th2 ->
  potential cfg (mkWorld (<[me := mkNode Exchanging th2 []]> (node w))
                         (<[(src, me) := rest]> (chan w)))
  = potential cfg w - 1.
Proof.
  intros Hw Hme Hctl Hch Hrecv.
  destruct (channel_ends cfg mem Hcfg w src me Hw) as (Hsrc & _ & _ & d0 & _ & Hback);
    [by rewrite Hch|].
  destruct (recv_handler_grids _ _ _ Hrecv) as (_ & _ & Es).
  destruct (recv_handler_edgeOut _ _ _ Hrecv) as (Et & _).
  unfold potential. cbn [chan].
  rewrite (in_flight_update _ src me (opposite d0)) by (done || (destruct Hsrc; lia)).
  rewrite (own_work_update w _ me Hme).
  2: { intros b Hb. simpl. by rewrite fn_lookup_insert_ne. }
  unfold own_work at 2 3. cbn [node]. rewrite fn_lookup_insert, Hctl.
  cbn [ctl thread]. rewrite Et, Es, Hch. simpl length. lia.
Qed.

Lemma potential_ext w w' :
  (forall a, node w' a = node w a) -> (forall key, chan w' key = chan w key) ->
  potential cfg w' = potential cfg w.
Proof.
  intros Hn Hc. unfold potential. f_equal.
  - apply sumZ_ext. intros a _. unfold own_work. by rewrite Hn.
  - apply sumZ_ext. intros a _. unfold in_flight. apply sumZ_ext. intros d _.
    by rewrite Hc.
Qed.

Lemma potential_next w me :
  world_inv cfg mem w -> valid_id cfg me -> ctl (node w me) = Exchanging ->
  potential cfg (mkWorld (<[me := enter_loop cfg me (end_step (thread (node w me)))]>
                            (node w)) (chan w))
  <= potential cfg w - 1.
Proof.
  intros Hw Hme Hctl.
  pose proof (proj1 Hw me Hme) as Hinv.
  pose proof (inv_time _ _ _ _ _ _ Hinv) as Ht.
  pose proof (inv_ctl _ _ _ _ _ _ Hinv) as Hc. rewrite Hctl in Hc.
  pose proof (inv_state _ _ _ _ _ _ Hinv) as Hst. rewrite Hctl in Hst.
  destruct Hst as (_ & _ & _ & _ & _ & Hse & _).
  pose proof (numNeighbours_bounds cfg me) as Hnn.
  pose proof nsteps_val as Hns.
  unfold potential. cbn [chan].
  rewrite (own_work_update w _ me Hme).
  2: { intros b Hb. simpl. by rewrite fn_lookup_insert_ne. }
  unfold own_work at 2 3. cbn [node]. rewrite fn_lookup_insert, Hctl.
  unfold enter_loop, end_step. thread_simpl.
  assert (add (t (thread (node w me))) 1 = t (thread (node w me)) + 1) as Ea.
  { unfold add. apply s32_small. unfold is_s32, half_modulus. lia. }
  case_bool_decide as Hlt; cbn [ctl thread].
  - destruct (begin_step_counters
                (set_t (add (t (thread (node w me))) 1)
                   (set_grids (newSubgrid (thread (node w me)))
                      (subgrid (thread (node w me))) (thread (node w me)))))
      as [-> ->].
    thread_simpl. rewrite Ea. lia.
  - lia.
Qed.

Lemma potential_step w w' :
  world_inv cfg mem w -> step cfg w w' -> potential cfg w' + 1 <= potential cfg w.
Proof.
  intros Hw Hstep.
  destruct Hstep as [w me ev th' out c' Hme Hctl Hnd Hwake Hiter Hdel|w me Hme Hctl Hdone].
  2: { pose proof (potential_next w me Hw Hme Hctl). lia. }
  unfold exchange_iter in Hiter. unfold wakes in Hwake.
  destruct (needToSend cfg me (thread (node w me)) && canSend ev) eqn:Hs.
  - apply andb_true_iff in Hs as [Hneed _].
    destruct (world_send cfg mem Hcfg w me Hw Hme Hctl Hneed) as (th1 & p & Hsend & Hw1).
    pose proof (potential_send w me th1 p Hw Hme Hctl Hneed Hsend) as P1.
    rewrite Hsend in Hiter. cbn [mbind option_bind] in Hiter.
    destruct (canRecv ev) as [msg|]; cbn [mbind option_bind] in Hiter, Hdel.
    + destruct (recv_handler msg th1) as [th2|] eqn:Hrecv; [|done].
      cbn [mbind option_bind] in Hiter. injection Hiter as <- <-.
      destruct Hdel as (src & rest & Hch & ->).
      set (w1 := mkWorld (<[me := mkNode Exchanging th1 []]> (node w))
                         (transmit me [p] (chan w))) in *.
      pose proof (potential_recv w1 me src msg rest th2 Hw1 Hme) as P2.
      cbn [w1 node chan ctl thread] in P2. rewrite fn_lookup_insert in P2.
      specialize (P2 eq_refl Hch Hrecv).
      erewrite (potential_ext _ (mkWorld _ _)); [rewrite P2; lia| |done].
      intros a. simpl. unfold insert, fn_insert. by case_decide.
    + injection Hiter as <- <-. rewrite Hdel. lia.
  - cbn [mbind option_bind] in Hiter. simpl in Hwake.
    destruct (canRecv ev) as [msg|]; cbn [mbind option_bind] in Hiter, Hdel.
    + destruct (recv_handler msg (thread (node w me))) as [th2|] eqn:Hrecv; [|done].
      cbn [mbind option_bind] in Hiter. injection Hiter as <- <-.
      destruct Hdel as (src & rest & Hch & ->). simpl in Hch.
      pose proof (potential_recv w me src msg rest th2 Hw Hme Hctl Hch Hrecv). simpl.
      simpl in H. lia.
    + exfalso. rewrite andb_false_r in Hwake. done.
Qed.

Lemma steps_potential m : forall w w',
  world_inv cfg mem w -> steps cfg m w w' ->
  world_inv cfg mem w' /\ potential cfg w' + Z.of_nat m <= potential cfg w.
Proof.
  induction m as [|m IH]; intros w w' Hw Hs; inversion Hs; subst.
  - split; [done|lia].
  - match goal with H : step cfg w ?w1, H' : steps cfg m ?w1 w' |- _ =>
      pose proof (step_inv cfg mem Hcfg Hmem w w1 Hw H) as Hw1;
      pose proof (potential_step w w1 Hw H);
      destruct (IH w1 w' Hw1 H') as [? ?] end.
    split; [done|lia].
Qed.

Lemma potential_init :
  potential cfg (init_world cfg mem) = 9 * nsteps * (len cfg * len cfg).
Proof.
  unfold potential.
  rewrite (sumZ_ext (own_work cfg (init_world cfg mem)) (fun _ => 9 * nsteps)).
  2: { intros a _. unfold own_work. cbn [init_world node].
       destruct (boot_node cfg mem a) as (th & -> & _ & Ht & Hs).
       cbn [ctl thread]. rewrite Ht, Hs. lia. }
  rewrite (sumZ_ext (in_flight cfg (chan (init_world cfg mem))) (fun _ => 0)).
  2: { intros a _. unfold in_flight, all_dirs. simpl. by repeat case_bool_decide. }
  rewrite !sumZ_const. unfold ids. rewrite length_seqZ.
  pose proof (len_range cfg Hcfg). rewrite Z2Nat.id by nia. lia.
Qed.

Lemma reachable_potential w :
  reachable cfg mem w -> potential cfg w <= 9 * nsteps * (len cfg * len cfg).
Proof.
  induction 1 as [|w w' Hr IH Hstep]; [by rewrite potential_init|].
  pose proof (potential_step w w' (reachable_inv cfg mem Hcfg Hmem w Hr) Hstep). lia.
Qed.

(** X20. Every run is finite: a run from a reachable world has at
    most as many moves as there is work left in that world (9 units
    per thread and step to go, less 2 per edge already sent in the
    current step, plus the messages in flight), and never more than
    [9 * nsteps * len * len]. *)
Theorem mesh_terminates (w w' : World) (m : nat) :
  reachable cfg mem w -> steps cfg m w w' ->
  Z.of_nat m <= potential cfg w /\
  potential cfg w <= 9 * nsteps * (len cfg * len cfg).
Proof.
  intros Hr Hs. pose proof (reachable_inv cfg mem Hcfg Hmem w Hr) as Hw.
  destruct (steps_potential m w w' Hw Hs) as [Hw' Hp].
  pose proof (potential_nonneg w' Hw').
  split; [lia|]. by apply reachable_potential.
Qed.

Lemma run_to_completion (p : nat) : forall w,
  world_inv cfg mem w -> potential cfg w <= Z.of_nat p ->
  exists m w', steps cfg m w w' /\
    forall me, valid_id cfg me -> ctl (node w' me) = Finished.
Proof.
  induction p as [|p IH]; intros w Hw Hp.
  all: destruct (decide (Forall (fun me => ctl (node w me) = Finished) (ids cfg)))
    as [Hall|Hsome];
    [exists 0%nat, w; split; [constructor|];
     intros me Hme%elem_of_ids; by apply (proj1 (list.Forall_forall _ _) Hall)|].
  all: apply not_Forall_Exists in Hsome; [|apply _];
    apply list.Exists_exists in Hsome as (me & Hme%elem_of_ids & Hctl);
    assert (ctl (node w me) = Exchanging) as Hex
      by (destruct (ctl (node w me)) eqn:E; [done|exfalso; by apply Hctl]);
    pose proof (inv_time _ _ _ _ _ _ (proj1 Hw me Hme)) as Ht;
    destruct (can_move cfg mem Hcfg Hmem (Z.to_nat (t (thread (node w me)))) w me
                Hw Hme Hex ltac:(lia)) as [w1 Hstep];
    pose proof (step_inv cfg mem Hcfg Hmem w w1 Hw Hstep) as Hw1;
    pose proof (potential_step w w1 Hw Hstep);
    pose proof (potential_nonneg w1 Hw1).
  - lia.
  - destruct (IH w1 Hw1 ltac:(lia)) as (m & w' & Hs & Hfin).
    exists (Datatypes.S m), w'. split; [|done]. by apply (steps_more cfg m w w1).
Qed.

(** X21. Every thread gets to the end: from every reachable world
    there is a run, of at most [9 * nsteps * len * len] moves, to a
    world in which every thread of the mesh is past the loop, at step
    [nsteps]. *)
Theorem mesh_runs_to_completion (w : World) :
  reachable cfg mem w ->
  exists m w', steps cfg m w w' /\ reachable cfg mem w' /\
    Z.of_nat m <= 9 * nsteps * (len cfg * len cfg) /\
    forall me, valid_id cfg me ->
      ctl (node w' me) = Finished /\ t (thread (node w' me)) = nsteps.
Proof.
  intros Hr. pose proof (reachable_inv cfg mem Hcfg Hmem w Hr) as Hw.
  pose proof (potential_nonneg w Hw).
  destruct (run_to_completion (Z.to_nat (potential cfg w)) w Hw ltac:(lia))
    as (m & w' & Hs & Hfin).
  exists m, w'. split; [done|].
  assert (reachable cfg mem w') as Hr'.
  { clear Hfin. induction Hs as [|m w w1 w2 Hstep Hs IH]; [done|].
    apply IH.
    - by eapply reach_step.
    - eapply step_inv; eauto.
    - eapply potential_nonneg, step_inv; eauto. }
  split; [done|].
  destruct (steps_potential m w w' Hw Hs) as [Hw' Hp].
  pose proof (potential_nonneg w' Hw').
  pose proof (reachable_potential w Hr). split; [lia|].
  intros me Hme. split; [by apply Hfin|].
  pose proof (inv_ctl _ _ _ _ _ _ (proj1 Hw' me Hme)) as Hc.
  by rewrite (Hfin me Hme) in Hc.
Qed.

End Termination.

(** ** The claims at work on the 2 x 2 mesh *)

Section Demo.

Local Abbreviation cfg := demo_config.
Local Abbreviation east_first := (run cfg demo_world demo_east_first).
Local Abbreviation south_first := (run cfg demo_world demo_south_first).
Local Abbreviation one_ahead := (run cfg demo_world demo_one_ahead).

(** The edge of step 1 that thread 1 sends west. *)
Local Abbreviation early_edge := [5; 6266880; 1044480; 0].

Lemma topology_symmetry_witness :
  valid_id cfg 1 /\ neighbour cfg 1 (opposite E) = 0.
Proof.
  apply (topology_symmetry cfg ltac:(unfold valid_config; simpl; lia) 0 1 E).
  - unfold valid_id. vm_compute. split; [discriminate|reflexivity].
  - vm_compute. reflexivity.
  - lia.
Defined.

Lemma recv_current_or_buffer_witness :
  exists th' out,
    exchange_iter cfg 0 (mkEvent false (Some early_edge)) (thread (node one_ahead 0))
      = Some (th', out) /\
    edgeInBuffer th' E = Some early_edge /\
    edgesReceived th' = edgesReceived (thread (node one_ahead 0)).
Proof.
  destruct (recv_current_or_buffer cfg 0 (mkEvent false (Some early_edge))
              (thread (node one_ahead 0)) early_edge E)
    as (th' & out & Hiter & _ & Hearly).
  - reflexivity.
  - vm_compute. reflexivity.
  - vm_compute. discriminate.
  - unfold is_s32. vm_compute. split; [discriminate|reflexivity].
  - exists th', out. split; [exact Hiter|].
    destruct Hearly as (Hb & Hr & _).
    + vm_compute. discriminate.
    + split; [exact Hb|exact Hr].
Defined.

Lemma demo_config_valid : valid_config cfg.
Proof. unfold valid_config. simpl. lia. Qed.

Lemma demo_memory_shape me : memory_shape (Ln cfg) (demo_memory me).
Proof.
  split; [|split].
  - split; [reflexivity|]. repeat constructor.
  - split; [reflexivity|]. repeat constructor.
  - intros i. reflexivity.
Qed.

Lemma stencil_plain_average_witness :
  grd (newSubgrid (update_state cfg probe_thread)) 0 2
    = (200 + 31 + 13 + 600) `div` 4 /\
  grd (newSubgrid (update_state cfg probe_thread)) 2 0
    = (43 + 800 + 400 + 21) `div` 4 /\
  grd (newSubgrid (update_state cfg probe_thread)) 1 1
    = (400 + 600 + 200 + 800) `div` 4.
Proof.
  assert (thread_shape (Ln cfg) probe_thread) as Hsh.
  { split; [|split; [|split]].
    - split; [reflexivity|]. repeat constructor.
    - split; [reflexivity|]. repeat constructor.
    - intros d. destruct d; reflexivity.
    - intros d. destruct d; reflexivity. }
  split; [|split].
  - destruct (stencil_plain_average cfg probe_thread 0 2 Hsh) as [_ Havg].
    + vm_compute. lia.
    + vm_compute. lia.
    + rewrite Havg.
      * vm_compute. reflexivity.
      * unfold is_s32. vm_compute. split; [discriminate|reflexivity].
  - destruct (stencil_plain_average cfg probe_thread 2 0 Hsh) as [_ Havg].
    + vm_compute. lia.
    + vm_compute. lia.
    + rewrite Havg.
      * vm_compute. reflexivity.
      * unfold is_s32. vm_compute. split; [discriminate|reflexivity].
  - destruct (stencil_plain_average cfg probe_thread 1 1 Hsh) as [_ Havg].
    + vm_compute. lia.
    + vm_compute. lia.
    + rewrite Havg.
      * vm_compute. reflexivity.
      * unfold is_s32. vm_compute. split; [discriminate|reflexivity].
Defined.

Lemma boundary_message_format_witness :
  match run_step cfg 0 [mkEvent true None; mkEvent true None]
          (init_thread cfg 0 (demo_memory 0)) with
  | Some (_, out, _) =>
      length out = 2%nat /\
      Forall (fun p : Packet =>
        exists d, d ∈ neighbourList cfg 0 /\ p.1 = neighbour cfg 0 d /\
          length p.2 = (Ln cfg + 1)%nat /\
          rd p.2 0 = Z.lor (shl (Dir_to_Z (opposite d)) 1) (Z.land 0 1) /\
          forall i, (i < Ln cfg)%nat ->
            rd p.2 (i + 1) =
            grd (newSubgrid (update_state cfg (init_thread cfg 0 (demo_memory 0))))
                (boundary_cell (Ln cfg) d i).1 (boundary_cell (Ln cfg) d i).2) out
  | None => False
  end.
Proof.
  destruct (run_step cfg 0 [mkEvent true None; mkEvent true None]
              (init_thread cfg 0 (demo_memory 0))) as [[[r out] rest]|] eqn:Hrun.
  - split.
    + vm_compute in Hrun. injection Hrun as _ <- _. reflexivity.
    + apply (boundary_message_format cfg 0 (init_thread cfg 0 (demo_memory 0))
               [mkEvent true None; mkEvent true None] r out rest); [|exact Hrun].
      split; [|split; [|split]].
      * split; [reflexivity|]. repeat constructor.
      * split; [reflexivity|]. repeat constructor.
      * intros d. destruct d; reflexivity.
      * intros d. destruct d; reflexivity.
  - vm_compute in Hrun. discriminate.
Defined.



Lemma one_pending_edge_per_direction_witness :
  t (thread (node one_ahead 1)) = t (thread (node one_ahead 0)) + 1 /\
  chan one_ahead (1, 0) = [early_edge] /\
  edgeInBuffer (thread (node one_ahead 0)) E = None.
Proof.
  destruct (one_pending_edge_per_direction cfg demo_memory
              ltac:(unfold valid_config; simpl; lia) demo_memory_shape one_ahead)
    as (_ & Hhead & _).
  - apply run_reachable, reach_init.
  - split; [vm_compute; reflexivity|]. split; [vm_compute; reflexivity|].
    destruct (Hhead 0 1 early_edge []) as (d & Hd & _ & Hempty).
    + unfold valid_id. vm_compute. split; [discriminate|reflexivity].
    + vm_compute. reflexivity.
    + vm_compute. reflexivity.
    + vm_compute in Hd. injection Hd as <-. apply Hempty.
      vm_compute. discriminate.
Defined.

Lemma arrival_order_irrelevant_witness :
  subgrid (thread (node east_first 0)) = subgrid (thread (node south_first 0)) /\
  chan east_first (3, 1) = [] /\ chan south_first (3, 1) <> [].
Proof.
  split; [|split; [vm_compute; reflexivity|vm_compute; discriminate]].
  apply (arrival_order_irrelevant cfg demo_memory
           ltac:(unfold valid_config; simpl; lia) demo_memory_shape
           east_first south_first 0).
  - apply run_reachable, reach_init.
  - apply run_reachable, reach_init.
  - unfold valid_id. vm_compute. split; [discriminate|reflexivity].
  - vm_compute. reflexivity.
Defined.

(** A thread without neighbours never sends or receives; after the
    1000 steps it has emitted its nine words, the first for the cell at
    the hot corner. *)
Example solo_thread_finishes :
  ctl (node solo_run 0) = Finished /\
  t (thread (node solo_run 0)) = 1000 /\
  hostOut (node solo_run 0) =
    [224; 449; 659; 1048769; 1048979; 1049189; 2097299; 2097509; 2097734] /\
  chan solo_run (0, 0) = [].
Proof. vm_compute. repeat split; reflexivity. Qed.

End Demo.

(** ** The further properties at work *)

Section Examples.

Local Abbreviation cfg := demo_config.
Local Abbreviation east_first := (run cfg demo_world demo_east_first).
Local Abbreviation one_ahead := (run cfg demo_world demo_one_ahead).
Local Abbreviation start := (init_thread cfg 0 (demo_memory 0)).
Local Abbreviation early_edge := [5; 6266880; 1044480; 0].

Lemma start_shape : thread_shape (Ln cfg) start.
Proof. apply init_thread_shape, demo_memory_shape. Qed.

Lemma FixedPoint_roundtrip_witness :
  FixedPoint 255 0 = 255 * 65536 + 0 /\
  sar (FixedPoint 255 0) 16 = 255 /\
  Z.land (FixedPoint 255 0) 65535 = 0 /\
  is_s32 (FixedPoint 255 0) /\
  (255 < 256 -> Z.land (sar (FixedPoint 255 0) 16) 255 = 255).
Proof. apply (FixedPoint_roundtrip 255 0); lia. Defined.

Lemma mesh_size_witness :
  1 <= len cfg /\
  len cfg * len cfg = 2 ^ (2 * (TinselLogThreadsPerBoard cfg `div` 2)) /\
  (Z.even (TinselLogThreadsPerBoard cfg) = true ->
   len cfg * len cfg = 2 ^ TinselLogThreadsPerBoard cfg) /\
  (Z.even (TinselLogThreadsPerBoard cfg) = false ->
   2 * (len cfg * len cfg) = 2 ^ TinselLogThreadsPerBoard cfg).
Proof. apply (mesh_size cfg). unfold valid_config. simpl. lia. Defined.

Lemma thread_coordinates_witness :
  xPos cfg 3 = 1 /\ yPos cfg 3 = 1 /\ 3 = yPos cfg 3 * len cfg + xPos cfg 3.
Proof.
  destruct (thread_coordinates cfg ltac:(unfold valid_config; simpl; lia) 3)
    as (_ & _ & Hid & _).
  - unfold valid_id. vm_compute. split; [discriminate|reflexivity].
  - split; [reflexivity|]. split; [reflexivity|exact Hid].
Defined.

Lemma neighbour_adjacent_witness :
  neighbour cfg 0 E = 1 /\ neighbour cfg 0 N = -1.
Proof.
  split.
  - apply (neighbour_adjacent cfg ltac:(unfold valid_config; simpl; lia) 0 E).
    unfold valid_id. vm_compute. split; [discriminate|reflexivity].
  - apply (neighbour_adjacent cfg ltac:(unfold valid_config; simpl; lia) 0 N).
    unfold valid_id. vm_compute. split; [discriminate|reflexivity].
Defined.

Lemma neighbours_distinct_witness :
  neighbour cfg 0 E <> 0 /\ (neighbour cfg 0 E = neighbour cfg 0 S -> E = S).
Proof.
  apply (neighbours_distinct cfg ltac:(unfold valid_config; simpl; lia) 0 E S).
  - unfold valid_id. vm_compute. split; [discriminate|reflexivity].
  - vm_compute. discriminate.
Defined.

Lemma neighbourList_ordered_witness :
  neighbourList cfg 0 = [S; E] /\ numNeighbours cfg 0 = 2.
Proof.
  destruct (neighbourList_ordered cfg ltac:(unfold valid_config; simpl; lia) 0)
    as (Hl & _ & _ & Hn & _).
  - unfold valid_id. vm_compute. split; [discriminate|reflexivity].
  - split; [rewrite Hl; reflexivity|rewrite Hn; reflexivity].
Defined.

Lemma initial_state_witness :
  grd (subgrid start) 1 1 = 0 /\
  rd (edgeIn start N) 2 = 255 * 65536 /\ rd (edgeIn start E) 2 = 0.
Proof.
  destruct (initial_state cfg ltac:(unfold valid_config; simpl; lia) 0 (demo_memory 0))
    as (_ & Hg & He & _).
  - split; [|split].
    + split; [reflexivity|]. repeat constructor.
    + split; [reflexivity|]. repeat constructor.
    + intros i. reflexivity.
  - split; [apply Hg; vm_compute; lia|]. split.
    + rewrite He by (vm_compute; lia). reflexivity.
    + rewrite He by (vm_compute; lia). reflexivity.
Defined.

Lemma start_within : inputs_within (Ln cfg) 0 (255 * 65536) start.
Proof.
  split.
  - intros y x Hy Hx. change (Ln cfg) with 3%nat in Hy, Hx.
    destruct y as [|[|[|y]]]; [| | |lia];
      (destruct x as [|[|[|x]]]; [| | |lia]); vm_compute; split; discriminate.
  - intros d j Hj. change (Ln cfg) with 3%nat in Hj.
    destruct j as [|[|[|[|j]]]]; [lia| | | |lia];
      destruct d; vm_compute; split; discriminate.
Qed.

Lemma stencil_within_bounds_witness :
  0 <= grd (newSubgrid (update_state cfg start)) 0 0 <= 255 * 65536 /\
  0 <= rd (edgeOut (update_state cfg start) E) 1 <= 255 * 65536.
Proof.
  destruct (stencil_within_bounds cfg 0 (255 * 65536) start) as (Hg & He & _).
  - exact start_shape.
  - lia.
  - lia.
  - exact start_within.
  - split; [apply Hg; vm_compute; lia|apply He; vm_compute; lia].
Defined.

Lemma exchange_sends_each_neighbour_once_witness :
  match run_step cfg 0 demo_offers start with
  | Some (inl th', out, _) =>
      out.*1 = [2; 1] /\ edgesSent th' = 2 /\ 2 <= edgesReceived th'
  | _ => False
  end.
Proof.
  destruct (run_step cfg 0 demo_offers start) as [[[r out] rest]|] eqn:Hrun.
  - destruct (exchange_sends_each_neighbour_once cfg 0 start demo_offers r out rest Hrun)
      as (_ & _ & _ & Hdone & _).
    destruct r as [th'|th'].
    + destruct (Hdone th' eq_refl) as (Hs & Ho & Hr).
      split; [exact Ho|]. split; [exact Hs|exact Hr].
    + vm_compute in Hrun. discriminate.
  - vm_compute in Hrun. discriminate.
Defined.


Lemma handlers_stay_in_bounds_witness :
  exists th' out,
    exchange_iter cfg 0 (mkEvent false (Some early_edge)) (thread (node one_ahead 0))
      = Some (th', out) /\ (length out <= 1)%nat.
Proof.
  destruct (handlers_stay_in_bounds cfg demo_memory
              ltac:(unfold valid_config; simpl; lia) demo_memory_shape
              one_ahead 0 (mkEvent false (Some early_edge)))
    as (th' & out & Hit & Hlen & _).
  - apply run_reachable, reach_init.
  - unfold valid_id. vm_compute. split; [discriminate|reflexivity].
  - vm_compute. reflexivity.
  - exists 1, []. vm_compute. reflexivity.
  - exists th', out. split; [exact Hit|exact Hlen].
Defined.

Lemma channel_discipline_witness :
  chan one_ahead (1, 0) = [early_edge] /\
  valid_id cfg 1 /\ valid_id cfg 0 /\ (length (chan one_ahead (1%Z, 0%Z)) <= 2)%nat.
Proof.
  split; [vm_compute; reflexivity|].
  destruct (channel_discipline cfg demo_memory
              ltac:(unfold valid_config; simpl; lia) demo_memory_shape
              one_ahead 1 0) as (Hs & Hd & _ & _ & Hlen).
  - apply run_reachable, reach_init.
  - vm_compute. discriminate.
  - split; [exact Hs|]. split; [exact Hd|exact Hlen].
Defined.

Lemma boundary_held_constant_witness :
  t (thread (node east_first 0)) = 1 /\
  rd (edgeIn (thread (node east_first 0)) N) 1 = 255 * 65536.
Proof.
  split; [vm_compute; reflexivity|].
  destruct (boundary_held_constant cfg demo_memory
              ltac:(unfold valid_config; simpl; lia) demo_memory_shape
              east_first 0 N 1) as [He _].
  - apply run_reachable, reach_init.
  - unfold valid_id. vm_compute. split; [discriminate|reflexivity].
  - vm_compute. reflexivity.
  - vm_compute. lia.
  - rewrite He. reflexivity.
Defined.

Lemma temperatures_within_range_witness :
  grd (subgrid (thread (node east_first 0))) 0 0 = 8355840 /\
  Z.land (sar (grd (subgrid (thread (node east_first 0))) 0 0) 16) 255 = 127.
Proof.
  split; [vm_compute; reflexivity|].
  destruct (temperatures_within_range cfg demo_memory
              ltac:(unfold valid_config; simpl; lia) demo_memory_shape
              east_first 0) as [_ Hv].
  - apply run_reachable, reach_init.
  - unfold valid_id. vm_compute. split; [discriminate|reflexivity].
  - destruct (Hv 0%nat 0%nat) as [E _]; [vm_compute; lia|vm_compute; lia|].
    rewrite E. vm_compute. reflexivity.
Defined.

Lemma global_grid_recurrence_witness :
  global_temp cfg demo_memory 1 0 0 =
    (255 * 65536 + global_temp cfg demo_memory 0 1 0 +
     255 * 65536 + global_temp cfg demo_memory 0 0 1) `div` 4 /\
  global_temp cfg demo_memory 1 0 0 = 8355840.
Proof.
  destruct (global_grid_recurrence cfg demo_memory
              ltac:(unfold valid_config; simpl; lia) demo_memory_shape 0 0 0)
    as (_ & Hrec & _).
  - vm_compute. reflexivity.
  - vm_compute. split; [discriminate|reflexivity].
  - vm_compute. split; [discriminate|reflexivity].
  - split; [exact Hrec|]. vm_compute. reflexivity.
Defined.


Lemma finished_thread_drained_witness :
  t (thread (node solo_run 0)) = nsteps /\ forall src, chan solo_run (src, 0) = [].
Proof.
  destruct (finished_thread_drained solo_config demo_memory
              ltac:(unfold valid_config; simpl; lia) demo_memory_shape solo_run 0)
    as (Ht & Hc & _).
  - apply run_reachable, reach_init.
  - unfold valid_id. vm_compute. split; [discriminate|reflexivity].
  - vm_compute. reflexivity.
  - split; [exact Ht|exact Hc].
Defined.

Lemma phase_bit_identifies_step_witness :
  tag_phase (rd early_edge 0) <> Z.land (t (thread (node one_ahead 0))) 1 /\
  early_edge = sent_msg cfg demo_memory 1 1 W.
Proof.
  destruct (phase_bit_identifies_step cfg demo_memory
              ltac:(unfold valid_config; simpl; lia) demo_memory_shape
              one_ahead 0 1 early_edge [])
    as (d & Hsrc & [[Hp _] | (Hp & Hm & _)]).
  - apply run_reachable, reach_init.
  - unfold valid_id. vm_compute. split; [discriminate|reflexivity].
  - vm_compute. reflexivity.
  - vm_compute. reflexivity.
  - vm_compute in Hp. discriminate.
  - split; [exact Hp|].
    assert (t (thread (node one_ahead 0)) = 0) as Et by (vm_compute; reflexivity).
    rewrite Et in Hm.
    destruct d; vm_compute in Hsrc; try discriminate Hsrc. exact Hm.
Defined.


Lemma mesh_never_deadlocks_witness :
  exists w', step cfg one_ahead w' /\ reachable cfg demo_memory w'.
Proof.
  apply (mesh_never_deadlocks cfg demo_memory
           ltac:(unfold valid_config; simpl; lia) demo_memory_shape one_ahead 3).
  - apply run_reachable, reach_init.
  - unfold valid_id. vm_compute. split; [discriminate|reflexivity].
  - vm_compute. reflexivity.
Defined.

Lemma mesh_terminates_witness :
  1 <= potential cfg demo_world /\
  potential cfg demo_world <= 9 * nsteps * (len cfg * len cfg).
Proof.
  destruct (perform cfg demo_world (Iterate 0 true None)) as [w1|] eqn:Hp.
  - apply (mesh_terminates cfg demo_memory
             ltac:(unfold valid_config; simpl; lia) demo_memory_shape
             demo_world w1 1).
    + apply reach_init.
    + apply (steps_more cfg 0 demo_world w1 w1).
      * apply (perform_sound cfg demo_world (Iterate 0 true None)). exact Hp.
      * apply steps_none.
  - assert (match perform cfg demo_world (Iterate 0 true None) with
            | Some _ => true
            | None => false
            end = true) as Hsome by (vm_compute; reflexivity).
    rewrite Hp in Hsome. discriminate.
Defined.

Lemma mesh_runs_to_completion_witness :
  exists m w', steps cfg m one_ahead w' /\ reachable cfg demo_memory w' /\
    Z.of_nat m <= 9 * nsteps * (len cfg * len cfg) /\
    forall me, valid_id cfg me ->
      ctl (node w' me) = Finished /\ t (thread (node w' me)) = nsteps.
Proof.
  apply (mesh_runs_to_completion cfg demo_memory
           ltac:(unfold valid_config; simpl; lia) demo_memory_shape one_ahead).
  apply run_reachable, reach_init.
Defined.

End Examples.
